(** * Obsidian-Google-Drive: the push engine and its Drive client

    A shallow embedding of
      - the Drive client (query construction, paginated search, root
        folder resolution, folder and file creation, content update, path
        resolution, grouped delete),
      - [push] of [src/helpers/push.ts],
      - [push] of the variant that opens a confirmation modal and also
        synchronises configuration files,
    followed by the properties of the specification, each proved or
    refuted on these definitions.

    Conventions.  A JavaScript object used as a map is the list of its
    own properties in [Object.entries] order; reading [o[k]] also sees
    what [Object.prototype] defines.  An [undefined] string is [None].
    An HTTP body parsed by [.json()] is [None] when the code would see a
    falsy value.  Every request that reaches the HTTP client is appended
    to a trace, and the remote service answers a request as a function of
    the requests sent before it.  An async function is run up to its
    first [await] when it is called; closures that run together are
    resumed in an order that the environment decides. *)

From Stdlib Require Import String Ascii List Bool Arith Lia DecimalString.
From Stdlib Require Import NArith ZArith Permutation.
Import ListNotations.
Local Open Scope list_scope.
Local Open Scope string_scope.

(* ================================================================= *)
(** ** JavaScript values used by the code *)

Module JS.

(** [!s] for a possibly undefined string: undefined and the empty string
    are falsy. *)
Definition truthy (s : option string) : bool :=
  match s with
  | Some s' => negb (String.eqb s' "")
  | None => false
  end.

(** A truthy string, or nothing: the value that passes [if (s)]. *)
Definition nonEmpty (s : option string) : option string :=
  if truthy s then s else None.

(** The double quote character, as a one-character string. *)
Definition dquote : string := String (ascii_of_nat 34) EmptyString.

(** A template literal prints an undefined value as the word itself. *)
Definition template (s : option string) : string :=
  match s with Some s' => s' | None => "undefined" end.

(** [Array.prototype.join] on an array of strings. *)
Definition join (sep : string) (l : list string) : string :=
  String.concat sep l.

(** Decimal rendering of a non-negative integer inside a template. *)
Definition of_nat (n : nat) : string :=
  NilEmpty.string_of_uint (Nat.to_uint n).

(** [s.split("/")]: the result is never empty. *)
Fixpoint split_from (cur : string) (s : string) : list string :=
  match s with
  | EmptyString => [cur]
  | String c rest =>
      if Ascii.eqb c "/"%char then cur :: split_from "" rest
      else split_from (cur ++ String c "") rest
  end.

Definition split (s : string) : list string := split_from "" s.

(** [a < b] on strings compares UTF-16 code units.  On the UTF-8 bytes
    of well-formed strings this is the order of the bytes, except that a
    character beyond the basic plane (lead byte [F0] and above), which
    UTF-16 writes with surrogates, comes before the characters from
    [U+E000] to [U+FFFF] (lead bytes [EE] and [EF]). *)
Definition unitBefore (x y : ascii) : bool :=
  let nx := nat_of_ascii x in
  let ny := nat_of_ascii y in
  if ((240 <=? nx) && (238 <=? ny) && (ny <? 240))%nat then true
  else if ((240 <=? ny) && (238 <=? nx) && (nx <? 240))%nat then false
  else (nx <? ny)%nat.

Fixpoint lt (a b : string) : bool :=
  match a, b with
  | _, EmptyString => false
  | EmptyString, String _ _ => true
  | String x a', String y b' =>
      if Ascii.eqb x y then lt a' b' else unitBefore x y
  end.

(** An object is the list of its own enumerable properties in the order
    in which [Object.entries] lists them: the keys that are array
    indices first, in ascending numeric order, then the other keys in
    the order of their creation. *)
Definition Obj (V : Type) := list (string * V).

(** The own property [k] of [o]. *)
Fixpoint get {V} (o : Obj V) (k : string) : option V :=
  match o with
  | [] => None
  | (k', v) :: o' => if String.eqb k' k then Some v else get o' k
  end.

Definition has {V} (o : Obj V) (k : string) : bool :=
  match get o k with Some _ => true | None => false end.

Definition digit (c : ascii) : option N :=
  let n := N_of_ascii c in
  if ((48 <=? n) && (n <=? 57))%N then Some (n - 48)%N else None.

Fixpoint number (acc : N) (s : string) : option N :=
  match s with
  | EmptyString => Some acc
  | String c rest =>
      match digit c with
      | Some d => number (10 * acc + d)%N rest
      | None => None
      end
  end.

(** The array index that a key spells: a decimal integer below
    [2^32 - 1] written without a leading zero. *)
Definition arrayIndex (k : string) : option N :=
  match k with
  | EmptyString => None
  | String c rest =>
      if Ascii.eqb c "0"%char && negb (String.eqb rest "") then None
      else
        match number 0 k with
        | Some n => if (n <=? 4294967294)%N then Some n else None
        | None => None
        end
  end.

(** Whether a new key [k] is listed before the existing key [k']. *)
Definition before (k k' : string) : bool :=
  match arrayIndex k, arrayIndex k' with
  | Some n, Some n' => (n <? n')%N
  | Some _, None => true
  | None, _ => false
  end.

Fixpoint insert {V} (o : Obj V) (k : string) (v : V) : Obj V :=
  match o with
  | [] => [(k, v)]
  | (k', v') :: o' =>
      if before k k' then (k, v) :: o else (k', v') :: insert o' k v
  end.

Fixpoint replace {V} (o : Obj V) (k : string) (v : V) : Obj V :=
  match o with
  | [] => []
  | (k', v') :: o' =>
      if String.eqb k' k then (k', v) :: o' else (k', v') :: replace o' k v
  end.

(** Defining the own property [k]: an existing key keeps its place, a
    new key takes the place that the order of enumeration gives it. *)
Definition define {V} (o : Obj V) (k : string) (v : V) : Obj V :=
  if has o k then replace o k v else insert o k v.

(** [o[k] = v] for a string [v].  The key [__proto__] is an accessor of
    [Object.prototype], whose setter ignores a string: unless the object
    has an own property of that name, the assignment changes nothing. *)
Definition assign {V} (o : Obj V) (k : string) (v : V) : Obj V :=
  if String.eqb k "__proto__" && negb (has o k) then o else define o k v.

(** [delete o[k]]. *)
Definition delete {V} (o : Obj V) (k : string) : Obj V :=
  filter (fun kv => negb (String.eqb (fst kv) k)) o.

(** [Object.fromEntries]: every entry defines an own property, a later
    entry overwriting an earlier one of the same key. *)
Definition fromEntries {V} (l : list (string * V)) : Obj V :=
  fold_left (fun o kv => define o (fst kv) (snd kv)) l [].

(** [entries.sort(([a], [b]) => (a < b ? -1 : a > b ? 1 : 0))]: the
    sort is stable. *)
Fixpoint insertSorted {V} (e : string * V) (l : list (string * V))
    : list (string * V) :=
  match l with
  | [] => [e]
  | e' :: l' =>
      if lt (fst e') (fst e) then e' :: insertSorted e l' else e :: l
  end.

Definition sortByKey {V} (l : list (string * V)) : list (string * V) :=
  fold_right insertSorted [] l.

(** What [Object.prototype] defines, and so what every plain object
    inherits. *)
Definition prototype : list string :=
  ["constructor"; "__defineGetter__"; "__defineSetter__"; "hasOwnProperty";
   "__lookupGetter__"; "__lookupSetter__"; "isPrototypeOf";
   "propertyIsEnumerable"; "toString"; "valueOf"; "__proto__";
   "toLocaleString"].

(** What reading [o[k]] gives on an object whose own properties are
    strings: the own property, or the member of [Object.prototype] of
    that name, or [undefined]. *)
Inductive Value :=
| undefined
| str (s : string)
| builtin (k : string).

Definition index (o : Obj string) (k : string) : Value :=
  match get o k with
  | Some v => str v
  | None => if existsb (String.eqb k) prototype then builtin k else undefined
  end.

Definition ofOption (s : option string) : Value :=
  match s with Some s' => str s' | None => undefined end.

(** [!v]: a member of [Object.prototype] is a function or an object,
    hence truthy. *)
Definition isTruthy (v : Value) : bool :=
  match v with
  | undefined => false
  | str s => negb (String.eqb s "")
  | builtin _ => true
  end.

(** How a template literal prints a value.  A built-in function prints
    as V8 prints native code; [__proto__] reads as [Object.prototype]
    itself, an object. *)
Definition text (v : Value) : string :=
  match v with
  | undefined => "undefined"
  | str s => s
  | builtin k =>
      if String.eqb k "__proto__" then "[object Object]"
      else "function "
           ++ (if String.eqb k "constructor" then "Object" else k)
           ++ "() { [native code] }"
  end.

(** [Number.prototype.toString(16)] of one byte, two upper-case digits,
    as [encodeURIComponent] writes it. *)
Definition hex_digit (n : nat) : ascii :=
  match n with
  | 0 => "0" | 1 => "1" | 2 => "2" | 3 => "3" | 4 => "4" | 5 => "5"
  | 6 => "6" | 7 => "7" | 8 => "8" | 9 => "9" | 10 => "A" | 11 => "B"
  | 12 => "C" | 13 => "D" | 14 => "E" | _ => "F"
  end%char.

Definition unreserved (c : ascii) : bool :=
  let n := nat_of_ascii c in
  (((65 <=? n) && (n <=? 90)) || ((97 <=? n) && (n <=? 122))
   || ((48 <=? n) && (n <=? 57)))%nat
  || existsb (Ascii.eqb c)
       ["-"; "_"; "."; "!"; "~"; "*"; "'"; "("; ")"]%char.

(** [encodeURIComponent] on the UTF-8 bytes of a well-formed string. *)
Fixpoint encodeURIComponent (s : string) : string :=
  match s with
  | EmptyString => EmptyString
  | String c rest =>
      if unreserved c then String c (encodeURIComponent rest)
      else
        let n := nat_of_ascii c in
        String "%" (String (hex_digit (n / 16))
                      (String (hex_digit (n mod 16))
                         (encodeURIComponent rest)))
  end.

End JS.

(* ================================================================= *)
(** ** The data model of the Drive client *)

Definition Props := JS.Obj string.

Record FileMetadata := mkFileMetadata {
  id : string;
  name : string;
  description : string;
  mimeType : string;
  starred : bool;
  properties : option Props;   (* absent when the file carries none *)
  modifiedTime : string
}.

Inductive StringSearch :=
| Exact (s : string)
| Contains (s : string)
| Not (s : string).

Inductive DateComparison :=
| DateEq (s : string)
| DateGt (s : string)
| DateLt (s : string).

Inductive OneOrMany (A : Type) :=
| One (a : A)
| Many (l : list A).
Arguments One {A} a.
Arguments Many {A} l.

Inductive Key :=
| Kname | KmimeType | Kparent | Kstarred | Kquery | Kproperties
| KmodifiedTime.

(** One own property of a [QueryMatch] object.  [Fundefined k] is a key
    that is present with the value [undefined]. *)
Inductive Field :=
| Fname (v : OneOrMany StringSearch)
| FmimeType (v : OneOrMany StringSearch)
| Fparent (v : string)
| Fstarred (v : bool)
| Fquery (v : string)
| Fproperties (v : Props)
| FmodifiedTime (v : DateComparison)
| Fundefined (k : Key).

(** A [QueryMatch] is the list of its own properties in insertion
    order. *)
Definition QueryMatch := list Field.

Definition folderMimeType : string := "application/vnd.google-apps.folder".

(** A [[key, value]] pair after the [flatMap] of [getQuery]: arrays have
    been spread, undefined values dropped. *)
Inductive Entry :=
| Ename (v : StringSearch)
| EmimeType (v : StringSearch)
| Eparent (v : string)
| Estarred (v : bool)
| Equery (v : string)
| Eproperties (v : Props)
| EmodifiedTime (v : DateComparison).

(** What a query handler returns: a string, or for [properties] an array
    of strings. *)
Inductive Handled :=
| HString (s : string)
| HArray (l : list string).

Module queryHandlers.

Definition name (n : StringSearch) : string :=
  match n with
  | Exact s => "name='" ++ s ++ "'"
  | Contains s => "name contains '" ++ JS.dquote ++ s ++ JS.dquote ++ "'"
  | Not s => "name != '" ++ s ++ "'"
  end.

Definition mimeType (m : StringSearch) : string :=
  match m with
  | Exact s => "mimeType='" ++ s ++ "'"
  | Contains s => "mimeType contains '" ++ s ++ "'"
  | Not s => "mimeType != '" ++ s ++ "'"
  end.

Definition parent (p : string) : string := "'" ++ p ++ "' in parents".

Definition starred (b : bool) : string :=
  "starred=" ++ (if b then "true" else "false").

Definition query (q : string) : string := "fullText contains '" ++ q ++ "'".

Definition properties (p : Props) : list string :=
  map (fun kv =>
         "properties has { key='" ++ fst kv ++ "' and value='"
         ++ snd kv ++ "' }") p.

Definition modifiedTime (d : DateComparison) : string :=
  match d with
  | DateEq s => "modifiedTime = '" ++ s ++ "'"
  | DateGt s => "modifiedTime > '" ++ s ++ "'"
  | DateLt s => "modifiedTime < '" ++ s ++ "'"
  end.

(** [queryHandlers[key](value)]. *)
Definition apply (e : Entry) : Handled :=
  match e with
  | Ename v => HString (name v)
  | EmimeType v => HString (mimeType v)
  | Eparent v => HString (parent v)
  | Estarred v => HString (starred v)
  | Equery v => HString (query v)
  | Eproperties v => HArray (properties v)
  | EmodifiedTime v => HString (modifiedTime v)
  end.

End queryHandlers.

(** How [join] prints one element: an array element is printed by its
    own [toString], that is, joined with commas. *)
Definition to_string (h : Handled) : string :=
  match h with
  | HString s => s
  | HArray l => JS.join "," l
  end.

(** The callback of [Object.entries(match).flatMap]. *)
Definition spread (f : Field) : list Entry :=
  match f with
  | Fname (One v) => [Ename v]
  | Fname (Many l) => map Ename l
  | FmimeType (One v) => [EmimeType v]
  | FmimeType (Many l) => map EmimeType l
  | Fparent v => [Eparent v]
  | Fstarred v => [Estarred v]
  | Fquery v => [Equery v]
  | Fproperties v => [Eproperties v]
  | FmodifiedTime v => [EmodifiedTime v]
  | Fundefined _ => []
  end.

Definition matchQuery (m : QueryMatch) : string :=
  let entries := flat_map spread m in
  "("
  ++ JS.join " and "
       (map (fun e => to_string (queryHandlers.apply e)) entries)
  ++ ")".

(** The template literal of [getQuery], before it is percent-encoded. *)
Definition rawQuery (matches : list QueryMatch) : string :=
  "(" ++ JS.join " or " (map matchQuery matches) ++ ") and trashed=false".

Definition getQuery (matches : list QueryMatch) : string :=
  JS.encodeURIComponent (rawQuery matches).

(* ================================================================= *)
(** ** The HTTP client, the world and the monad of the code *)

(** The body of a listing response. *)
Record Page := mkPage {
  nextPageToken : option string;
  files : list FileMetadata
}.

(** The JSON sent to [drive/v3/files] to create an object. *)
Record FileJson := mkFileJson {
  j_name : string;
  j_mimeType : string;
  j_description : option string;
  j_parents : option (list JS.Value);
  j_properties : option Props
}.

(** [Partial<Omit<FileMetadata, "id">>]. *)
Record Metadata := mkMetadata {
  m_name : option string;
  m_description : option string;
  m_mimeType : option string;
  m_starred : option bool;
  m_properties : option Props;
  m_modifiedTime : option string
}.

Definition noMetadata : Metadata := mkMetadata None None None None None None.

Record Blob := mkBlob {
  blob_data : string;
  blob_type : string
}.

(** The [metadata] part of the multipart upload:
    [{ name, mimeType: file.type, parents: [parent], ...metadata }]. *)
Record UploadJson := mkUploadJson {
  u_name : string;
  u_mimeType : string;
  u_parents : list JS.Value;
  u_description : option string;
  u_starred : option bool;
  u_properties : option Props;
  u_modifiedTime : option string
}.

(** A [FormData] body of text parts, in the order they were appended. *)
Definition FormData := list (string * string).

(** The requests the code sends.  [GET_files] is a listing,
    [GET_media] the download of [getFile]; [GET_metadata] is the request
    of [getFileMetadata], which the dialog calls and whose body is
    missing from the sources. *)
Inductive Call :=
| GET_files (url : string)
| POST_files (json : FileJson)
| POST_upload (metadata : UploadJson) (file : Blob)
| PATCH_upload (url : string) (metadata : Metadata) (file : Blob)
| POST_batch (body : FormData)
| GET_media (url : string)
| GET_metadata (id : JS.Value).

(** The HTTP client: each answer depends on the requests sent before and
    on the request itself.  A JSON answer is [None] where the code sees a
    falsy body; the body of a creation or an update is read through its
    [id]. *)
Record KyInstance := mkKy {
  get_files : list Call -> string -> option Page;
  post_files : list Call -> FileJson -> option string;
  post_upload : list Call -> UploadJson -> Blob -> option string;
  patch_upload : list Call -> string -> Metadata -> Blob -> option string;
  post_batch : list Call -> FormData -> string;
  get_media : list Call -> string -> option string;
  get_metadata : list Call -> JS.Value -> option FileMetadata
}.

Inductive Operation := create | delete | modify.

Definition Operation_eqb (a b : Operation) : bool :=
  match a, b with
  | create, create | delete, delete | modify, modify => true
  | _, _ => false
  end.

(** The persisted settings. *)
Record Settings := mkSettings {
  operations : JS.Obj Operation;       (* path -> pending action *)
  driveIdToPath : JS.Obj string        (* remote id -> path *)
}.

(** Everything a run of the code can read or change.  [pathsToIds] and
    [completed] are the locals of those names in [push], which the
    closures handed to [batchAsyncs] share and update. *)
Record World := mkWorld {
  settings : Settings;
  syncing : bool;
  pathsToIds : JS.Obj string;
  completed : nat;
  trace : list Call;          (* requests sent so far, oldest first *)
  notices : list string;      (* [new Notice(..)], oldest first *)
  progress : list string      (* [syncNotice.setMessage(..)] *)
}.

Inductive Exn := RangeError | TypeError.

Inductive Outcome (A : Type) :=
| Val (a : A)        (* the awaited value *)
| Throw (e : Exn)    (* the promise rejects *)
| Diverge.           (* the loop budget ran out *)
Arguments Val {A} a.
Arguments Throw {A} e.
Arguments Diverge {A}.

Definition M (A : Type) : Type := World -> Outcome A * World.

Definition ret {A} (a : A) : M A := fun w => (Val a, w).

Definition bind {A B} (c : M A) (k : A -> M B) : M B :=
  fun w =>
    match c w with
    | (Val a, w') => k a w'
    | (Throw e, w') => (Throw e, w')
    | (Diverge, w') => (Diverge, w')
    end.

Definition throw {A} (e : Exn) : M A := fun w => (Throw e, w).

Definition diverge {A} : M A := fun w => (Diverge, w).

Declare Scope js_scope.
Delimit Scope js_scope with js.
Notation "x <- c ;; k" := (bind c (fun x => k))
  (at level 61, c at next level, right associativity) : js_scope.
Notation "c ;; k" := (bind c (fun _ => k))
  (at level 61, right associativity) : js_scope.
Local Open Scope js_scope.

Definition getWorld : M World := fun w => (Val w, w).

Definition setSettings (s : Settings) : M unit :=
  fun w => (Val tt, mkWorld s (syncing w) (pathsToIds w) (completed w)
                      (trace w) (notices w) (progress w)).

Definition setSyncing (b : bool) : M unit :=
  fun w => (Val tt, mkWorld (settings w) b (pathsToIds w) (completed w)
                      (trace w) (notices w) (progress w)).

Definition setPathsToIds (o : JS.Obj string) : M unit :=
  fun w => (Val tt, mkWorld (settings w) (syncing w) o (completed w)
                      (trace w) (notices w) (progress w)).

Definition setCompleted (n : nat) : M unit :=
  fun w => (Val tt, mkWorld (settings w) (syncing w) (pathsToIds w) n
                      (trace w) (notices w) (progress w)).

(** [new Notice(text)]. *)
Definition Notice (text : string) : M unit :=
  fun w => (Val tt, mkWorld (settings w) (syncing w) (pathsToIds w)
                      (completed w) (trace w) (notices w ++ [text])%list
                      (progress w)).

(** [syncNotice.setMessage(text)]. *)
Definition setMessage (text : string) : M unit :=
  fun w => (Val tt, mkWorld (settings w) (syncing w) (pathsToIds w)
                      (completed w) (trace w) (notices w)
                      (progress w ++ [text])%list).

(** The world once the request [c] has been sent. *)
Definition sent (c : Call) (w : World) : World :=
  mkWorld (settings w) (syncing w) (pathsToIds w) (completed w)
    (trace w ++ [c])%list (notices w) (progress w).

(** One request: the answer is computed from the trace so far, then the
    request is recorded. *)
Definition request {A} (c : Call) (answer : list Call -> A) : M A :=
  fun w => (Val (answer (trace w)), sent c w).

(** A loop body run for each element in order. *)
Fixpoint forEach {A} (f : A -> M unit) (l : list A) : M unit :=
  match l with
  | [] => ret tt
  | x :: l' => f x ;; forEach f l'
  end.

(** [array.map] with a callback that may throw or await, in order. *)
Fixpoint mapM {A B} (f : A -> M B) (l : list A) : M (list B) :=
  match l with
  | [] => ret []
  | x :: l' => y <- f x ;; ys <- mapM f l' ;; ret (y :: ys)
  end.

(** [array.filter] with a callback that may throw, in order. *)
Fixpoint filterM {A} (f : A -> M bool) (l : list A) : M (list A) :=
  match l with
  | [] => ret []
  | x :: l' =>
      keep <- f x ;;
      rest <- filterM f l' ;;
      ret (if keep then x :: rest else rest)
  end.

(* ================================================================= *)
(** ** Promises and async functions *)

(** The promise of an async function that has been called: settled with
    a value, rejected, out of budget, or waiting at an [await].
    Resuming a waiting promise in the world [w] leaves the world
    [effect w] and the promise [next w]: the function has run on to its
    next [await] or to its end. *)
Inductive Pending (A : Type) : Type :=
| Settled (a : A)
| Rejected (e : Exn)
| Stuck
| Awaiting (effect : World -> World) (next : World -> Pending A).
Arguments Settled {A} a.
Arguments Rejected {A} e.
Arguments Stuck {A}.
Arguments Awaiting {A} effect next.

(** Calling an async function runs its code up to the first [await] and
    gives its promise. *)
Definition Async (A : Type) : Type := M (Pending A).

(** An exception thrown inside an async function rejects its promise. *)
Definition settle {A} (o : Outcome (Pending A)) : Pending A :=
  match o with
  | Val p => p
  | Throw e => Rejected e
  | Diverge => Stuck
  end.

(** The promise that waits and then runs [rest]. *)
Definition suspend {A} (rest : M (Pending A)) : Pending A :=
  Awaiting (fun w => snd (rest w)) (fun w => settle (fst (rest w))).

(** The promise of a call as its caller holds it. *)
Definition start {A} (c : Async A) : M (Pending A) :=
  fun w => (Val (settle (fst (c w))), snd (c w)).

(** [await p] while nothing else runs. *)
Fixpoint await {A} (p : Pending A) : M A :=
  fun w =>
    match p with
    | Settled a => (Val a, w)
    | Rejected e => (Throw e, w)
    | Stuck => (Diverge, w)
    | Awaiting effect next => await (next w) (effect w)
    end.

(** [await f(..)] in code that runs alone. *)
Definition awaited {A} (c : Async A) : M A := p <- c ;; await p.

(** The rest [k] of an async function after [await p]: when [p] is
    settled the function goes on at once, otherwise it goes on in the
    very step that settles [p]. *)
Fixpoint andThen {A B} (p : Pending A) (k : A -> Async B) : Async B :=
  match p with
  | Settled a => k a
  | Rejected e => ret (Rejected e)
  | Stuck => ret Stuck
  | Awaiting effect next =>
      ret (Awaiting
             (fun w => snd (andThen (next w) k (effect w)))
             (fun w => settle (fst (andThen (next w) k (effect w)))))
  end.

Definition bindA {A B} (c : Async A) (k : A -> Async B) : Async B :=
  p <- c ;; andThen p k.

Notation "x <~ c ;; k" := (bindA c (fun x => k))
  (at level 61, c at next level, right associativity) : js_scope.

Definition retA {A} (a : A) : Async A := ret (Settled a).

(** Code without [await] inside an async function. *)
Definition sync {A} (c : M A) : Async A := a <- c ;; ret (Settled a).

(** [await] of a value that is not the answer to a request, such as a
    read of the vault: the function is suspended and later resumed with
    the value. *)
Definition later {A} (a : A) : Async A :=
  ret (Awaiting (fun w => w) (fun _ => Settled a)).

(** [await] of a request: the request is sent at once; its answer, which
    the requests sent before it determine, is there when the function is
    resumed. *)
Definition requestA {A} (c : Call) (answer : list Call -> A) : Async A :=
  fun w =>
    (Val (Awaiting (fun w' => w') (fun _ => Settled (answer (trace w)))),
     sent c w).

Fixpoint mapP {A B} (f : A -> B) (p : Pending A) : Pending B :=
  match p with
  | Settled a => Settled (f a)
  | Rejected e => Rejected e
  | Stuck => Stuck
  | Awaiting effect next => Awaiting effect (fun w => mapP f (next w))
  end.

(** Two promises awaited together.  As long as both wait,
    [choose n w] tells which is resumed next in the world [w], [n]
    resumptions having taken place: the first ([true]) or the second.  The
    results are combined in the order in which the promises settle.  A
    rejection rejects the whole at once; what the other promise still
    does after that is not followed. *)
Fixpoint par {A} (combine : A -> A -> A) (choose : nat -> World -> bool)
    (p : Pending A) : nat -> Pending A -> Pending A :=
  fix par' (n : nat) (q : Pending A) {struct q} : Pending A :=
    match p with
    | Rejected e => Rejected e
    | Stuck => Stuck
    | Settled a => mapP (combine a) q
    | Awaiting effect next =>
        match q with
        | Rejected e => Rejected e
        | Stuck => Stuck
        | Settled b => mapP (fun a => combine b a) p
        | Awaiting effect' next' =>
            Awaiting
              (fun w => if choose n w then effect w else effect' w)
              (fun w => if choose n w
                        then par combine choose (next w) (S n) q
                        else par' (S n) (next' w))
        end
    end.

(** [Promise.all] over promises that were started in the order of the
    list.  [turn j n w] tells whether the promise started [j]-th is
    resumed before those started after it. *)
Fixpoint all {A} (combine : A -> A -> A) (none : A)
    (turn : nat -> nat -> World -> bool) (j : nat) (ps : list (Pending A))
    : Pending A :=
  match ps with
  | [] => Settled none
  | p :: ps' =>
      par combine (turn j) p 0 (all combine none turn (S j) ps')
  end.

(* ================================================================= *)
(** ** The Drive client *)

Inductive Order := ascending | descending.

(** [keyof FileMetadata]. *)
Inductive FileKey :=
| key_id | key_name | key_description | key_mimeType | key_starred
| key_properties | key_modifiedTime.

Definition FileKey_name (k : FileKey) : string :=
  match k with
  | key_id => "id"
  | key_name => "name"
  | key_description => "description"
  | key_mimeType => "mimeType"
  | key_starred => "starred"
  | key_properties => "properties"
  | key_modifiedTime => "modifiedTime"
  end.

(** The [data] argument shared by [paginateFiles] and [searchFiles]. *)
Record ListData := mkListData {
  matches : option (list QueryMatch);
  order : option Order;
  include : option (list FileKey)
}.

(** [match.query], for the [find] of [paginateFiles]. *)
Fixpoint query_of (m : QueryMatch) : option string :=
  match m with
  | [] => None
  | Fquery q :: _ => Some q
  | _ :: m' => query_of m'
  end.

Definition default_include : list FileKey :=
  [key_id; key_name; key_mimeType; key_starred; key_description;
   key_properties].

Definition listUrl (data : ListData) (pageToken : option string)
    (pageSize : option nat) : string :=
  let order := match order data with Some o => o | None => descending end in
  let pageSize := match pageSize with Some n => n | None => 30 end in
  let include :=
    match include data with Some i => i | None => default_include end in
  "drive/v3/files?fields=nextPageToken,files("
  ++ JS.join "," (map FileKey_name include)
  ++ ")&pageSize=" ++ JS.of_nat pageSize
  ++ "&q="
  ++ match matches data with
     | Some ms => getQuery ms
     | None => "trashed=false"
     end
  ++ (if match matches data with
          | Some ms => existsb (fun m => JS.truthy (query_of m)) ms
          | None => false
          end
      then ""
      else "&orderBy=name"
           ++ match order with ascending => "" | descending => " desc" end)
  ++ (if JS.truthy pageToken then "&pageToken=" ++ JS.template pageToken
      else "").

Arguments listUrl : simpl never.

Definition paginateFiles (drive : KyInstance) (data : ListData)
    (pageToken : option string) (pageSize : option nat) : M (option Page) :=
  let url := listUrl data pageToken pageSize in
  request (GET_files url) (fun past => get_files drive past url).

(** [properties?.obsidian !== "vault"]. *)
Definition notVault (f : FileMetadata) : bool :=
  match properties f with
  | Some p =>
      match JS.get p "obsidian" with
      | Some v => negb (String.eqb v "vault")
      | None => true
      end
  | None => true
  end.

(** The [while (files.nextPageToken)] loop of [searchFiles]; [acc] is
    [files.files], [token] is [files.nextPageToken].  [fuel] bounds the
    number of further pages. *)
Fixpoint searchLoop (fuel : nat) (drive : KyInstance) (data : ListData)
    (acc : list FileMetadata) (token : option string)
    : M (option (list FileMetadata)) :=
  if JS.truthy token then
    match fuel with
    | 0 => diverge
    | S fuel' =>
        nextPage <- paginateFiles drive data token (Some 1000) ;;
        match nextPage with
        | None => ret None
        | Some p =>
            searchLoop fuel' drive data (acc ++ files p)%list
              (nextPageToken p)
        end
    end
  else ret (Some acc).

Definition searchFiles (fuel : nat) (drive : KyInstance) (data : ListData)
    (includeObsidian : bool) : M (option (list FileMetadata)) :=
  first <- paginateFiles drive data None (Some 1000) ;;
  match first with
  | None => ret None
  | Some p =>
      all <- searchLoop fuel drive data (files p) (nextPageToken p) ;;
      match all with
      | None => ret None
      | Some l =>
          if includeObsidian then ret (Some l)
          else ret (Some (filter notVault l))
      end
  end.

Definition vaultMatch : ListData :=
  mkListData (Some [[Fproperties [("obsidian", "vault")]]]) None None.

Definition rootFolderJson : FileJson :=
  mkFileJson "Obsidian" folderMimeType None None
    (Some [("obsidian", "vault")]).

Definition getRootFolderId (fuel : nat) (drive : KyInstance)
    : M (option string) :=
  found <- searchFiles fuel drive vaultMatch true ;;
  match found with
  | None => ret None
  | Some [] =>
      request (POST_files rootFolderJson)
        (fun past => post_files drive past rootFolderJson)
  | Some (f :: _) => ret (Some (id f))
  end.

(** The argument object of [createFolder]. *)
Record FolderArgs := mkFolderArgs {
  a_name : string;
  a_parent : JS.Value;
  a_description : option string;
  a_properties : option Props
}.

(** [{ name, mimeType: folderMimeType, description, parents: [parent],
    properties }]. *)
Definition folderJson (a : FolderArgs) (parent : JS.Value) : FileJson :=
  mkFileJson (a_name a) folderMimeType (a_description a) (Some [parent])
    (a_properties a).

Definition postFolder (drive : KyInstance) (a : FolderArgs)
    (parent : JS.Value) : M (option string) :=
  let json := folderJson a parent in
  request (POST_files json) (fun past => post_files drive past json).

Definition createFolder (fuel : nat) (drive : KyInstance) (a : FolderArgs)
    : M (option string) :=
  if JS.isTruthy (a_parent a) then postFolder drive a (a_parent a)
  else
    parent <- getRootFolderId fuel drive ;;
    match JS.nonEmpty parent with
    | Some parent => postFolder drive a (JS.str parent)
    | None => ret None
    end.

(** [{ name, mimeType: file.type, parents: [parent], ...metadata }]: a
    property of [metadata] overrides the one written before the spread. *)
Definition uploadJson (file : Blob) (name : string) (parent : JS.Value)
    (metadata : Metadata) : UploadJson :=
  mkUploadJson
    (match m_name metadata with Some n => n | None => name end)
    (match m_mimeType metadata with Some t => t | None => blob_type file end)
    [parent]
    (m_description metadata) (m_starred metadata)
    (m_properties metadata) (m_modifiedTime metadata).

Definition postUpload (drive : KyInstance) (file : Blob) (name : string)
    (parent : JS.Value) (metadata : Metadata) : M (option string) :=
  let json := uploadJson file name parent metadata in
  request (POST_upload json file)
    (fun past => post_upload drive past json file).

Definition uploadFile (fuel : nat) (drive : KyInstance) (file : Blob)
    (name : string) (parent : JS.Value) (metadata : Metadata)
    : M (option string) :=
  if JS.isTruthy parent then postUpload drive file name parent metadata
  else
    parent <- getRootFolderId fuel drive ;;
    match JS.nonEmpty parent with
    | Some parent => postUpload drive file name (JS.str parent) metadata
    | None => ret None
    end.

(** The URL that [updateFile] addresses. *)
Definition updateUrlOf (id : JS.Value) : string :=
  "upload/drive/v3/files/" ++ JS.text id
  ++ "?uploadType=multipart&fields=id".

Definition updateFile (drive : KyInstance) (id : JS.Value)
    (newContent : Blob) (newMetadata : Metadata) : M (option string) :=
  let url := updateUrlOf id in
  request (PATCH_upload url newMetadata newContent)
    (fun past => patch_upload drive past url newMetadata newContent).

(** [getFile(id).arrayBuffer()]: the content of the object. *)
Definition mediaUrl (id : JS.Value) : string :=
  "drive/v3/files/" ++ JS.text id ++ "?alt=media".

Definition getFile (drive : KyInstance) (id : JS.Value) : M (option string) :=
  let url := mediaUrl id in
  request (GET_media url) (fun past => get_media drive past url).

(** Modelled from the spec: [getFileMetadata] belongs to a later state of
    the Drive client than the one in the sources.  The interface names
    it as the request that yields the metadata of an object or fails. *)
Definition getFileMetadata (drive : KyInstance) (id : JS.Value)
    : M (option FileMetadata) :=
  request (GET_metadata id) (fun past => get_metadata drive past id).

(** [{ id: file.id, path: file.properties.path }]; reading [.path] of an
    absent [properties] throws. *)
Definition idAndPath (file : FileMetadata) : M (string * option string) :=
  match properties file with
  | Some p => ret (id file, JS.get p "path")
  | None => throw TypeError
  end.

Definition pathMatches (paths : list string) : ListData :=
  mkListData (Some (map (fun path => [Fproperties [("path", path)]]) paths))
    None None.

Definition idsFromPaths (fuel : nat) (drive : KyInstance)
    (paths : list string) : M (option (list (string * option string))) :=
  found <- searchFiles fuel drive (pathMatches paths) false ;;
  match found with
  | None => ret None
  | Some fs => l <- mapM idAndPath fs ;; ret (Some l)
  end.

Definition crlf : string :=
  String (ascii_of_nat 13) (String (ascii_of_nat 10) EmptyString).

(** The parts appended to the body of [batchDelete], the first one being
    [request_1]. *)
Fixpoint deleteParts (index : nat) (ids : list JS.Value) : FormData :=
  match ids with
  | [] => []
  | fileId :: ids' =>
      ("request_" ++ JS.of_nat (index + 1),
       JS.join crlf
         ["--batch_boundary"; "Content-Type: application/http"; "";
          "DELETE /drive/v3/files/" ++ JS.text fileId ++ " HTTP/1.1";
          ""; ""])
      :: deleteParts (S index) ids'
  end.

Definition batchBody (ids : list JS.Value) : FormData :=
  (deleteParts 0 ids ++ [("", "--batch_boundary--")])%list.

Definition batchDelete (drive : KyInstance) (ids : list JS.Value)
    : M (option string) :=
  let body := batchBody ids in
  result <- request (POST_batch body)
              (fun past => post_batch drive past body) ;;
  if String.eqb result "" then ret None else ret (Some result).

(** *** The client inside closures that run together

    The functions above are the client as code that runs alone awaits
    it.  Inside the closures handed to [batchAsyncs] every [await] of
    the same functions is a point where another closure may be resumed:
    these are the same bodies with each [await] kept as a suspension.
    Awaited alone they are the functions above (lemmas [awaited_*]). *)

Module Async.

Definition paginateFiles (drive : KyInstance) (data : ListData)
    (pageToken : option string) (pageSize : option nat)
    : Async (option Page) :=
  let url := listUrl data pageToken pageSize in
  requestA (GET_files url) (fun past => get_files drive past url).

Fixpoint searchLoop (fuel : nat) (drive : KyInstance) (data : ListData)
    (acc : list FileMetadata) (token : option string)
    : Async (option (list FileMetadata)) :=
  if JS.truthy token then
    match fuel with
    | 0 => diverge
    | S fuel' =>
        nextPage <~ paginateFiles drive data token (Some 1000) ;;
        match nextPage with
        | None => retA None
        | Some p =>
            searchLoop fuel' drive data (acc ++ files p)%list
              (nextPageToken p)
        end
    end
  else retA (Some acc).

Definition searchFiles (fuel : nat) (drive : KyInstance) (data : ListData)
    (includeObsidian : bool) : Async (option (list FileMetadata)) :=
  first <~ paginateFiles drive data None (Some 1000) ;;
  match first with
  | None => retA None
  | Some p =>
      all <~ searchLoop fuel drive data (files p) (nextPageToken p) ;;
      match all with
      | None => retA None
      | Some l =>
          if includeObsidian then retA (Some l)
          else retA (Some (filter notVault l))
      end
  end.

Definition getRootFolderId (fuel : nat) (drive : KyInstance)
    : Async (option string) :=
  found <~ searchFiles fuel drive vaultMatch true ;;
  match found with
  | None => retA None
  | Some [] =>
      requestA (POST_files rootFolderJson)
        (fun past => post_files drive past rootFolderJson)
  | Some (f :: _) => retA (Some (id f))
  end.

Definition postFolder (drive : KyInstance) (a : FolderArgs)
    (parent : JS.Value) : Async (option string) :=
  let json := folderJson a parent in
  requestA (POST_files json) (fun past => post_files drive past json).

Definition createFolder (fuel : nat) (drive : KyInstance) (a : FolderArgs)
    : Async (option string) :=
  if JS.isTruthy (a_parent a) then postFolder drive a (a_parent a)
  else
    parent <~ getRootFolderId fuel drive ;;
    match JS.nonEmpty parent with
    | Some parent => postFolder drive a (JS.str parent)
    | None => retA None
    end.

Definition postUpload (drive : KyInstance) (file : Blob) (name : string)
    (parent : JS.Value) (metadata : Metadata) : Async (option string) :=
  let json := uploadJson file name parent metadata in
  requestA (POST_upload json file)
    (fun past => post_upload drive past json file).

Definition uploadFile (fuel : nat) (drive : KyInstance) (file : Blob)
    (name : string) (parent : JS.Value) (metadata : Metadata)
    : Async (option string) :=
  if JS.isTruthy parent then postUpload drive file name parent metadata
  else
    parent <~ getRootFolderId fuel drive ;;
    match JS.nonEmpty parent with
    | Some parent => postUpload drive file name (JS.str parent) metadata
    | None => retA None
    end.

Definition updateFile (drive : KyInstance) (id : JS.Value)
    (newContent : Blob) (newMetadata : Metadata) : Async (option string) :=
  let url := updateUrlOf id in
  requestA (PATCH_upload url newMetadata newContent)
    (fun past => patch_upload drive past url newMetadata newContent).

Definition getFile (drive : KyInstance) (id : JS.Value)
    : Async (option string) :=
  let url := mediaUrl id in
  requestA (GET_media url) (fun past => get_media drive past url).

End Async.

(* ================================================================= *)
(** ** The collaborators of [push] *)

Inductive Kind := TFile | TFolder.

(** What the code reads of a [TAbstractFile]; [tf_parent] is
    [parent.path], absent when [parent] is null. *)
Record TAbstractFile := mkTAbstractFile {
  tf_kind : Kind;
  tf_path : string;
  tf_name : string;
  tf_parent : option string
}.

Definition isFolder (f : TAbstractFile) : bool :=
  match tf_kind f with TFolder => true | TFile => false end.

Definition isFile (f : TAbstractFile) : bool :=
  match tf_kind f with TFile => true | TFolder => false end.

(** The local vault as [push] sees it once [pull] has returned. *)
Record Vault := mkVault {
  getAbstractFileByPath : string -> option TAbstractFile;
  readBinary : string -> string;      (* by path *)
  exists_ : option string -> bool;    (* [adapter.exists] *)
  configDir : string
}.

(** [vault.getFileByPath]: the file at that path when it is a [TFile]. *)
Definition getFileByPath (v : Vault) (path : string) : option TAbstractFile :=
  match getAbstractFileByPath v path with
  | Some f => if isFile f then Some f else None
  | None => None
  end.

(** What the user does with one entry of the confirmation dialog: a
    click on its bin button, then Confirm ([true]) or Cancel in the undo
    dialog that opens.  [found] is what the vault holds at that moment at
    the first of the paths to undo. *)
Record Gesture := mkGesture {
  g_path : string;
  g_confirm : bool;
  g_found : option TAbstractFile
}.

(** A session with the confirmation dialog: the undo gestures in order,
    then Confirm ([true]) or Cancel. *)
Record User := mkUser {
  gestures : list Gesture;
  decision : bool
}.

(** Methods of the plugin object that the undo dialog calls and the
    sources do not define.  They act on the local vault; each is taken
    as a black box that may rewrite the settings. *)
Record Plugin := mkPlugin {
  t_createFolder : string -> Settings -> Settings;
  t_createFile : string -> string -> string -> Settings -> Settings;
  t_deleteFile : TAbstractFile -> Settings -> Settings;
  t_modifyFile : TAbstractFile -> string -> string -> Settings -> Settings
}.

(** What the confirming variant of [push] calls without defining it;
    nothing is assumed about these.  [user] is what the user does in the
    confirmation dialog; [getConfigFilesToSync] lists the configuration
    paths to mirror; [stringify] is
    [JSON.stringify(t.settings, null, 2)]. *)
Record Helpers := mkHelpers {
  user : User;
  plugin : Plugin;
  getConfigFilesToSync : list string;
  fileNameFromPath : string -> string;
  getSyncMessage : nat -> nat -> nat -> nat -> string;
  stringify : Settings -> string
}.

(** The plugin object [t] apart from its mutable state.  [pull] is the
    pull routine in silent mode, a black box that may rewrite the settings
    and tells whether it returned [true]; [now] is the clock read by
    [new Date().toISOString()]; [ceiling] is the concurrency ceiling of
    [batchAsyncs]; [turn] is the order in which closures that wait
    together are resumed, that is, the order in which what they await
    arrives (see [all]). *)
Record Env := mkEnv {
  drive : KyInstance;
  vault : Vault;
  pull : Settings -> bool * Settings;
  now : list Call -> string;
  ceiling : nat;
  turn : nat -> nat -> World -> bool;
  helpers : Helpers
}.

(** A black box acting on the settings, such as [pull]. *)
Definition onSettings (f : Settings -> bool * Settings) : M bool :=
  fun w =>
    let (answer, s) := f (settings w) in
    (Val answer, mkWorld s (syncing w) (pathsToIds w) (completed w)
                   (trace w) (notices w) (progress w)).

(** A call of a black box of the plugin. *)
Definition blackBox (f : Settings -> Settings) : M unit :=
  fun w =>
    (Val tt, mkWorld (f (settings w)) (syncing w) (pathsToIds w)
               (completed w) (trace w) (notices w) (progress w)).

Definition runPull (env : Env) : M bool := onSettings (pull env).

Definition toISOString (env : Env) : M string :=
  fun w => (Val (now env (trace w)), w).

(** Modelled from the spec: [startSync] and [endSync] are methods of the
    plugin class, whose file is missing; they take and release the
    single-flight lock, the [syncing] flag that [push] tests on entry. *)
Definition startSync : M unit := setSyncing true.

Definition endSync : M unit := setSyncing false.

(** An async closure handed to [batchAsyncs]. *)
Definition Action := Async unit.

(** [Promise.all] over closures: each is called in turn, which runs it
    to its first [await]; then the promises are awaited together. *)
Definition promiseAll {A} (env : Env) (combine : A -> A -> A) (none : A)
    (closures : list (Async A)) : M A :=
  pending <- mapM start closures ;;
  await (all combine none (turn env) 0 pending).

(** Consecutive groups of at most [size] elements. *)
Fixpoint waves {A} (fuel size : nat) (l : list A) : list (list A) :=
  match l with
  | [] => []
  | _ :: _ =>
      match fuel with
      | 0 => [l]
      | S fuel' => firstn size l :: waves fuel' size (skipn size l)
      end
  end.

(** Modelled from the spec: [batchAsyncs] is imported from the Drive
    helpers, where its body is missing.  It starts at most
    [ceiling] actions at a time and waits for the whole wave to settle
    before it starts the next one.  The actions of a wave are called one
    after the other and then awaited together, as by [Promise.all]. *)
Definition batchAsyncs (env : Env) (actions : list Action) : M unit :=
  forEach (fun wave : list Action =>
             promiseAll env (fun _ _ => tt) tt wave)
    (waves (length actions) (Nat.max 1 (ceiling env)) actions).

Definition swap (kv : string * string) : string * string :=
  (snd kv, fst kv).

Definition setOperations (o : JS.Obj Operation) : M unit :=
  w <- getWorld ;;
  setSettings (mkSettings o (driveIdToPath (settings w))).

Definition setDriveIdToPath (o : JS.Obj string) : M unit :=
  w <- getWorld ;;
  setSettings (mkSettings (operations (settings w)) o).

(** [t.settings.driveIdToPath[id] = path]. *)
Definition recordId (id path : string) : M unit :=
  w <- getWorld ;;
  setDriveIdToPath (JS.assign (driveIdToPath (settings w)) id path).

(** [delete t.settings.driveIdToPath[key]]. *)
Definition forgetKey (key : string) : M unit :=
  w <- getWorld ;;
  setDriveIdToPath (JS.delete (driveIdToPath (settings w)) key).

(** [pathsToIds[path] = id]. *)
Definition indexPath (path id : string) : M unit :=
  w <- getWorld ;;
  setPathsToIds (JS.assign (pathsToIds w) path id).

Definition withOp (op : Operation) (l : JS.Obj Operation) : JS.Obj Operation :=
  filter (fun e => Operation_eqb (snd e) op) l.

(** [array.filter(x => x instanceof C)] on the results of a vault lookup,
    where a missing file is null. *)
Definition instancesOf (test : TAbstractFile -> bool)
    (l : list (option TAbstractFile)) : list TAbstractFile :=
  flat_map (fun o => match o with
                     | Some f => if test f then [f] else []
                     | None => []
                     end) l.

(** [path.split("/").length]. *)
Definition depth (path : string) : nat := length (JS.split path).

(** Array objects on the heap, addressed by their position. *)
Definition Heap (A : Type) := list (list A).

Definition deref {A} (h : Heap A) (r : nat) : list A := nth r h [].

(** [array.push(x)] on the array at address [r]. *)
Fixpoint pushAt {A} (h : Heap A) (r : nat) (x : A) : Heap A :=
  match h, r with
  | [], _ => []
  | a :: h', 0 => (a ++ [x])%list :: h'
  | a :: h', S r' => a :: pushAt h' r' x
  end.

(* ================================================================= *)
(** ** [push] of [src/helpers/push.ts] *)

Definition fetchError : string :=
  "An error occurred fetching Google Drive files.".
Definition deleteError : string :=
  "An error occurred deleting Google Drive files.".
Definition folderError : string :=
  "An error occurred creating Google Drive folders.".
Definition fileError : string :=
  "An error occurred creating Google Drive files.".
Definition modifyError : string :=
  "An error occurred modifying Google Drive files.".
Definition syncComplete : string := "Sync complete!".
Definition reloadAdvice : string :=
  "Sync complete, but some files were pulled from Google Drive, "
  ++ "so you should reload Obsidian.".

Definition pathProperty (path : string) : Metadata :=
  mkMetadata None None None None (Some [("path", path)]) None.

Definition stamped (m : Metadata) (time : string) : Metadata :=
  mkMetadata (m_name m) (m_description m) (m_mimeType m) (m_starred m)
    (m_properties m) (Some time).

(** [parent ? pathsToIds[parent.path] : undefined]. *)
Definition parentId (index : JS.Obj string) (f : TAbstractFile)
    : JS.Value :=
  match tf_parent f with
  | Some p => JS.index index p
  | None => JS.undefined
  end.

Module HelpersPush.

(** [if (deletes.length) { .. }]; the result tells whether [push] goes
    on ([false] after a [return new Notice(..)]). *)
Definition deletePhase (fuel : nat) (env : Env) (deletes : JS.Obj Operation)
    : M bool :=
  match deletes with
  | [] => ret true
  | _ :: _ =>
      ids <- idsFromPaths fuel (drive env) (map fst deletes) ;;
      match ids with
      | None => Notice fetchError ;; ret false
      | Some [] => ret true
      | Some ((_ :: _) as ids) =>
          deleteRequest <-
            batchDelete (drive env) (map (fun e => JS.str (fst e)) ids) ;;
          match deleteRequest with
          | None => Notice deleteError ;; ret false
          | Some _ =>
              forEach (fun e => forgetKey (fst e)) ids ;;
              ret true
          end
      end
  end.

(** The closure of the folder loop.  Calling it evaluates the
    arguments, and so looks the parent up in [pathsToIds], and calls
    [createFolder], which sends its first request at once; what follows
    the [await] runs when the closure is resumed with the id. *)
Definition folderAction (fuel : nat) (env : Env) (folder : TAbstractFile)
    : Action :=
  w <- getWorld ;;
  let args :=
    mkFolderArgs (tf_name folder) (parentId (pathsToIds w) folder) None
      (Some [("path", tf_path folder)]) in
  id <~ Async.createFolder fuel (drive env) args ;;
  sync (match JS.nonEmpty id with
        | None => Notice folderError
        | Some id =>
            recordId id (tf_path folder) ;;
            indexPath (tf_path folder) id
        end).

(** [new Array(Math.max(...depths)).fill([])] followed by the
    [forEach] that pushes every folder into [batches[depth - 1]].
    [fill] stores the one array it is given in every slot, so [batches]
    holds the same address [0] throughout.  Without folders the length
    is [-Infinity] and [new Array] throws. *)
Definition makeBatches (folders : list TAbstractFile)
    : M (list nat * Heap TAbstractFile) :=
  match folders with
  | [] => throw RangeError
  | _ :: _ =>
      let batches :=
        repeat 0 (list_max (map (fun f => depth (tf_path f)) folders)) in
      heap <-
        fold_left
          (fun (acc : M (Heap TAbstractFile)) folder =>
             h <- acc ;;
             match nth_error batches (depth (tf_path folder) - 1) with
             | Some r => ret (pushAt h r folder)
             | None => throw TypeError
             end)
          folders (ret [[]]) ;;
      ret (batches, heap)
  end.

(** The closure of the file upload.  It is suspended at once on
    [vault.readBinary]; the other arguments are evaluated when it is
    resumed, and then [uploadFile] is called. *)
Definition noteAction (fuel : nat) (env : Env) (note : TAbstractFile)
    : Action :=
  content <~ later (readBinary (vault env) (tf_path note)) ;;
  w <- getWorld ;;
  time <- toISOString env ;;
  id <~ Async.uploadFile fuel (drive env) (mkBlob content "")
          (tf_name note) (parentId (pathsToIds w) note)
          (stamped (pathProperty (tf_path note)) time) ;;
  sync (match JS.nonEmpty id with
        | None => Notice fileError
        | Some id => recordId id (tf_path note)
        end).

Definition createPhase (fuel : nat) (env : Env) (creates : JS.Obj Operation)
    : M unit :=
  match creates with
  | [] => ret tt
  | _ :: _ =>
      let files :=
        map (fun e => getAbstractFileByPath (vault env) (fst e)) creates in
      w <- getWorld ;;
      setPathsToIds
        (JS.fromEntries (map swap (driveIdToPath (settings w)))) ;;
      let folders := instancesOf isFolder files in
      bh <- makeBatches folders ;;
      forEach (fun batch : nat =>
                 batchAsyncs env
                   (map (folderAction fuel env) (deref (snd bh) batch)))
        (fst bh) ;;
      let notes := instancesOf isFile files in
      batchAsyncs env (map (noteAction fuel env) notes)
  end.

(** The closure of the content update: the id is looked up, the
    closure is suspended on [vault.readBinary], and [updateFile] is
    called when it is resumed. *)
Definition modifyAction (env : Env) (pathToId : JS.Obj string)
    (file : TAbstractFile) : Action :=
  let id := JS.index pathToId (tf_path file) in
  content <~ later (readBinary (vault env) (tf_path file)) ;;
  time <- toISOString env ;;
  id' <~ Async.updateFile (drive env) id (mkBlob content "")
           (stamped noMetadata time) ;;
  sync (match JS.nonEmpty id' with
        | None => Notice modifyError
        | Some _ => ret tt
        end).

Definition modifyPhase (env : Env) (modifies : JS.Obj Operation) : M unit :=
  match modifies with
  | [] => ret tt
  | _ :: _ =>
      let files :=
        instancesOf isFile
          (map (fun e => getFileByPath (vault env) (fst e)) modifies) in
      w <- getWorld ;;
      let pathToId :=
        JS.fromEntries (map swap (driveIdToPath (settings w))) in
      batchAsyncs env (map (modifyAction env pathToId) files)
  end.

Definition push (fuel : nat) (env : Env) : M unit :=
  w <- getWorld ;;
  if syncing w then ret tt
  else
    startSync ;;
    pulledFiles <- runPull env ;;
    w <- getWorld ;;
    let operations := operations (settings w) in
    let deletes := withOp delete operations in
    let creates := withOp create operations in
    let modifies := withOp modify operations in
    go <- deletePhase fuel env deletes ;;
    if negb go then ret tt
    else
      createPhase fuel env creates ;;
      modifyPhase env modifies ;;
      setOperations [] ;;
      endSync ;;
      if pulledFiles then Notice reloadAdvice else Notice syncComplete.

End HelpersPush.

(* ================================================================= *)
(** ** [push] with the confirmation dialog and the configuration files *)

Definition configError : string :=
  "An error occurred creating Google Drive config files.".

Definition configMatch : ListData :=
  mkListData (Some [[Fproperties [("config", "true")]]]) None
    (Some [key_properties]).

Definition configProperties (path : string) : Metadata :=
  mkMetadata None None None None
    (Some [("path", path); ("config", "true")]) None.

(** Modelled from the spec: [foldersToBatches] is imported from the Drive
    helpers, where its body is missing.  Batch [k]
    contains every folder whose path has exactly [k] segments, for [k]
    from one to the largest segment count; [path] reads the path of an
    element, which is a [TFolder] or a string. *)
Definition foldersToBatches {A} (path : A -> string) (folders : list A)
    : list (list A) :=
  map (fun k => filter (fun f => Nat.eqb (depth (path f)) k) folders)
    (seq 1 (list_max (map (fun f => depth (path f)) folders))).

(** [folder.split("/").pop() || ""]. *)
Definition lastSegment (path : string) : string := last (JS.split path) "".

(** [path.split("/").slice(0, -1).join("/")]. *)
Definition parentPath (path : string) : string :=
  JS.join "/" (removelast (JS.split path)).

(** [set.add(x)]. *)
Definition setAdd (s : list string) (x : string) : list string :=
  if existsb (String.eqb x) s then s else (s ++ [x])%list.

(** The body of [configFilesToSync.forEach]: every proper prefix
    [parts.slice(0, i).join("/")], [i] from [1] to [parts.length - 1]. *)
Definition addPrefixes (s : list string) (path : string) : list string :=
  let parts := JS.split path in
  fold_left (fun s i => setAdd s (JS.join "/" (firstn i parts)))
    (seq 1 (length parts - 1)) s.

(* ================================================================= *)
(** ** The confirmation dialogs *)

(** [nestedFiles] of the bin button of [path]: the listed paths that
    are [path] or lie under it. *)
Definition nestedFiles (operations : JS.Obj Operation) (path : string)
    : list string :=
  filter (fun file =>
            String.prefix (path ++ "/") file || String.eqb file path)
    (map fst operations).

(** [newOperations]: what the dialog lists once the undo has gone
    through. *)
Definition afterUndo (operations : JS.Obj Operation) (path : string)
    : JS.Obj Operation :=
  filter (fun e =>
            negb (existsb (String.eqb (fst e)) (nestedFiles operations path)))
    operations.


(** Whether the dialog shows a bin button for an entry: not for a
    deletion that lies under another listed path. *)
Definition hasUndoButton (operations : JS.Obj Operation)
    (e : string * Operation) : bool :=
  negb (Operation_eqb (snd e) delete
        && existsb (fun o => String.prefix (fst o ++ "/") (fst e))
             operations).

(** [delete t.settings.operations[file]]. *)
Definition forgetOperation (file : string) : M unit :=
  w <- getWorld ;;
  setOperations (JS.delete (operations (settings w)) file).

Module Dialog.

Definition undoInclude : list FileKey :=
  [key_id; key_mimeType; key_properties; key_modifiedTime].

(** [[file.properties.path, file]]: an entry of [pathToFile]. *)
Definition keyed (file : FileMetadata) : M (string * FileMetadata) :=
  match properties file with
  | Some p => ret (JS.template (JS.get p "path"), file)
  | None => throw TypeError
  end.

(** [pathToFile[path].properties.path === folderMimeType].  Where
    [pathToFile] has no own property [path], what is read is [undefined]
    or a member of [Object.prototype]; neither has [properties], so
    reading [.path] throws. *)
Definition isFolderPath (pathToFile : JS.Obj FileMetadata) (path : string)
    : M bool :=
  match JS.get pathToFile path with
  | Some file =>
      match properties file with
      | Some p =>
          ret (match JS.get p "path" with
               | Some v => String.eqb v folderMimeType
               | None => false
               end)
      | None => throw TypeError
      end
  | None => throw TypeError
  end.

(** The closure that restores one deleted file: the download of its
    remote content, then [t.createFile]. *)
Definition restoreAction (env : Env) (filePathToId : JS.Obj string)
    (pathToFile : JS.Obj FileMetadata) (path : string) : Action :=
  onlineFile <~ Async.getFile (drive env) (JS.index filePathToId path) ;;
  match onlineFile with
  | None => sync (Notice fetchError)
  | Some content =>
      match JS.get pathToFile path with
      | Some file =>
          sync (blackBox (t_createFile (plugin (helpers env)) path content
                            (modifiedTime file)))
      | None => throw TypeError
      end
  end.

Definition handleDelete (fuel : nat) (env : Env)
    (filePathToId : JS.Obj string) (paths : list string) : M unit :=
  files <- searchFiles fuel (drive env)
             (mkListData
                (Some (map (fun path => [Fproperties [("path", path)]]) paths))
                None (Some undoInclude)) false ;;
  match files with
  | None => Notice fetchError
  | Some files =>
      entries <- mapM keyed files ;;
      let pathToFile := JS.fromEntries entries in
      deletedFolders <- filterM (isFolderPath pathToFile) paths ;;
      match deletedFolders with
      | [] => ret tt
      | _ :: _ =>
          forEach (fun batch =>
                     forEach (fun folder =>
                                blackBox
                                  (t_createFolder (plugin (helpers env))
                                     folder)) batch)
            (foldersToBatches (fun folder => folder) deletedFolders)
      end ;;
      deletedFiles <-
        filterM (fun path =>
                   folder <- isFolderPath pathToFile path ;;
                   ret (negb folder)) paths ;;
      batchAsyncs env
        (map (restoreAction env filePathToId pathToFile) deletedFiles)
  end.

(** [found] is [vault.getAbstractFileByPath(path)]. *)
Definition handleCreate (env : Env) (found : option TAbstractFile) : M unit :=
  match found with
  | None => ret tt
  | Some file => blackBox (t_deleteFile (plugin (helpers env)) file)
  end.

(** The two requests of the [Promise.all] are sent one after the other
    before either answer is looked at. *)
Definition handleModify (env : Env) (filePathToId : JS.Obj string)
    (found : option TAbstractFile) (path : string) : M unit :=
  match found with
  | None => ret tt
  | Some file =>
      if isFile file then
        let id := JS.index filePathToId path in
        onlineFile <- getFile (drive env) id ;;
        metadata <- getFileMetadata (drive env) id ;;
        match onlineFile, metadata with
        | Some content, Some m =>
            blackBox (t_modifyFile (plugin (helpers env)) file content
                        (modifiedTime m))
        | _, _ => Notice fetchError
        end
      else ret tt
  end.

(** The handler behind the Confirm button of the undo dialog answers
    [true] when it has run to its end, so that [proceed(true)] is
    reached.  When it throws, the dialog stays open with the button
    disabled, and closing it answers [false]. *)
Definition attempt (handler : M unit) : M bool :=
  fun w =>
    match handler w with
    | (Val _, w') => (Val true, w')
    | (Throw _, w') => (Val false, w')
    | (Diverge, w') => (Diverge, w')
    end.

(** The undo dialog for [operation] and [files], confirmed. *)
Definition ConfirmUndoModal (fuel : nat) (env : Env) (operation : Operation)
    (files : list string) (found : option TAbstractFile) : M bool :=
  w <- getWorld ;;
  let filePathToId :=
    JS.fromEntries (map swap (driveIdToPath (settings w))) in
  attempt
    match operation with
    | delete => handleDelete fuel env filePathToId files
    | create =>
        match files with
        | [] => ret tt
        | _ :: _ => handleCreate env found
        end
    | modify =>
        match files with
        | [] => ret tt
        | path :: _ => handleModify env filePathToId found path
        end
    end.

(** [btn.onclick] of the entry [path], [op] of the list [operations]
    that the dialog shows: the list it shows next, or nothing when it
    closes itself because nothing is left. *)
Definition onclick (fuel : nat) (env : Env) (operations : JS.Obj Operation)
    (path : string) (op : Operation) (g : Gesture)
    : M (option (JS.Obj Operation)) :=
  let nested := nestedFiles operations path in
  proceed <-
    (if g_confirm g then ConfirmUndoModal fuel env op nested (g_found g)
     else ret false) ;;
  if negb proceed then ret (Some operations)
  else
    forEach forgetOperation nested ;;
    match afterUndo operations path with
    | [] => ret None
    | (_ :: _) as newOperations => ret (Some newOperations)
    end.

(** The session with the dialog that shows [operations]: the gestures
    one after the other (a gesture on a path without a bin button is no
    click), then Confirm or Cancel.  The dialog closing itself answers
    [false]. *)
Fixpoint session (fuel : nat) (env : Env) (operations : JS.Obj Operation)
    (gs : list Gesture) (decision : bool) : M bool :=
  match gs with
  | [] => ret decision
  | g :: gs' =>
      match find (fun e => String.eqb (fst e) (g_path g)
                           && hasUndoButton operations e) operations with
      | None => session fuel env operations gs' decision
      | Some (path, op) =>
          next <- onclick fuel env operations path op g ;;
          match next with
          | None => ret false
          | Some operations' => session fuel env operations' gs' decision
          end
      end
  end.

Definition ConfirmPushModal (fuel : nat) (env : Env)
    (initialOperations : JS.Obj Operation) : M bool :=
  session fuel env initialOperations (gestures (user (helpers env)))
    (decision (user (helpers env))).

End Dialog.

Module ConfirmedPush.

(** One closure of the [Promise.all] over [configOnDrive]: it awaits
    [adapter.exists] and then pushes the path onto [deletes] when it no
    longer exists locally; its result is what it pushes.  Reading
    [.path] of an absent [properties] throws.  An undefined path is only
    used as a property key afterwards, where it reads as the word
    itself. *)
Definition staleAction (env : Env) (f : FileMetadata)
    : Async (JS.Obj Operation) :=
  match properties f with
  | None => throw TypeError
  | Some p =>
      let path := JS.get p "path" in
      found <~ later (exists_ (vault env) path) ;;
      retA (if found then [] else [(JS.template path, delete)])
  end.

(** The [Promise.all] over [configOnDrive]: the entries are pushed onto
    [deletes] in the order in which the closures are resumed. *)
Definition staleConfig (env : Env) (configOnDrive : list FileMetadata)
    : M (JS.Obj Operation) :=
  promiseAll env (@app (string * Operation)) []
    (map (staleAction env) configOnDrive).

(** [if (deletes.length) { .. }]; [false] after a [return]. *)
Definition deletePhase (env : Env) (deletes : JS.Obj Operation) : M bool :=
  match deletes with
  | [] => ret true
  | _ :: _ =>
      w <- getWorld ;;
      deleteRequest <-
        batchDelete (drive env)
          (map (fun e => JS.index (pathsToIds w) (fst e)) deletes) ;;
      match deleteRequest with
      | None => Notice deleteError ;; ret false
      | Some _ => forEach (fun e => forgetKey (fst e)) deletes ;; ret true
      end
  end.

(** [completed++] followed by the progress message. *)
Definition advance (env : Env) (lo hi total : nat) : M unit :=
  w <- getWorld ;;
  setCompleted (S (completed w)) ;;
  setMessage (getSyncMessage (helpers env) lo hi (S (completed w)) total).

Definition folderAction (fuel : nat) (env : Env) (total : nat)
    (folder : TAbstractFile) : Action :=
  w <- getWorld ;;
  let args :=
    mkFolderArgs (tf_name folder) (parentId (pathsToIds w) folder) None
      (Some [("path", tf_path folder)]) in
  id <~ Async.createFolder fuel (drive env) args ;;
  sync (match JS.nonEmpty id with
        | None => Notice folderError
        | Some id =>
            advance env 33 66 total ;;
            recordId id (tf_path folder) ;;
            indexPath (tf_path folder) id
        end).

Definition noteAction (fuel : nat) (env : Env) (total : nat)
    (note : TAbstractFile) : Action :=
  content <~ later (readBinary (vault env) (tf_path note)) ;;
  w <- getWorld ;;
  time <- toISOString env ;;
  id <~ Async.uploadFile fuel (drive env) (mkBlob content "")
          (tf_name note) (parentId (pathsToIds w) note)
          (stamped (pathProperty (tf_path note)) time) ;;
  sync (match JS.nonEmpty id with
        | None => Notice fileError
        | Some id =>
            advance env 33 66 total ;;
            recordId id (tf_path note)
        end).

Definition createPhase (fuel : nat) (env : Env) (creates : JS.Obj Operation)
    : M unit :=
  match creates with
  | [] => ret tt
  | _ :: _ =>
      setCompleted 0 ;;
      let files :=
        map (fun e => getAbstractFileByPath (vault env) (fst e)) creates in
      let folders := instancesOf isFolder files in
      match folders with
      | [] => ret tt
      | _ :: _ =>
          forEach (fun batch =>
                     batchAsyncs env
                       (map (folderAction fuel env (length files)) batch))
            (foldersToBatches tf_path folders)
      end ;;
      let notes := instancesOf isFile files in
      batchAsyncs env (map (noteAction fuel env (length files)) notes)
  end.

Definition modifyAction (env : Env) (pathToId : JS.Obj string)
    (total : nat) (file : TAbstractFile) : Action :=
  let id := JS.index pathToId (tf_path file) in
  content <~ later (readBinary (vault env) (tf_path file)) ;;
  time <- toISOString env ;;
  id' <~ Async.updateFile (drive env) id (mkBlob content "")
           (stamped noMetadata time) ;;
  sync (match JS.nonEmpty id' with
        | None => Notice modifyError
        | Some _ => advance env 66 99 total
        end).

Definition modifyPhase (env : Env) (modifies : JS.Obj Operation) : M unit :=
  match modifies with
  | [] => ret tt
  | _ :: _ =>
      setCompleted 0 ;;
      let files :=
        instancesOf isFile
          (map (fun e => getFileByPath (vault env) (fst e)) modifies) in
      w <- getWorld ;;
      let pathToId :=
        JS.fromEntries (map swap (driveIdToPath (settings w))) in
      batchAsyncs env
        (map (modifyAction env pathToId (length files)) files)
  end.

Definition configFolderAction (fuel : nat) (env : Env) (folder : string)
    : Action :=
  w <- getWorld ;;
  let args :=
    mkFolderArgs (lastSegment folder)
      (JS.index (pathsToIds w) (parentPath folder)) None
      (Some [("path", folder); ("config", "true")]) in
  id <~ Async.createFolder fuel (drive env) args ;;
  sync (match JS.nonEmpty id with
        | None => Notice folderError
        | Some id => recordId id folder ;; indexPath folder id
        end).

Definition configFileAction (fuel : nat) (env : Env) (path : string)
    : Action :=
  w <- getWorld ;;
  let known := JS.index (pathsToIds w) path in
  if JS.isTruthy known then
    content <~ later (readBinary (vault env) path) ;;
    time <- toISOString env ;;
    _ <~ Async.updateFile (drive env) known (mkBlob content "")
           (stamped noMetadata time) ;;
    retA tt
  else
    content <~ later (readBinary (vault env) path) ;;
    w <- getWorld ;;
    time <- toISOString env ;;
    id <~ Async.uploadFile fuel (drive env) (mkBlob content "")
            (fileNameFromPath (helpers env) path)
            (JS.index (pathsToIds w) (parentPath path))
            (stamped (configProperties path) time) ;;
    sync (match JS.nonEmpty id with
          | None => Notice configError
          | Some id => recordId id path ;; indexPath path id
          end).

Definition configSync (fuel : nat) (env : Env) : M unit :=
  let configFilesToSync := getConfigFilesToSync (helpers env) in
  w <- getWorld ;;
  let foldersToCreate :=
    filter (fun folder => negb (JS.isTruthy (JS.index (pathsToIds w) folder)))
      (fold_left addPrefixes configFilesToSync []) in
  match foldersToCreate with
  | [] => ret tt
  | _ :: _ =>
      forEach (fun batch =>
                 batchAsyncs env (map (configFolderAction fuel env) batch))
        (foldersToBatches (fun folder => folder) foldersToCreate)
  end ;;
  batchAsyncs env (map (configFileAction fuel env) configFilesToSync) ;;
  w <- getWorld ;;
  time <- toISOString env ;;
  updateFile (drive env)
    (JS.index (pathsToIds w)
       (configDir (vault env) ++ "/plugins/google-drive-sync/data.json"))
    (mkBlob (stringify (helpers env) (settings w)) "")
    (stamped noMetadata time) ;;
  ret tt.

Definition push (fuel : nat) (env : Env) : M unit :=
  w <- getWorld ;;
  if syncing w then ret tt
  else
    let initialOperations := JS.sortByKey (operations (settings w)) in
    proceed <- Dialog.ConfirmPushModal fuel env initialOperations ;;
    if negb proceed then ret tt
    else
      startSync ;;
      runPull env ;;
      w <- getWorld ;;
      let operations := operations (settings w) in
      let deletes := withOp delete operations in
      let creates := withOp create operations in
      let modifies := withOp modify operations in
      setPathsToIds
        (JS.fromEntries (map swap (driveIdToPath (settings w)))) ;;
      configOnDrive <- searchFiles fuel (drive env) configMatch false ;;
      match configOnDrive with
      | None => Notice fetchError
      | Some configOnDrive =>
          stale <- staleConfig env configOnDrive ;;
          go <- deletePhase env (deletes ++ stale)%list ;;
          if negb go then ret tt
          else
            setMessage "Syncing (33%)" ;;
            createPhase fuel env creates ;;
            modifyPhase env modifies ;;
            configSync fuel env ;;
            setOperations [] ;;
            endSync ;;
            Notice syncComplete
      end.

End ConfirmedPush.


(* ================================================================= *)
(** ** Predicates used by the properties *)

(** [respects R c] says that whatever [c] does, and however it ends, the
    world it leaves is related by [R] to the world it started in. *)
Definition respects (R : World -> World -> Prop) {A} (c : M A) : Prop :=
  forall w, R w (snd (c w)).

(** Every resumption of a promise respects [R], whenever it takes
    place. *)
Fixpoint stepsRespect (R : World -> World -> Prop) {A} (p : Pending A)
    : Prop :=
  match p with
  | Awaiting effect next =>
      forall w, R w (effect w) /\ stepsRespect R (next w)
  | _ => True
  end.

(** An async function respects [R] when its start does and every later
    resumption does. *)
Definition respectsAsync (R : World -> World -> Prop) {A} (c : Async A)
    : Prop :=
  forall w, R w (snd (c w)) /\ stepsRespect R (settle (fst (c w))).

(** The operation log is the same in both worlds. *)
Definition sameLog (w w' : World) : Prop :=
  operations (settings w') = operations (settings w).

Definition isGET (c : Call) : Prop :=
  match c with GET_files _ => True | _ => False end.

(** From [w] to [w'] only listing requests were sent, and nothing else
    changed. *)
Definition onlyListed (w w' : World) : Prop :=
  settings w' = settings w /\ syncing w' = syncing w
  /\ notices w' = notices w
  /\ exists gets, trace w' = (trace w ++ gets)%list /\ Forall isGET gets.

(** [settles c]: [c] comes to its end, neither throwing nor running out
    of budget. *)
Definition settles (c : M unit) : Prop := forall w, fst (c w) = Val tt.

(** A promise that is settled in the end, whenever it is resumed:
    it is neither rejected nor out of budget. *)
Fixpoint settling {A} (p : Pending A) : Prop :=
  match p with
  | Settled _ => True
  | Awaiting _ next => forall w, settling (next w)
  | _ => False
  end.

Definition settlesAsync {A} (c : Async A) : Prop :=
  forall w, settling (settle (fst (c w))).

(** The world in which the phases of [push] start: the lock is taken and
    [pull] has rewritten the settings. *)
Definition entered (env : Env) (w : World) : World :=
  mkWorld (snd (pull env (settings w))) true (pathsToIds w) (completed w)
    (trace w) (notices w) (progress w).

(** The session with the confirmation dialog that the confirming
    variant opens on the sorted log. *)
Definition dialog (fuel : nat) (env : Env) : M bool :=
  w <- getWorld ;;
  Dialog.ConfirmPushModal fuel env (JS.sortByKey (operations (settings w))).

(** The world as the dialog leaves it. *)
Definition afterDialog (fuel : nat) (env : Env) (w : World) : World :=
  snd (dialog fuel env w).

(** The world in which the phases of the confirming variant start: the
    dialog has been confirmed, the lock is taken and [pull] has rewritten
    the settings. *)
Definition confirmed (fuel : nat) (env : Env) (w : World) : World :=
  entered env (afterDialog fuel env w).

(** The same environment with [pull] reporting [flag]. *)
Definition reporting (flag : bool) (env : Env) : Env :=
  mkEnv (drive env) (vault env) (fun s => (flag, snd (pull env s)))
    (now env) (ceiling env) (turn env) (helpers env).

(** The phases of [push] in [src/helpers/push.ts], from the deletions to
    the commit, without the closing notice; the result tells whether the
    commit was reached. *)
Definition phasesOfPush (fuel : nat) (env : Env) : M bool :=
  w <- getWorld ;;
  let operations := operations (settings w) in
  go <- HelpersPush.deletePhase fuel env (withOp delete operations) ;;
  if negb go then ret false
  else
    HelpersPush.createPhase fuel env (withOp create operations) ;;
    HelpersPush.modifyPhase env (withOp modify operations) ;;
    setOperations [] ;;
    endSync ;;
    ret true.

(** The world with one more notice. *)
Definition noticed (text : string) (w : World) : World :=
  mkWorld (settings w) (syncing w) (pathsToIds w) (completed w) (trace w)
    (notices w ++ [text])%list (progress w).

(** The folder creations among the requests: name and parents. *)
Definition folderPosts (t : list Call)
    : list (string * option (list JS.Value)) :=
  flat_map (fun c => match c with
                     | POST_files j => [(j_name j, j_parents j)]
                     | _ => []
                     end) t.


#[local] Set Warnings "-register-all".












Definition hasProperties (f : FileMetadata) : bool :=
  match properties f with Some _ => true | None => false end.

(** The id of a remote object and the path recorded in its properties. *)
Definition idPath (f : FileMetadata) : string * option string :=
  (id f,
   match properties f with Some p => JS.get p "path" | None => None end).

(** How a listing ends: the continuation token is used up, or a page
    request fails. *)
Inductive Ending := Exhausted | Failed.

(** [serves drive data past token pages e]: asked for the page at
    [token] after the requests [past], the remote answers with the pages
    of [pages] one after the other, each page naming the next by its
    continuation token; after the last of them the token is used up
    ([Exhausted]) or the next request fails ([Failed]). *)
Fixpoint serves (drive : KyInstance) (data : ListData) (past : list Call)
    (token : option string) (pages : list Page) (e : Ending) : Prop :=
  let url := listUrl data token (Some 1000) in
  match pages with
  | [] => e = Failed /\ get_files drive past url = None
  | p :: rest =>
      get_files drive past url = Some p
      /\ if JS.truthy (nextPageToken p)
         then serves drive data (past ++ [GET_files url])%list
                (nextPageToken p) rest e
         else rest = [] /\ e = Exhausted
  end.

(** The requests that fetch [pages], starting at [token]. *)
Fixpoint pageRequests (data : ListData) (token : option string)
    (pages : list Page) : list Call :=
  match pages with
  | [] => []
  | p :: rest =>
      GET_files (listUrl data token (Some 1000))
      :: pageRequests data (nextPageToken p) rest
  end.

Definition allFiles (pages : list Page) : list FileMetadata :=
  concat (map files pages).

(** What [searchFiles] hands back of the files listed. *)
Definition visible (includeObsidian : bool) (l : list FileMetadata)
    : list FileMetadata :=
  if includeObsidian then l else filter notVault l.

(* ================================================================= *)
(** ** Scenarios *)

Module Scenario.

(** The vault root as the remote lists it. *)
Definition rootFile : FileMetadata :=
  mkFileMetadata "ROOT" "Obsidian" "" folderMimeType false
    (Some [("obsidian", "vault")]) "".

Definition remoteFile (id path : string) : FileMetadata :=
  mkFileMetadata id path "" "text/markdown" false (Some [("path", path)]) "".

(** A client whose every listing is the one page [listed] and whose
    other requests succeed; a created object gets an id that tells how
    many requests came before. *)
Definition listing (listed : list FileMetadata) : KyInstance :=
  mkKy (fun _ _ => Some (mkPage None listed))
    (fun past _ => Some ("folder" ++ JS.of_nat (length past)))
    (fun past _ _ => Some ("file" ++ JS.of_nat (length past)))
    (fun _ _ _ _ => Some "updated")
    (fun _ _ => "HTTP/1.1 200 OK")
    (fun _ url => Some ("remote content at " ++ url))
    (fun _ _ => None).

(** A client that answers a listing request by looking its URL up in
    [table]; an unknown URL fails. *)
Definition paged (table : list (string * Page)) : KyInstance :=
  mkKy (fun _ url => JS.get table url)
    (fun _ _ => None) (fun _ _ _ => None) (fun _ _ _ _ => None)
    (fun _ _ => "") (fun _ _ => None) (fun _ _ => None).

Definition everything : ListData := mkListData None None None.

Definition page1 : Page :=
  mkPage (Some "t1") [remoteFile "1" "a.md"; rootFile].
Definition page2 : Page := mkPage (Some "t2") [remoteFile "2" "b.md"].
Definition page3 : Page :=
  mkPage None [remoteFile "3" "c.md"; remoteFile "4" "d.md"].

(** A listing of three pages; the vault root is on the first. *)
Definition threePages : KyInstance :=
  paged [(listUrl everything None (Some 1000), page1);
         (listUrl everything (Some "t1") (Some 1000), page2);
         (listUrl everything (Some "t2") (Some 1000), page3)].

(** The same listing with the third page out of reach. *)
Definition brokenThird : KyInstance :=
  paged [(listUrl everything None (Some 1000), page1);
         (listUrl everything (Some "t1") (Some 1000), page2)].

(** The remote lists the vault root and refuses every creation. *)
Definition refusing : KyInstance :=
  mkKy (fun _ _ => Some (mkPage None [rootFile]))
    (fun _ _ => None) (fun _ _ _ => None) (fun _ _ _ _ => None)
    (fun _ _ => "") (fun _ _ => None) (fun _ _ => None).

Definition orphanFolder : FolderArgs :=
  mkFolderArgs "notes" JS.undefined None (Some [("path", "notes")]).

Definition updateUrl (id : string) : string :=
  "upload/drive/v3/files/" ++ id ++ "?uploadType=multipart&fields=id".

(** Listings are the one page [listed]; every request succeeds except
    the content update of the object [bad]. *)
Definition failingUpdate (listed : list FileMetadata) (bad : string)
    : KyInstance :=
  mkKy (fun _ _ => Some (mkPage None listed))
    (fun past _ => Some ("folder" ++ JS.of_nat (length past)))
    (fun past _ _ => Some ("file" ++ JS.of_nat (length past)))
    (fun _ url _ _ =>
       if String.eqb url (updateUrl bad) then None else Some "updated")
    (fun _ _ => "HTTP/1.1 200 OK")
    (fun _ url => Some ("remote content at " ++ url))
    (fun _ _ => None).

Definition note (path name : string) (parent : string) : TAbstractFile :=
  mkTAbstractFile TFile path name (Some parent).

Definition folder (path name : string) (parent : string) : TAbstractFile :=
  mkTAbstractFile TFolder path name (Some parent).

(** A vault holding exactly the given files. *)
Definition vaultOf (l : list TAbstractFile) : Vault :=
  mkVault (fun path => find (fun f => String.eqb (tf_path f) path) l)
    (fun path => "content of " ++ path)
    (fun path =>
       match path with
       | Some p => existsb (fun f => String.eqb (tf_path f) p) l
       | None => false
       end)
    ".obsidian".

(** Two pending modifications; the update of [b.md] will fail. *)
Definition twoModifies : Settings :=
  mkSettings [("a.md", modify); ("b.md", modify)]
    [("ID_A", "a.md"); ("ID_B", "b.md")].

Definition twoNotes : Vault :=
  vaultOf [note "a.md" "a.md" "/"; note "b.md" "b.md" "/"].

(** The user confirms the push at once. *)
Definition confirming : User := mkUser [] true.

(** The black boxes of the plugin leave the settings alone. *)
Definition idle : Plugin :=
  mkPlugin (fun _ s => s) (fun _ _ _ s => s) (fun _ s => s)
    (fun _ _ _ s => s).

Definition noHelpers : Helpers :=
  mkHelpers confirming idle [] (fun path => path)
    (fun _ _ _ _ => "Syncing") (fun _ => "{}").

(** Of the closures that wait together, the one started first is
    resumed first. *)
Definition inOrder : nat -> nat -> World -> bool := fun _ _ _ => true.

Definition emptyVault : Vault :=
  mkVault (fun _ => None) (fun _ => "") (fun _ => true) ".obsidian".

Definition quiet (ky : KyInstance) (v : Vault) : Env :=
  mkEnv ky v (fun s => (false, s)) (fun _ => "2024-01-01T00:00:00.000Z") 5
    inOrder noHelpers.

(** The same environment with another order of arrival. *)
Definition arriving (order : nat -> nat -> World -> bool) (env : Env)
    : Env :=
  mkEnv (drive env) (vault env) (pull env) (now env) (ceiling env) order
    (helpers env).

(** The same environment with another user. *)
Definition usedBy (u : User) (env : Env) : Env :=
  mkEnv (drive env) (vault env) (pull env) (now env) (ceiling env)
    (turn env)
    (mkHelpers u (plugin (helpers env))
       (getConfigFilesToSync (helpers env))
       (fileNameFromPath (helpers env)) (getSyncMessage (helpers env))
       (stringify (helpers env))).

Definition start (s : Settings) : World := mkWorld s false [] 0 [] [] [].

(** A sync cycle is already running. *)
Definition busy : World :=
  mkWorld (mkSettings [("a.md", modify)] [("ID_A", "a.md")]) true [] 0 [] []
    [].

(** Two pending deletions; the remote knows [a.md] only. *)
Definition twoDeletes : Settings :=
  mkSettings [("a.md", delete); ("b.md", delete)]
    [("ID_A", "a.md"); ("ID_B", "b.md")].

Definition knowsOnlyA : Env :=
  quiet (listing [remoteFile "ID_A" "a.md"]) emptyVault.

(** One pending deletion of an indexed file. *)
Definition oneDelete : Settings :=
  mkSettings [("old.md", delete)] [("ID_OLD", "old.md")].

(** The remote knows [old.md]. *)
Definition knowsOld : Env :=
  quiet (listing [remoteFile "ID_OLD" "old.md"]) emptyVault.

(** The remote lists nothing; every other request succeeds. *)
Definition agreeable : Env := quiet (listing []) emptyVault.

(** No listing request is answered. *)
Definition unreachable : Env := quiet (paged []) emptyVault.

Definition folderA : TAbstractFile := folder "a" "a" "/".
Definition folderAB : TAbstractFile := folder "a/b" "b" "a".

(** Two pending folder creations, one inside the other. *)
Definition nested : Settings :=
  mkSettings [("a", create); ("a/b", create)] [].

Definition nestedEnv : Env :=
  quiet (listing [rootFile]) (vaultOf [folderA; folderAB]).

(** One pending creation, of a note at the top of the vault. *)
Definition oneNote : Settings := mkSettings [("n.md", create)] [].

Definition oneNoteEnv : Env :=
  quiet (listing [rootFile]) (vaultOf [note "n.md" "n.md" "/"]).

(** [pull] reports that it pulled files. *)
Definition pulling : Env := reporting true agreeable.

(** The environment of the two modifications. *)
Definition oneFails : Env :=
  quiet (failingUpdate [] "ID_B") twoNotes.

End Scenario.

(* ================================================================= *)
(** ** Further functions of the sources *)

(** [fileListToMap]: name to id, a later file overwriting an earlier
    one of the same name. *)
Definition fileListToMap (files : list FileMetadata) : JS.Obj string :=
  JS.fromEntries (map (fun f => (name f, id f)) files).

(** [idFromPath]: the id of the first object found for the path, absent
    when the search fails and when it finds nothing. *)
Definition idFromPath (fuel : nat) (drive : KyInstance) (path : string)
    : M (option string) :=
  found <- searchFiles fuel drive (pathMatches [path]) false ;;
  match found with
  | Some (f :: _) => ret (Some (id f))
  | _ => ret None
  end.

(** The text of one delete sub-request of [batchDelete]. *)
Definition deleteRequest (fileId : JS.Value) : string :=
  JS.join crlf
    ["--batch_boundary"; "Content-Type: application/http"; "";
     "DELETE /drive/v3/files/" ++ JS.text fileId ++ " HTTP/1.1";
     ""; ""].

(** The folders that [push] of the confirming variant sets out to create
    for the configuration files: every proper prefix of every file path,
    once, without those that [pathsToIds] already resolves. *)
Definition configFolders (index : JS.Obj string) (files : list string)
    : list string :=
  filter (fun folder => negb (JS.isTruthy (JS.index index folder)))
    (fold_left addPrefixes files []).

(** ** Predicates used by the further properties *)

(** No character of [s] is the path separator. *)
Fixpoint noSlash (s : string) : bool :=
  match s with
  | EmptyString => true
  | String c rest => negb (Ascii.eqb c "/"%char) && noSlash rest
  end.

(** The characters of a string. *)
Definition chars (s : string) : list ascii := list_ascii_of_string s.

(** [keeps proj w w']: the part of the world that [proj] reads is the
    same in [w'] as in [w]. *)
Definition keeps {X : Type} (proj : World -> X) (w w' : World) : Prop :=
  proj w' = proj w.

(** The operation log and the single-flight lock. *)
Definition logAndLock (w : World) : JS.Obj Operation * bool :=
  (operations (settings w), syncing w).

(** The URLs of the content updates among the requests. *)
Definition updatedUrls (t : list Call) : list string :=
  flat_map (fun c => match c with
                     | PATCH_upload url _ _ => [url]
                     | _ => []
                     end) t.

Definition isPATCH (c : Call) : Prop :=
  match c with PATCH_upload _ _ _ => True | _ => False end.

(** The files behind the pending modifications: those that still exist
    as files in the vault. *)
Definition modifiedFiles (env : Env) (modifies : JS.Obj Operation)
    : list TAbstractFile :=
  instancesOf isFile
    (map (fun e => getFileByPath (vault env) (fst e)) modifies).

(** ** Predicates on what closures do when they run together *)

(** [owes measure p d]: the steps that [p] still takes add [d] to
    [measure] in all, whenever they are taken and whatever happens in
    between.  Nothing is said of a promise that is rejected or that runs
    out of budget. *)
Fixpoint owes {A} (measure : World -> Z) (p : Pending A) (d : Z) : Prop :=
  match p with
  | Settled _ => d = 0%Z
  | Awaiting effect next =>
      forall w, owes measure (next w) (d - (measure (effect w) - measure w))
  | _ => True
  end.

(** An async function that adds [d] to [measure] between its call and
    the settling of its promise. *)
Definition owesAsync {A} (measure : World -> Z) (c : Async A) (d : Z)
    : Prop :=
  forall w,
    owes measure (settle (fst (c w)))
      (d - (measure (snd (c w)) - measure w)).

Definition total {X} (d : X -> Z) (l : list X) : Z :=
  fold_right (fun x s => (d x + s)%Z) 0%Z l.

(** Every value with which [p] can be settled satisfies [Q]. *)
Fixpoint results {A} (Q : A -> Prop) (p : Pending A) : Prop :=
  match p with
  | Settled a => Q a
  | Awaiting _ next => forall w, results Q (next w)
  | _ => True
  end.

(** The two lists hold the same elements. *)
Definition sameElements {A} (l l' : list A) : Prop :=
  forall x, In x l <-> In x l'.


(** What the closure of [staleConfig] for the listed object [f] pushes
    onto [deletes] when it has run. *)
Definition staleEntry (env : Env) (f : FileMetadata) : JS.Obj Operation :=
  match properties f with
  | Some p =>
      if exists_ (vault env) (JS.get p "path") then []
      else [(JS.template (JS.get p "path"), delete)]
  | None => []
  end.

(** Whether the remote fails the request [c] when it is a content
    update sent after [past]: the closure of the modify phase then sees
    no id. *)
Definition fails (drive : KyInstance) (past : list Call) (c : Call) : bool :=
  match c with
  | PATCH_upload url metadata content =>
      match JS.nonEmpty (patch_upload drive past url metadata content) with
      | None => true
      | Some _ => false
      end
  | _ => false
  end.

(** The number of failed content updates among the requests [sent]
    after [past]. *)
Fixpoint failedUpdates (drive : KyInstance) (past sent : list Call) : nat :=
  match sent with
  | [] => 0
  | c :: sent' =>
      (if fails drive past c then 1 else 0)
      + failedUpdates drive (past ++ [c])%list sent'
  end.

(** The number of content updates sent to [url]. *)
Definition updatesTo (url : string) (w : World) : Z :=
  Z.of_nat (count_occ string_dec (updatedUrls (trace w)) url).

(** The failed content updates that no notice has reported yet. *)
Definition unreported (drive : KyInstance) (w : World) : Z :=
  (Z.of_nat (failedUpdates drive [] (trace w))
   - Z.of_nat (length (notices w)))%Z.

(** From [w] to [w'] only content updates were sent and only notices
    about modifying were shown. *)
Definition onlyUpdated (w w' : World) : Prop :=
  settings w' = settings w /\ syncing w' = syncing w
  /\ (exists patches,
         trace w' = (trace w ++ patches)%list /\ Forall isPATCH patches)
  /\ exists k, notices w' = (notices w ++ repeat modifyError k)%list.

(** ** Further scenarios *)

Module Cases.

(** The remote knows [old.md] and answers the grouped delete with an
    empty body. *)
Definition deleteRefused : Env :=
  Scenario.quiet
    (mkKy (fun _ _ => Some (mkPage None [Scenario.remoteFile "ID_OLD" "old.md"]))
       (fun _ _ => None) (fun _ _ _ => None) (fun _ _ _ _ => None)
       (fun _ _ => "") (fun _ _ => None) (fun _ _ => None))
    Scenario.emptyVault.

(** One indexed file to delete and one indexed file to keep. *)
Definition deleteOneOfTwo : Settings :=
  mkSettings [("old.md", delete)]
    [("ID_OLD", "old.md"); ("ID_KEPT", "kept.md")].

(** An index in which an id is spelt like a path. *)
Definition idSpeltLikePath : Settings :=
  mkSettings [("old.md", delete)]
    [("ID_OLD", "old.md"); ("old.md", "elsewhere.md")].

(** Two configuration objects on the remote, of which only
    [.obsidian/app.json] still exists locally. *)
Definition configObject (id path : string) : FileMetadata :=
  mkFileMetadata id path "" "application/json" false
    (Some [("path", path); ("config", "true")]) "".

Definition configListed : list FileMetadata :=
  [configObject "C1" ".obsidian/app.json";
   configObject "C2" ".obsidian/gone.json"].

Definition keepsApp : Env :=
  Scenario.quiet (Scenario.listing configListed)
    (Scenario.vaultOf
       [Scenario.note ".obsidian/app.json" "app.json" ".obsidian"]).

(** A log in the order of the edits, and the same entries in the
    alphabetical order of the dialog. *)
Definition editedLog : JS.Obj Operation :=
  [("c.md", modify); ("a/b.md", create); ("a", create)].

Definition shownLog : JS.Obj Operation :=
  [("a", create); ("a/b.md", create); ("c.md", modify)].

(** The user clicks the bin button of [path], confirms the undo, and
    then confirms the push. *)
Definition undoing (path : string) : User :=
  mkUser [mkGesture path true None] true.

(** A deleted folder [a] and a deleted file in it, both indexed. *)
Definition folderAndFile : Settings :=
  mkSettings [("a/b.md", delete); ("a", delete)]
    [("ID_A", "a"); ("ID_B", "a/b.md")].

(** The remote finds an object for the path [a] only. *)
Definition findsOnlyA : Env :=
  Scenario.usedBy (undoing "a")
    (Scenario.quiet (Scenario.listing [Scenario.remoteFile "ID_A" "a"])
       Scenario.emptyVault).


End Cases.
(* ================================================================= *)
(** * Properties *)

(** ** How a computation changes the world

    For a reflexive and transitive [R], [respects R] goes through
    sequencing, loops, promises awaited together and [batchAsyncs]. *)

Lemma Forall_map_all {A B} (P : B -> Prop) (f : A -> B) (l : list A) :
  (forall x, P (f x)) -> Forall P (map f l).
Proof. intros H. induction l; cbn; constructor; auto. Qed.

Lemma Forall_waves {A} (P : A -> Prop) (fuel size : nat) (l : list A) :
  Forall P l -> Forall (Forall P) (waves fuel size l).
Proof.
  revert l. induction fuel as [| fuel IH]; intros l H.
  - destruct l; cbn; auto.
  - destruct l as [| x l]; [constructor |].
    remember (x :: l) as xs eqn:E. clear E. cbn.
    rewrite <- (firstn_skipn size xs) in H.
    apply Forall_app in H. destruct H as [H1 H2].
    destruct xs; constructor; auto.
Qed.

(** Calling the closures one after the other. *)
Lemma mapM_start_cons {A} (c : Async A) (closures : list (Async A))
    (w : World) :
  mapM start (c :: closures) w
  = match mapM start closures (snd (c w)) with
    | (Val ps, w') => (Val (settle (fst (c w)) :: ps), w')
    | (Throw e, w') => (Throw e, w')
    | (Diverge, w') => (Diverge, w')
    end.
Proof.
  cbn [mapM]. unfold bind at 1. unfold start at 1. cbn [fst snd].
  unfold bind. destruct (mapM start closures (snd (c w))) as [[ps | e |] w'];
    reflexivity.
Qed.

Lemma mapM_start_val {A} (closures : list (Async A)) (w : World) :
  exists ps, fst (mapM start closures w) = Val ps
             /\ length ps = length closures.
Proof.
  revert w. induction closures as [| c closures IH]; intros w.
  - exists []. split; reflexivity.
  - rewrite mapM_start_cons. destruct (IH (snd (c w))) as (ps & E & L).
    destruct (mapM start closures (snd (c w))) as [r w']. cbn in E.
    subst r. eexists. split; [reflexivity |]. cbn. rewrite L. reflexivity.
Qed.

Section Respects.

Variable R : World -> World -> Prop.
Hypothesis R_refl : forall w, R w w.
Hypothesis R_trans : forall a b c, R a b -> R b c -> R a c.

Lemma respects_ret {A} (a : A) : respects R (ret a).
Proof. intros w. apply R_refl. Qed.

Lemma respects_throw {A} (e : Exn) : respects R (@throw A e).
Proof. intros w. apply R_refl. Qed.

Lemma respects_diverge {A} : respects R (@diverge A).
Proof. intros w. apply R_refl. Qed.

Lemma respects_getWorld : respects R getWorld.
Proof. intros w. apply R_refl. Qed.

Lemma respects_bind_val {A B} (c : M A) (k : A -> M B) :
  respects R c ->
  (forall w a, fst (c w) = Val a -> respects R (k a)) ->
  respects R (bind c k).
Proof.
  intros Hc Hk w. unfold bind.
  specialize (Hc w). specialize (Hk w).
  destruct (c w) as [[a | e |] w']; cbn in *; auto.
  eapply R_trans; [exact Hc |]. apply (Hk a eq_refl).
Qed.

Lemma respects_bind {A B} (c : M A) (k : A -> M B) :
  respects R c -> (forall a, respects R (k a)) -> respects R (bind c k).
Proof. intros Hc Hk. apply respects_bind_val; auto. Qed.

Lemma respects_forEach {A} (f : A -> M unit) (l : list A) :
  Forall (fun x => respects R (f x)) l -> respects R (forEach f l).
Proof.
  induction 1 as [| x l Hx _ IH]; cbn.
  - apply respects_ret.
  - apply respects_bind; auto.
Qed.

Lemma respects_mapM {A B} (f : A -> M B) (l : list A) :
  Forall (fun x => respects R (f x)) l -> respects R (mapM f l).
Proof.
  induction 1 as [| x l Hx _ IH]; cbn.
  - apply respects_ret.
  - apply respects_bind; [exact Hx | intros y].
    apply respects_bind; [exact IH | intros ys]. apply respects_ret.
Qed.

Lemma respects_filterM {A} (f : A -> M bool) (l : list A) :
  Forall (fun x => respects R (f x)) l -> respects R (filterM f l).
Proof.
  induction 1 as [| x l Hx _ IH]; cbn.
  - apply respects_ret.
  - apply respects_bind; [exact Hx | intros y].
    apply respects_bind; [exact IH | intros ys]. apply respects_ret.
Qed.

(** *** Promises *)

Lemma respects_await {A} (p : Pending A) :
  stepsRespect R p -> respects R (await p).
Proof.
  induction p as [a | e | | effect next IH]; intros H w; cbn;
    try apply R_refl.
  destruct (H w) as [Hstep Hnext].
  eapply R_trans; [exact Hstep |]. apply IH. exact Hnext.
Qed.

Lemma stepsRespect_mapP {A B} (f : A -> B) (p : Pending A) :
  stepsRespect R p -> stepsRespect R (mapP f p).
Proof.
  induction p as [a | e | | effect next IH]; cbn; auto.
  intros H w. destruct (H w) as [Hstep Hnext]. split; auto.
Qed.

Lemma stepsRespect_par {A} (combine : A -> A -> A)
    (choose : nat -> World -> bool) (p : Pending A) :
  stepsRespect R p ->
  forall (q : Pending A) (n : nat),
    stepsRespect R q -> stepsRespect R (par combine choose p n q).
Proof.
  induction p as [a | e | | effect next IHp]; intros Hp.
  - intros q n Hq. destruct q; cbn; auto.
    apply (stepsRespect_mapP (combine a) (Awaiting effect next)). exact Hq.
  - intros q n Hq. destruct q; exact I.
  - intros q n Hq. destruct q; exact I.
  - induction q as [b | e | | effect' next' IHq]; intros n Hq;
      try exact I.
    + apply (stepsRespect_mapP (fun a => combine b a)
               (Awaiting effect next)). exact Hp.
    + cbn. intros w. destruct (Hp w) as [Hstep Hnext].
      destruct (Hq w) as [Hstep' Hnext'].
      destruct (choose n w).
      * split; [exact Hstep |]. apply IHp; [exact Hnext | exact Hq].
      * split; [exact Hstep' |]. apply IHq. exact Hnext'.
Qed.

Lemma stepsRespect_all {A} (combine : A -> A -> A) (none : A)
    (turn : nat -> nat -> World -> bool) (ps : list (Pending A)) :
  Forall (stepsRespect R) ps ->
  forall j, stepsRespect R (all combine none turn j ps).
Proof.
  induction 1 as [| p ps Hp _ IH]; intros j; cbn; [exact I |].
  apply stepsRespect_par; [exact Hp | apply IH].
Qed.

Lemma respects_start {A} (c : Async A) :
  respectsAsync R c -> respects R (start c).
Proof. intros H w. apply (H w). Qed.

Lemma started_respect {A} (closures : list (Async A)) :
  Forall (respectsAsync R) closures ->
  forall w ps, fst (mapM start closures w) = Val ps ->
               Forall (stepsRespect R) ps.
Proof.
  induction 1 as [| c closures Hc _ IH]; intros w ps E.
  - inversion E. constructor.
  - rewrite mapM_start_cons in E.
    destruct (mapM start closures (snd (c w))) as [[ps' | e |] w2] eqn:Em;
      cbn in E; try discriminate.
    inversion E; subst. constructor.
    + apply (Hc w).
    + apply (IH (snd (c w))). rewrite Em. reflexivity.
Qed.

Lemma respects_promiseAll {A} (env : Env) (combine : A -> A -> A)
    (none : A) (closures : list (Async A)) :
  Forall (respectsAsync R) closures ->
  respects R (promiseAll env combine none closures).
Proof.
  intros H. unfold promiseAll. apply respects_bind_val.
  - apply respects_mapM. eapply Forall_impl; [| exact H].
    intros c Hc. apply respects_start. exact Hc.
  - intros w ps E. apply respects_await. apply stepsRespect_all.
    eapply started_respect; eauto.
Qed.

Lemma respects_batchAsyncs (env : Env) (actions : list Action) :
  Forall (respectsAsync R) actions -> respects R (batchAsyncs env actions).
Proof.
  intros H. unfold batchAsyncs. apply respects_forEach.
  eapply Forall_impl; [| apply Forall_waves; exact H].
  intros wave Hw. apply respects_promiseAll. exact Hw.
Qed.

(** *** Async functions *)

Lemma respectsAsync_retA {A} (a : A) : respectsAsync R (retA a).
Proof. intros w. split; [apply R_refl | exact I]. Qed.

Lemma respectsAsync_throw {A} (e : Exn) : respectsAsync R (@throw (Pending A) e).
Proof. intros w. split; [apply R_refl | exact I]. Qed.

Lemma respectsAsync_diverge {A} : respectsAsync R (@diverge (Pending A)).
Proof. intros w. split; [apply R_refl | exact I]. Qed.

Lemma respectsAsync_later {A} (a : A) : respectsAsync R (later a).
Proof.
  intros w. split; [apply R_refl |]. cbn. intros w'.
  split; [apply R_refl | exact I].
Qed.

Lemma respectsAsync_sync {A} (c : M A) :
  respects R c -> respectsAsync R (sync c).
Proof.
  intros H w. unfold sync, bind. specialize (H w).
  destruct (c w) as [[a | e |] w']; cbn in *; auto.
Qed.

Lemma respectsAsync_requestA {A} (c : Call) (answer : list Call -> A) :
  (forall w, R w (sent c w)) -> respectsAsync R (requestA c answer).
Proof.
  intros H w. split; [apply H |]. cbn. intros w'.
  split; [apply R_refl | exact I].
Qed.

(** Code that runs before the first [await]. *)
Lemma respectsAsync_bind {A B} (c : M A) (k : A -> Async B) :
  respects R c -> (forall a, respectsAsync R (k a)) ->
  respectsAsync R (bind c k).
Proof.
  intros Hc Hk w. unfold bind. specialize (Hc w).
  destruct (c w) as [[a | e |] w']; cbn in *; auto.
  destruct (Hk a w') as [H1 H2]. split; [| exact H2].
  eapply R_trans; eauto.
Qed.

Lemma respectsAsync_andThen {A B} (p : Pending A) (k : A -> Async B) :
  stepsRespect R p -> (forall a, respectsAsync R (k a)) ->
  respectsAsync R (andThen p k).
Proof.
  intros Hp Hk. induction p as [a | e | | effect next IH]; cbn.
  - apply Hk.
  - intros w. split; [apply R_refl | exact I].
  - intros w. split; [apply R_refl | exact I].
  - intros w. split; [apply R_refl |]. cbn. intros w'.
    destruct (Hp w') as [Hstep Hnext].
    destruct (IH w' Hnext (effect w')) as [H1 H2].
    split; [| exact H2]. eapply R_trans; eauto.
Qed.

Lemma respectsAsync_bindA {A B} (c : Async A) (k : A -> Async B) :
  respectsAsync R c -> (forall a, respectsAsync R (k a)) ->
  respectsAsync R (bindA c k).
Proof.
  intros Hc Hk w. unfold bindA, bind. destruct (Hc w) as [H1 H2].
  destruct (c w) as [[p | e |] w']; cbn in *; auto.
  destruct (respectsAsync_andThen p k H2 Hk w') as [H3 H4].
  split; [| exact H4]. eapply R_trans; eauto.
Qed.

Lemma respects_awaited {A} (c : Async A) :
  respectsAsync R c -> respects R (awaited c).
Proof.
  intros H. unfold awaited. apply respects_bind_val.
  - intros w. apply (H w).
  - intros w p E. apply respects_await.
    destruct (H w) as [_ Hp]. rewrite E in Hp. exact Hp.
Qed.

End Respects.

(** *** Settling *)

Lemma settles_forEach {A} (f : A -> M unit) (l : list A) :
  Forall (fun x => settles (f x)) l -> settles (forEach f l).
Proof.
  induction 1 as [| x l Hx _ IH]; intros w; cbn; [reflexivity |].
  unfold bind. specialize (Hx w). destruct (f x w) as [r w1]. cbn in Hx.
  subst r. apply IH.
Qed.

Lemma await_settling (p : Pending unit) :
  settling p -> forall w, fst (await p w) = Val tt.
Proof.
  induction p as [[] | e | | effect next IH]; cbn; intros H w;
    try contradiction; auto.
Qed.

Lemma settling_mapP {A B} (f : A -> B) (p : Pending A) :
  settling p -> settling (mapP f p).
Proof.
  induction p as [a | e | | effect next IH]; cbn; auto.
Qed.

Lemma settling_par {A} (combine : A -> A -> A)
    (choose : nat -> World -> bool) (p : Pending A) :
  settling p ->
  forall (q : Pending A) (n : nat),
    settling q -> settling (par combine choose p n q).
Proof.
  induction p as [a | e | | effect next IHp]; intros Hp;
    try contradiction.
  - intros q n Hq. destruct q; cbn; auto.
    apply (settling_mapP (combine a) (Awaiting effect next)). exact Hq.
  - induction q as [b | e | | effect' next' IHq]; intros n Hq;
      try contradiction.
    + apply (settling_mapP (fun a => combine b a) (Awaiting effect next)).
      exact Hp.
    + cbn. intros w. destruct (choose n w).
      * apply IHp; [apply Hp | exact Hq].
      * apply IHq. apply Hq.
Qed.

Lemma settling_all {A} (combine : A -> A -> A) (none : A)
    (turn : nat -> nat -> World -> bool) (ps : list (Pending A)) :
  Forall settling ps -> forall j, settling (all combine none turn j ps).
Proof.
  induction 1 as [| p ps Hp _ IH]; intros j; cbn; [exact I |].
  apply settling_par; [exact Hp | apply IH].
Qed.

Lemma started_settle {A} (closures : list (Async A)) :
  Forall settlesAsync closures ->
  forall w, exists ps,
    fst (mapM start closures w) = Val ps /\ Forall settling ps.
Proof.
  induction 1 as [| c closures Hc _ IH]; intros w.
  - exists []. split; [reflexivity | constructor].
  - rewrite mapM_start_cons.
    destruct (IH (snd (c w))) as (ps & Eps & Hps).
    destruct (mapM start closures (snd (c w))) as [r w2].
    cbn in Eps. subst r. eexists. split; [reflexivity |].
    constructor; [apply Hc | exact Hps].
Qed.

Lemma settles_batchAsyncs (env : Env) (actions : list Action) :
  Forall settlesAsync actions -> settles (batchAsyncs env actions).
Proof.
  intros H. unfold batchAsyncs. apply settles_forEach.
  eapply Forall_impl; [| apply Forall_waves; exact H].
  intros wave Hw w. unfold promiseAll, bind.
  destruct (started_settle wave Hw w) as (ps & Eps & Hps).
  destruct (mapM start wave w) as [r w1]. cbn in Eps. subst r.
  apply await_settling. apply settling_all. exact Hps.
Qed.

Lemma settlesAsync_later {A B} (a : A) (k : A -> Async B) :
  (forall x, settlesAsync (k x)) -> settlesAsync (bindA (later a) k).
Proof.
  intros H w. cbn. intros w'. apply (H a).
Qed.

Lemma settlesAsync_requestA {A B} (c : Call) (answer : list Call -> A)
    (k : A -> Async B) :
  (forall x, settlesAsync (k x)) -> settlesAsync (bindA (requestA c answer) k).
Proof.
  intros H w. cbn. intros w'. apply (H _).
Qed.

(* ================================================================= *)
(** ** The client awaited alone

    The suspended forms of the client functions, awaited while nothing
    else runs, are the functions themselves. *)

Lemma bind_assoc {A B C} (c : M A) (k : A -> M B) (h : B -> M C)
    (w : World) :
  bind (bind c k) h w = bind c (fun a => bind (k a) h) w.
Proof.
  unfold bind. destruct (c w) as [[a | e |] w1]; try reflexivity.
Qed.

Lemma await_andThen {A B} (p : Pending A) (k : A -> Async B) (w : World) :
  awaited (andThen p k) w = bind (await p) (fun a => awaited (k a)) w.
Proof.
  revert w. induction p as [a | e | | effect next IH]; intros w.
  - reflexivity.
  - reflexivity.
  - reflexivity.
  - unfold awaited, bind. cbn.
    specialize (IH w (effect w)). unfold awaited, bind in IH.
    destruct (andThen (next w) k (effect w)) as [[q | e |] w1]; cbn in *;
      exact IH.
Qed.

Lemma awaited_bindA {A B} (c : Async A) (k : A -> Async B) (w : World) :
  awaited (bindA c k) w = bind (awaited c) (fun a => awaited (k a)) w.
Proof.
  unfold bindA. unfold awaited at 1 2. rewrite !bind_assoc.
  unfold bind at 1 3. destruct (c w) as [[p | e |] w1]; try reflexivity.
  apply (await_andThen p k w1).
Qed.

Lemma awaited_requestA {A} (c : Call) (answer : list Call -> A) (w : World) :
  awaited (requestA c answer) w = request c answer w.
Proof. reflexivity. Qed.

Lemma awaited_retA {A} (a : A) (w : World) : awaited (retA a) w = ret a w.
Proof. reflexivity. Qed.

Lemma awaited_later {A} (a : A) (w : World) : awaited (later a) w = ret a w.
Proof. reflexivity. Qed.

Lemma awaited_sync {A} (c : M A) (w : World) : awaited (sync c) w = c w.
Proof.
  unfold awaited, sync, bind. destruct (c w) as [[a | e |] w1]; reflexivity.
Qed.

(** Code before the first [await]. *)
Lemma awaited_bind {A B} (c : M A) (k : A -> Async B) (w : World) :
  awaited (bind c k) w = bind c (fun a => awaited (k a)) w.
Proof. unfold awaited. apply bind_assoc. Qed.

Lemma bind_ext {A B} (c : M A) (k k' : A -> M B) (w : World) :
  (forall a w', k a w' = k' a w') -> bind c k w = bind c k' w.
Proof.
  intros H. unfold bind. destruct (c w) as [[a | e |] w1]; auto.
Qed.

Lemma awaited_paginateFiles drive data token pageSize (w : World) :
  awaited (Async.paginateFiles drive data token pageSize) w
  = paginateFiles drive data token pageSize w.
Proof. reflexivity. Qed.

Lemma awaited_searchLoop (fuel : nat) drive data :
  forall acc token w,
    awaited (Async.searchLoop fuel drive data acc token) w
    = searchLoop fuel drive data acc token w.
Proof.
  induction fuel as [| fuel IH]; intros acc token w; cbn;
    destruct (JS.truthy token); try reflexivity.
  rewrite awaited_bindA. apply bind_ext. intros [p |] w'; [apply IH |].
  reflexivity.
Qed.

Lemma awaited_searchFiles fuel drive data includeObsidian (w : World) :
  awaited (Async.searchFiles fuel drive data includeObsidian) w
  = searchFiles fuel drive data includeObsidian w.
Proof.
  unfold Async.searchFiles, searchFiles. rewrite awaited_bindA.
  apply bind_ext. intros [p |] w'; [| reflexivity].
  rewrite awaited_bindA.
  unfold bind. rewrite awaited_searchLoop.
  destruct (searchLoop fuel drive data (files p) (nextPageToken p) w')
    as [[[l |] | e |] w1]; try reflexivity.
  destruct includeObsidian; reflexivity.
Qed.

Lemma awaited_getRootFolderId fuel drive (w : World) :
  awaited (Async.getRootFolderId fuel drive) w = getRootFolderId fuel drive w.
Proof.
  unfold Async.getRootFolderId, getRootFolderId. rewrite awaited_bindA.
  unfold bind. rewrite awaited_searchFiles.
  destruct (searchFiles fuel drive vaultMatch true w)
    as [[[[| f found] |] | e |] w1]; reflexivity.
Qed.

Lemma awaited_createFolder fuel drive a (w : World) :
  awaited (Async.createFolder fuel drive a) w = createFolder fuel drive a w.
Proof.
  unfold Async.createFolder, createFolder.
  destruct (JS.isTruthy (a_parent a)); [reflexivity |].
  rewrite awaited_bindA. unfold bind. rewrite awaited_getRootFolderId.
  destruct (getRootFolderId fuel drive w) as [[root | e |] w1];
    try reflexivity.
  destruct (JS.nonEmpty root); reflexivity.
Qed.

Lemma awaited_uploadFile fuel drive file name parent metadata (w : World) :
  awaited (Async.uploadFile fuel drive file name parent metadata) w
  = uploadFile fuel drive file name parent metadata w.
Proof.
  unfold Async.uploadFile, uploadFile.
  destruct (JS.isTruthy parent); [reflexivity |].
  rewrite awaited_bindA. unfold bind. rewrite awaited_getRootFolderId.
  destruct (getRootFolderId fuel drive w) as [[root | e |] w1];
    try reflexivity.
  destruct (JS.nonEmpty root); reflexivity.
Qed.

Lemma awaited_updateFile drive id content metadata (w : World) :
  awaited (Async.updateFile drive id content metadata) w
  = updateFile drive id content metadata w.
Proof. reflexivity. Qed.

Lemma awaited_getFile drive id (w : World) :
  awaited (Async.getFile drive id) w = getFile drive id w.
Proof. reflexivity. Qed.
(* ================================================================= *)
(** ** Strings and paths *)

Lemma append_assoc (a b c : string) : (a ++ b) ++ c = a ++ (b ++ c).
Proof. induction a as [| x a IH]; cbn; [| rewrite IH]; reflexivity. Qed.

Lemma split_from_length (s cur : string) : 1 <= length (JS.split_from cur s).
Proof.
  revert cur. induction s as [| c s IH]; intros cur; cbn; [lia |].
  destruct (Ascii.eqb c "/"); cbn; [lia | apply IH].
Qed.

Lemma depth_positive (path : string) : 1 <= depth path.
Proof. apply split_from_length. Qed.

Lemma split_from_nonempty (s cur : string) : JS.split_from cur s <> [].
Proof.
  intros E. pose proof (split_from_length s cur) as H. rewrite E in H.
  cbn in H. lia.
Qed.

Lemma append_empty_r (s : string) : s ++ "" = s.
Proof. induction s as [| c s IH]; cbn; [| rewrite IH]; reflexivity. Qed.

Lemma join_cons (sep x : string) (l : list string) :
  l <> [] -> JS.join sep (x :: l) = x ++ sep ++ JS.join sep l.
Proof. destruct l; [contradiction | reflexivity]. Qed.

Lemma join_split_from (s cur : string) :
  JS.join "/" (JS.split_from cur s) = cur ++ s.
Proof.
  revert cur. induction s as [| c s IH]; intros cur.
  - cbn. rewrite append_empty_r. reflexivity.
  - cbn [JS.split_from]. destruct (Ascii.eqb c "/") eqn:E.
    + apply Ascii.eqb_eq in E. subst c.
      rewrite join_cons by apply split_from_nonempty.
      rewrite IH. reflexivity.
    + rewrite IH. rewrite append_assoc. reflexivity.
Qed.

Lemma split_from_noSlash (a : string) :
  noSlash a = true ->
  forall cur rest,
    JS.split_from cur (a ++ rest) = JS.split_from (cur ++ a) rest.
Proof.
  induction a as [| c a IH]; intros Ha cur rest.
  - cbn. rewrite append_empty_r. reflexivity.
  - cbn in Ha. apply andb_prop in Ha. destruct Ha as [Hc Ha].
    cbn. destruct (Ascii.eqb c "/"); [discriminate |].
    rewrite (IH Ha). rewrite append_assoc. reflexivity.
Qed.

Lemma split_from_join (l : list string) :
  Forall (fun s => noSlash s = true) l ->
  forall cur x,
    noSlash x = true ->
    JS.split_from cur (JS.join "/" (x :: l)) = (cur ++ x) :: l.
Proof.
  induction 1 as [| y l Hy _ IH]; intros cur x Hx.
  - cbn [JS.join String.concat].
    rewrite <- (append_empty_r x) at 1.
    rewrite (split_from_noSlash x Hx). reflexivity.
  - rewrite join_cons by discriminate.
    rewrite (split_from_noSlash x Hx).
    change ("/" ++ JS.join "/" (y :: l))
      with (String "/" (JS.join "/" (y :: l))).
    cbn [JS.split_from]. rewrite Ascii.eqb_refl.
    rewrite (IH "" y Hy). reflexivity.
Qed.

Lemma split_from_segments (s : string) :
  forall cur, noSlash cur = true ->
              Forall (fun x => noSlash x = true) (JS.split_from cur s).
Proof.
  induction s as [| c s IH]; intros cur Hcur; cbn.
  - constructor; [exact Hcur | constructor].
  - destruct (Ascii.eqb c "/") eqn:E.
    + constructor; [exact Hcur | apply IH; reflexivity].
    + apply IH. clear IH. induction cur as [| d cur IHc]; cbn in *.
      * rewrite E. reflexivity.
      * apply andb_prop in Hcur. destruct Hcur as [Hd Hcur].
        rewrite Hd. cbn. apply IHc. exact Hcur.
Qed.

Lemma split_join (l : list string) :
  l <> [] ->
  Forall (fun s => noSlash s = true) l ->
  JS.split (JS.join "/" l) = l.
Proof.
  intros Hne Hl. destruct l as [| x l]; [contradiction |].
  inversion Hl; subst. unfold JS.split.
  rewrite split_from_join; auto.
Qed.

Lemma split_segments (s : string) :
  Forall (fun x => noSlash x = true) (JS.split s).
Proof. apply split_from_segments. reflexivity. Qed.

Lemma join_snoc (l : list string) (x : string) :
  l <> [] -> JS.join "/" (l ++ [x]) = JS.join "/" l ++ "/" ++ x.
Proof.
  induction l as [| y l IH]; intros Hne; [contradiction |].
  destruct l as [| z l].
  - reflexivity.
  - change ((y :: z :: l) ++ [x])%list with (y :: ((z :: l) ++ [x]))%list.
    rewrite join_cons by (cbn; discriminate).
    rewrite IH by discriminate.
    rewrite (join_cons "/" y (z :: l)) by discriminate.
    rewrite !append_assoc. reflexivity.
Qed.

Lemma depth_prefix (parts : list string) (i : nat) :
  Forall (fun x => noSlash x = true) parts ->
  1 <= i -> i <= length parts ->
  JS.split (JS.join "/" (firstn i parts)) = firstn i parts.
Proof.
  intros Hp Hi Hlen. apply split_join.
  - destruct parts; [cbn in Hlen; lia |].
    destruct i; [lia | discriminate].
  - rewrite <- (firstn_skipn i parts) in Hp.
    apply Forall_app in Hp. apply Hp.
Qed.

Lemma path_parts :
  forall p : string,
    JS.join "/" (JS.split p) = p
    /\ p = (if (depth p =? 1)%nat then lastSegment p
            else parentPath p ++ "/" ++ lastSegment p)
    /\ (if (depth p =? 1)%nat then parentPath p = ""
        else depth (parentPath p) = depth p - 1)
    /\ noSlash (lastSegment p) = true.
Proof.
  intros p.
  assert (Hjoin : JS.join "/" (JS.split p) = p).
  { unfold JS.split. rewrite join_split_from. reflexivity. }
  pose proof (split_segments p) as Hseg.
  pose proof (split_from_nonempty p "") as Hne. fold (JS.split p) in Hne.
  unfold depth, lastSegment, parentPath.
  destruct (JS.split p) as [| x l] eqn:E; [contradiction |]. clear Hne.
  split; [exact Hjoin |].
  destruct l as [| y l].
  - cbn. cbn in Hjoin. inversion Hseg; subst. auto.
  - assert (Hl : (length (x :: y :: l) =? 1)%nat = false) by reflexivity.
    rewrite Hl.
    assert (Hsplit : (x :: y :: l)
                     = (removelast (x :: y :: l)
                        ++ [last (x :: y :: l) ""])%list).
    { apply app_removelast_last. discriminate. }
    assert (Hr : removelast (x :: y :: l) <> []).
    { cbn. destruct l; discriminate. }
    repeat split.
    + rewrite <- join_snoc by exact Hr. rewrite <- Hsplit.
      symmetry. exact Hjoin.
    + rewrite split_join.
      * rewrite Hsplit at 2. rewrite length_app. cbn [length]. lia.
      * exact Hr.
      * rewrite Hsplit in Hseg. apply Forall_app in Hseg. apply Hseg.
    + rewrite Hsplit in Hseg. apply Forall_app in Hseg.
      destruct Hseg as [_ Hlast]. inversion Hlast; subst. assumption.
Qed.

(** A path is the "/"-join of its segments.  With one segment it is
    its own name and its parent path is empty; with more, it is its
    parent path, a separator and its name, and the parent path has one
    segment less.  The name never contains a separator. *)
Theorem path_is_parent_and_name :
  forall p : string,
    JS.join "/" (JS.split p) = p
    /\ p = (if (depth p =? 1)%nat then lastSegment p
            else parentPath p ++ "/" ++ lastSegment p)
    /\ (if (depth p =? 1)%nat then parentPath p = ""
        else depth (parentPath p) = depth p - 1)
    /\ noSlash (lastSegment p) = true.
Proof. exact path_parts. Qed.


(** ** The folders of the configuration files *)

(* ================================================================= *)
(** ** The folders of the configuration files *)

Lemma setAdd_In (s : list string) (x y : string) :
  In x (setAdd s y) <-> In x s \/ x = y.
Proof.
  unfold setAdd. destruct (existsb (String.eqb y) s) eqn:E.
  - split; [auto | intros [H | ->]; [exact H |]].
    apply existsb_exists in E. destruct E as (z & Hz & Ez).
    apply String.eqb_eq in Ez. subst z. exact Hz.
  - rewrite in_app_iff. cbn. split.
    + intros [H | [H | []]]; auto.
    + intros [H | H]; auto.
Qed.

Lemma setAdd_NoDup (s : list string) (y : string) :
  NoDup s -> NoDup (setAdd s y).
Proof.
  intros Hs. unfold setAdd. destruct (existsb (String.eqb y) s) eqn:E.
  - exact Hs.
  - apply NoDup_app; [exact Hs | repeat constructor; auto |].
    intros x Hx [-> | []].
    assert (Ht : existsb (String.eqb x) s = true).
    { apply existsb_exists. exists x. split; [exact Hx |].
      apply String.eqb_refl. }
    congruence.
Qed.

Lemma fold_setAdd {A} (f : A -> string) (l : list A) :
  forall s x,
    (In x (fold_left (fun s i => setAdd s (f i)) l s)
     <-> In x s \/ exists i, In i l /\ x = f i)
    /\ (NoDup s -> NoDup (fold_left (fun s i => setAdd s (f i)) l s)).
Proof.
  induction l as [| i l IH]; intros s x; cbn.
  - split; [| auto]. split; [auto | intros [H | (i & [] & _)]; exact H].
  - destruct (IH (setAdd s (f i)) x) as [Hin Hnd]. split.
    + rewrite Hin, setAdd_In. split.
      * intros [[H | ->] | (j & Hj & ->)]; eauto.
      * intros [H | (j & [<- | Hj] & ->)]; eauto.
    + intros Hs. apply Hnd, setAdd_NoDup, Hs.
Qed.

Lemma addPrefixes_spec (s : list string) (path x : string) :
  (In x (addPrefixes s path)
   <-> In x s
       \/ exists i, 1 <= i < depth path
                    /\ x = JS.join "/" (firstn i (JS.split path)))
  /\ (NoDup s -> NoDup (addPrefixes s path)).
Proof.
  unfold addPrefixes.
  destruct (fold_setAdd (fun i => JS.join "/" (firstn i (JS.split path)))
              (seq 1 (length (JS.split path) - 1)) s x) as [Hin Hnd].
  split; [| exact Hnd].
  rewrite Hin. pose proof (depth_positive path) as Hpos. unfold depth in *.
  split; (intros [H | (i & Hi & ->)]; [left; exact H | right; exists i]).
  - apply in_seq in Hi. split; [lia | reflexivity].
  - split; [apply in_seq; lia | reflexivity].
Qed.

Lemma allPrefixes_spec (files : list string) :
  forall s x,
    (In x (fold_left addPrefixes files s)
     <-> In x s
         \/ exists path i, In path files /\ 1 <= i < depth path
                           /\ x = JS.join "/" (firstn i (JS.split path)))
    /\ (NoDup s -> NoDup (fold_left addPrefixes files s)).
Proof.
  induction files as [| f files IH]; intros s x; cbn.
  - split; [| auto]. split; [auto | intros [H | (p & i & [] & _)]; exact H].
  - destruct (IH (addPrefixes s f) x) as [Hin Hnd].
    destruct (addPrefixes_spec s f x) as [Hin1 Hnd1]. split.
    + rewrite Hin, Hin1. split.
      * intros [[H | (i & Hi & ->)] | (p & i & Hp & Hi & ->)]; eauto 8.
      * intros [H | (p & i & [<- | Hp] & Hi & ->)]; eauto 8.
    + intros Hs. apply Hnd. apply (proj2 (addPrefixes_spec s f x)), Hs.
Qed.

(** Every folder that the configuration sync sets out to create
    is a proper ancestor of a configuration file for which reading
    [pathsToIds] gives nothing truthy, and its own parent is taken care
    of: the folder is at the top, or its parent is to be created too (one
    level up, hence in an earlier depth batch), or reading [pathsToIds]
    at the parent gives something truthy. *)
Theorem config_folder_has_its_parent :
  forall (index : JS.Obj string) (files : list string) (x : string),
    In x (configFolders index files) ->
    JS.isTruthy (JS.index index x) = false
    /\ (exists path i, In path files /\ 1 <= i < depth path
                       /\ x = JS.join "/" (firstn i (JS.split path)))
    /\ (depth x = 1
        \/ (In (parentPath x) (configFolders index files)
            /\ depth (parentPath x) = depth x - 1)
        \/ JS.isTruthy (JS.index index (parentPath x)) = true).
Proof.
  intros index files x Hx. unfold configFolders in *.
  apply filter_In in Hx. destruct Hx as [Hin Hfree].
  apply negb_true_iff in Hfree. split; [exact Hfree |].
  apply (proj1 (allPrefixes_spec files [] x)) in Hin.
  destruct Hin as [[] | (path & i & Hp & Hi & Ex)].
  split; [exists path, i; auto |].
  pose proof (split_segments path) as Hseg. unfold depth in Hi.
  assert (Hsplit : JS.split x = firstn i (JS.split path)).
  { subst x. apply depth_prefix; [exact Hseg | lia | lia]. }
  assert (Hdepth : depth x = i).
  { unfold depth. rewrite Hsplit, length_firstn. lia. }
  destruct (Nat.eq_dec i 1) as [-> | Hi1]; [left; exact Hdepth |].
  right.
  assert (Hparent : parentPath x
                    = JS.join "/" (firstn (i - 1) (JS.split path))).
  { unfold parentPath. rewrite Hsplit.
    replace i with (S (i - 1)) at 1 by lia.
    rewrite removelast_firstn by lia. reflexivity. }
  destruct (JS.isTruthy (JS.index index (parentPath x))) eqn:Et;
    [right; reflexivity | left].
  split.
  - apply filter_In. split; [| rewrite Et; reflexivity].
    apply (proj1 (allPrefixes_spec files [] (parentPath x))).
    right. exists path, (i - 1). unfold depth. repeat split; auto; lia.
  - pose proof (path_parts x) as (_ & _ & Hd & _).
    rewrite Hdepth in *.
    destruct (i =? 1)%nat eqn:Ei; [apply Nat.eqb_eq in Ei; lia | exact Hd].
Qed.

(** The set holds each folder once. *)
Lemma config_folders_NoDup (index : JS.Obj string) (files : list string) :
  NoDup (configFolders index files).
Proof.
  unfold configFolders. apply NoDup_filter.
  apply (proj2 (allPrefixes_spec files [] "")). constructor.
Qed.

Lemma configSync_uses_configFolders (fuel : nat) (env : Env) :
  ConfirmedPush.configSync fuel env
  = (w <- getWorld ;;
     match configFolders (pathsToIds w) (getConfigFilesToSync (helpers env))
     with
     | [] => ret tt
     | _ :: _ =>
         forEach (fun batch =>
                    batchAsyncs env
                      (map (ConfirmedPush.configFolderAction fuel env) batch))
           (foldersToBatches (fun folder => folder)
              (configFolders (pathsToIds w)
                 (getConfigFilesToSync (helpers env))))
     end ;;
     batchAsyncs env
       (map (ConfirmedPush.configFileAction fuel env)
          (getConfigFilesToSync (helpers env))) ;;
     w <- getWorld ;;
     time <- toISOString env ;;
     updateFile (drive env)
       (JS.index (pathsToIds w)
          (configDir (vault env) ++ "/plugins/google-drive-sync/data.json"))
       (mkBlob (stringify (helpers env) (settings w)) "")
       (stamped noMetadata time) ;;
     ret tt).
Proof. reflexivity. Qed.

Lemma config_folder_has_its_parent_witness :
  In ".obsidian/plugins"
    (configFolders [] [".obsidian/plugins/sync/data.json"])
  /\ In (parentPath ".obsidian/plugins")
       (configFolders [] [".obsidian/plugins/sync/data.json"]).
Proof.
  assert (H : In ".obsidian/plugins"
                (configFolders [] [".obsidian/plugins/sync/data.json"])).
  { vm_compute. auto. }
  split; [exact H |].
  destruct (config_folder_has_its_parent []
              [".obsidian/plugins/sync/data.json"] ".obsidian/plugins" H)
    as (_ & _ & [Hd | [[Hp _] | Ht]]).
  - vm_compute in Hd. discriminate.
  - exact Hp.
  - vm_compute in Ht. discriminate.
Defined.

(* ================================================================= *)
(** ** Objects *)

Lemma get_replace_same {V} (o : JS.Obj V) (k : string) (v : V) :
  JS.has o k = true -> JS.get (JS.replace o k v) k = Some v.
Proof.
  unfold JS.has. induction o as [| [k' v'] o IH]; cbn; [discriminate |].
  destruct (String.eqb k' k) eqn:E; cbn; rewrite E; auto.
Qed.

Lemma get_replace_other {V} (o : JS.Obj V) (k k' : string) (v : V) :
  k <> k' -> JS.get (JS.replace o k v) k' = JS.get o k'.
Proof.
  intros Hne. induction o as [| [k0 v0] o IH]; cbn; [reflexivity |].
  destruct (String.eqb k0 k) eqn:E; cbn.
  - apply String.eqb_eq in E. subst k0.
    apply String.eqb_neq in Hne. rewrite Hne. reflexivity.
  - destruct (String.eqb k0 k'); auto.
Qed.

Lemma get_insert_same {V} (o : JS.Obj V) (k : string) (v : V) :
  JS.has o k = false -> JS.get (JS.insert o k v) k = Some v.
Proof.
  unfold JS.has. induction o as [| [k' v'] o IH]; cbn.
  - rewrite String.eqb_refl. reflexivity.
  - destruct (String.eqb k' k) eqn:E; [discriminate |]. intros H.
    destruct (JS.before k k'); cbn.
    + rewrite String.eqb_refl. reflexivity.
    + rewrite E. auto.
Qed.

Lemma get_insert_other {V} (o : JS.Obj V) (k k' : string) (v : V) :
  k <> k' -> JS.get (JS.insert o k v) k' = JS.get o k'.
Proof.
  intros Hne. apply String.eqb_neq in Hne.
  induction o as [| [k0 v0] o IH]; cbn.
  - rewrite Hne. reflexivity.
  - destruct (JS.before k k0); cbn.
    + rewrite Hne. reflexivity.
    + destruct (String.eqb k0 k'); auto.
Qed.

Lemma get_define_same {V} (o : JS.Obj V) (k : string) (v : V) :
  JS.get (JS.define o k v) k = Some v.
Proof.
  unfold JS.define. destruct (JS.has o k) eqn:E.
  - apply get_replace_same. exact E.
  - apply get_insert_same. exact E.
Qed.

Lemma get_define_other {V} (o : JS.Obj V) (k k' : string) (v : V) :
  k <> k' -> JS.get (JS.define o k v) k' = JS.get o k'.
Proof.
  intros Hne. unfold JS.define. destruct (JS.has o k).
  - apply get_replace_other. exact Hne.
  - apply get_insert_other. exact Hne.
Qed.

(** An assignment is seen by a later read of the own property, unless
    the key is the accessor [__proto__]. *)
Lemma get_assign_same {V} (o : JS.Obj V) (k : string) (v : V) :
  k <> "__proto__" -> JS.get (JS.assign o k v) k = Some v.
Proof.
  intros Hne. unfold JS.assign. apply String.eqb_neq in Hne. rewrite Hne.
  apply get_define_same.
Qed.

Lemma get_assign_other {V} (o : JS.Obj V) (k k' : string) (v : V) :
  k <> k' -> JS.get (JS.assign o k v) k' = JS.get o k'.
Proof.
  intros Hne. unfold JS.assign.
  destruct (String.eqb k "__proto__" && negb (JS.has o k)); [reflexivity |].
  apply get_define_other. exact Hne.
Qed.

(** The last entry with the key [k], if any. *)
Lemma get_fold_define {V} (l : list (string * V)) :
  forall (o : JS.Obj V) (k : string),
    JS.get (fold_left (fun o kv => JS.define o (fst kv) (snd kv)) l o) k
    = match JS.get (rev l) k with
      | Some v => Some v
      | None => JS.get o k
      end.
Proof.
  induction l as [| [k0 v0] l IH]; intros o k; cbn [fold_left rev].
  - reflexivity.
  - rewrite IH. cbn [fst snd].
    assert (Hrev : JS.get (rev l ++ [(k0, v0)])%list k
                   = match JS.get (rev l) k with
                     | Some v => Some v
                     | None => if String.eqb k0 k then Some v0 else None
                     end).
    { generalize (rev l). intros r. induction r as [| [k1 v1] r IHr]; cbn.
      - reflexivity.
      - destruct (String.eqb k1 k); auto. }
    rewrite Hrev. destruct (JS.get (rev l) k); [reflexivity |].
    destruct (String.eqb k0 k) eqn:E.
    + apply String.eqb_eq in E. subst. apply get_define_same.
    + apply String.eqb_neq in E. apply get_define_other. exact E.
Qed.

Lemma get_fromEntries {V} (l : list (string * V)) (k : string) :
  JS.get (JS.fromEntries l) k = JS.get (rev l) k.
Proof.
  unfold JS.fromEntries. rewrite get_fold_define.
  destruct (JS.get (rev l) k); reflexivity.
Qed.

Lemma get_In {V} (l : JS.Obj V) (k : string) (v : V) :
  JS.get l k = Some v -> In (k, v) l.
Proof.
  induction l as [| [k0 v0] l IH]; cbn; [discriminate |].
  destruct (String.eqb k0 k) eqn:E.
  - apply String.eqb_eq in E. intros H. inversion H; subst. auto.
  - auto.
Qed.

Lemma get_unique {V} (l : JS.Obj V) (k : string) (v : V) :
  NoDup (map fst l) -> In (k, v) l -> JS.get l k = Some v.
Proof.
  induction l as [| [k0 v0] l IH]; cbn; [contradiction |].
  intros Hnd [H | H].
  - inversion H; subst. rewrite String.eqb_refl. reflexivity.
  - inversion Hnd as [| ? ? Hnot Hnd']; subst.
    destruct (String.eqb k0 k) eqn:E.
    + apply String.eqb_eq in E. subst k0. exfalso. apply Hnot.
      apply in_map_iff. exists (k, v). auto.
    + auto.
Qed.

Lemma get_None_In {V} (l : JS.Obj V) (k : string) :
  ~ In k (map fst l) -> JS.get l k = None.
Proof.
  intros Hnot. destruct (JS.get l k) as [v |] eqn:E; [| reflexivity].
  exfalso. apply Hnot. apply get_In in E. apply in_map_iff.
  exists (k, v). auto.
Qed.

Lemma get_delete_same {V} (o : JS.Obj V) (k : string) :
  JS.get (JS.delete o k) k = None.
Proof.
  induction o as [| [k' v] o IH]; [reflexivity |].
  unfold JS.delete in *. cbn.
  destruct (String.eqb k' k) eqn:E; cbn; [exact IH |].
  rewrite E. exact IH.
Qed.

Lemma get_delete_none {V} (o : JS.Obj V) (k k' : string) :
  JS.get o k' = None -> JS.get (JS.delete o k) k' = None.
Proof.
  induction o as [| [k0 v] o IH]; [reflexivity |].
  unfold JS.delete in *. cbn.
  destruct (String.eqb k0 k') eqn:E; [discriminate |].
  intros H. destruct (String.eqb k0 k); cbn; [auto |].
  rewrite E. auto.
Qed.

Lemma get_delete_other {V} (o : JS.Obj V) (k k' : string) :
  k <> k' -> JS.get (JS.delete o k) k' = JS.get o k'.
Proof.
  intros Hne. induction o as [| [k0 v] o IH]; [reflexivity |].
  unfold JS.delete in *. cbn.
  destruct (String.eqb k0 k) eqn:E; cbn.
  - apply String.eqb_eq in E. subst k0.
    apply String.eqb_neq in Hne. rewrite Hne. exact IH.
  - destruct (String.eqb k0 k'); [reflexivity | exact IH].
Qed.

(** Reading [o[k]] where the object has the own property. *)
Lemma index_own (o : JS.Obj string) (k v : string) :
  JS.get o k = Some v -> JS.index o k = JS.str v.
Proof. intros H. unfold JS.index. rewrite H. reflexivity. Qed.

(** Reading [o[k]] where it has not. *)
Lemma index_missing (o : JS.Obj string) (k : string) :
  JS.get o k = None ->
  JS.index o k
  = if existsb (String.eqb k) JS.prototype then JS.builtin k
    else JS.undefined.
Proof. intros H. unfold JS.index. rewrite H. reflexivity. Qed.

Lemma index_str (o : JS.Obj string) (k v : string) :
  JS.index o k = JS.str v -> JS.get o k = Some v.
Proof.
  unfold JS.index. destruct (JS.get o k) as [v' |].
  - intros H. inversion H. reflexivity.
  - destruct (existsb (String.eqb k) JS.prototype); discriminate.
Qed.

(** The index inverted, as [push] builds [pathsToIds] from
    [driveIdToPath] and reads it with [pathsToIds[path]]: the read gives
    an id only if the index maps that id to the path; for a path that the
    index does not hold it gives [undefined], unless the path is the name
    of a member of [Object.prototype], and then it gives that member,
    which is truthy; when no two ids share a path, every indexed path
    reads as its id; and when ids share a path, the last entry wins. *)
Theorem inverted_index_resolves_paths :
  forall (index : JS.Obj string),
    (forall path id,
        JS.index (JS.fromEntries (map swap index)) path = JS.str id ->
        In (id, path) index)
    /\ (forall path,
           ~ In path (map snd index) ->
           JS.index (JS.fromEntries (map swap index)) path
           = (if existsb (String.eqb path) JS.prototype
              then JS.builtin path else JS.undefined)
           /\ JS.isTruthy (JS.index (JS.fromEntries (map swap index)) path)
              = existsb (String.eqb path) JS.prototype)
    /\ (NoDup (map snd index) ->
        forall id path,
          In (id, path) index ->
          JS.index (JS.fromEntries (map swap index)) path = JS.str id)
    /\ (forall id path,
           JS.index (JS.fromEntries (map swap (index ++ [(id, path)])%list))
             path = JS.str id).
Proof.
  intros index. split; [| split; [| split]].
  4:{ intros id path. apply index_own.
      rewrite get_fromEntries, map_app, rev_app_distr.
      cbn. rewrite String.eqb_refl. reflexivity. }
  - intros path id H. apply index_str in H.
    rewrite get_fromEntries in H. apply get_In in H.
    apply in_rev in H. apply in_map_iff in H.
    destruct H as ([i p] & E & Hin). inversion E; subst. exact Hin.
  - intros path Hnot.
    assert (E : JS.get (JS.fromEntries (map swap index)) path = None).
    { rewrite get_fromEntries. apply get_None_In.
      rewrite map_rev, map_map. cbn. intros H. apply in_rev in H.
      exact (Hnot H). }
    rewrite (index_missing _ _ E).
    split; [reflexivity |].
    destruct (existsb (String.eqb path) JS.prototype); reflexivity.
  - intros Hnd id path Hin. apply index_own.
    rewrite get_fromEntries. apply get_unique.
    + rewrite map_rev, map_map. cbn. apply NoDup_rev. exact Hnd.
    + apply -> in_rev. apply in_map_iff. exists (id, path). auto.
Qed.

(** [fileListToMap] maps a name to the id of the last file of that
    name in the list, and holds no other name. *)
Theorem fileListToMap_last_file_wins :
  forall (files : list FileMetadata) (n : string),
    JS.get (fileListToMap files) n
    = option_map id (find (fun f => String.eqb (name f) n) (rev files)).
Proof.
  intros files n. unfold fileListToMap.
  rewrite get_fromEntries, <- map_rev.
  generalize (rev files). intros l.
  induction l as [| f l IH]; cbn; [reflexivity |].
  destruct (String.eqb (name f) n); [reflexivity | exact IH].
Qed.


(* ================================================================= *)
(** ** Percent-encoding *)

Lemma hex_digit_unreserved (n : nat) : JS.unreserved (JS.hex_digit n) = true.
Proof. do 16 (destruct n as [| n]; [reflexivity |]). reflexivity. Qed.

Lemma encode_alphabet (s : string) :
  Forall (fun c => JS.unreserved c = true \/ c = "%"%char)
    (chars (JS.encodeURIComponent s)).
Proof.
  unfold chars. induction s as [| c s IH]; cbn; [constructor |].
  destruct (JS.unreserved c) eqn:E; cbn.
  - constructor; auto.
  - constructor; [right; reflexivity |].
    constructor; [left; apply hex_digit_unreserved |].
    constructor; [left; apply hex_digit_unreserved | exact IH].
Qed.

(** The query that [getQuery] hands to the URL is made of unreserved
    characters and percent signs only: whatever the names, paths and
    property values in the matches, it holds no ampersand, equals sign,
    space, quotation mark, slash, question mark, hash or plus that could
    end or alter the [q] parameter. *)
Theorem getQuery_is_url_safe :
  forall (matches : list QueryMatch) (c : ascii),
    In c (chars (getQuery matches)) ->
    (JS.unreserved c = true \/ c = "%"%char)
    /\ ~ In c ["&"; "="; " "; "/"; "?"; "#"; "+"; ascii_of_nat 34]%char.
Proof.
  intros matches c Hc.
  pose proof (encode_alphabet (rawQuery matches)) as H.
  rewrite Forall_forall in H. specialize (H c Hc). split; [exact H |].
  intros Hin. destruct H as [H | ->].
  - cbn in Hin.
    repeat (destruct Hin as [<- | Hin]; [vm_compute in H; discriminate |]).
    exact Hin.
  - cbn in Hin.
    repeat (destruct Hin as [E | Hin]; [discriminate |]). exact Hin.
Qed.

Lemma getQuery_is_url_safe_witness :
  In "%"%char (chars (getQuery [[Fname (One (Exact "a&b=c"))]]))
  /\ ~ In "&"%char (chars (getQuery [[Fname (One (Exact "a&b=c"))]])).
Proof.
  assert (H : In "%"%char
                (chars (getQuery [[Fname (One (Exact "a&b=c"))]]))).
  { vm_compute. auto 10. }
  split; [exact H |].
  intros Hamp.
  destruct (getQuery_is_url_safe [[Fname (One (Exact "a&b=c"))]] "&"%char
              Hamp) as [_ Hnot].
  apply Hnot. cbn. auto.
Defined.

(* ================================================================= *)
(** ** The remote query *)







(* ================================================================= *)
(** ** Paginated search *)

Lemma searchLoop_serves (pages : list Page) :
  forall (fuel : nat) (drive : KyInstance) (data : ListData)
         (acc : list FileMetadata) (token : option string) (w : World)
         (e : Ending),
    JS.truthy token = true ->
    serves drive data (trace w) token pages e ->
    length pages + (match e with Exhausted => 0 | Failed => 1 end) <= fuel ->
    fst (searchLoop fuel drive data acc token w)
    = Val (match e with
           | Exhausted => Some (acc ++ allFiles pages)%list
           | Failed => None
           end)
    /\ (e = Exhausted ->
        trace (snd (searchLoop fuel drive data acc token w))
        = (trace w ++ pageRequests data token pages)%list).
Proof.
  induction pages as [| p rest IH];
    intros fuel drive data acc token w e Ht Hs Hf.
  - cbn in Hs. destruct Hs as [-> Hnone]. cbn in Hf.
    destruct fuel as [| fuel]; [lia |].
    cbn. rewrite Ht. unfold bind, paginateFiles, request. cbn.
    rewrite Hnone. cbn. split; [reflexivity | discriminate].
  - cbn in Hs. destruct Hs as [Hp Hnext]. cbn in Hf.
    destruct fuel as [| fuel]; [lia |].
    cbn [searchLoop]. rewrite Ht. unfold bind, paginateFiles, request.
    cbn [fst snd]. rewrite Hp.
    destruct (JS.truthy (nextPageToken p)) eqn:Hn.
    + match goal with
      | |- context [searchLoop fuel drive data ?a ?t ?w'] =>
          destruct (IH fuel drive data a t w' e Hn Hnext ltac:(lia))
            as [Hv Htr]
      end.
      rewrite Hv. split.
      * destruct e; [| reflexivity].
        unfold allFiles. cbn. rewrite app_assoc. reflexivity.
      * intros He. rewrite (Htr He). cbn. rewrite <- app_assoc. reflexivity.
    + destruct Hnext as [-> ->].
      destruct fuel; cbn; rewrite Hn; cbn; unfold allFiles; cbn;
        rewrite app_nil_r; split; reflexivity.
Qed.

(** C5, as amended.  When the remote serves a listing over several
    pages, [searchFiles] follows the continuation token until it is used
    up and returns the pages concatenated in the order served, each
    entry once, from which, unless [includeObsidian] is set, the entries
    marked as the vault root are removed; it sends one request per page
    and no other.  When a page request fails it returns the absent value,
    not the pages read so far. *)
Theorem searchFiles_concatenates_pages :
  forall (fuel : nat) (drive : KyInstance) (data : ListData)
         (includeObsidian : bool) (w : World) (pages : list Page)
         (e : Ending),
    serves drive data (trace w) None pages e ->
    length pages + (match e with Exhausted => 0 | Failed => 1 end)
    <= S fuel ->
    fst (searchFiles fuel drive data includeObsidian w)
    = Val (match e with
           | Exhausted => Some (visible includeObsidian (allFiles pages))
           | Failed => None
           end)
    /\ (e = Exhausted ->
        trace (snd (searchFiles fuel drive data includeObsidian w))
        = (trace w ++ pageRequests data None pages)%list).
Proof.
  intros fuel drive data inc w pages e Hs Hf.
  unfold searchFiles, bind, paginateFiles, request. cbn [fst snd].
  destruct pages as [| p rest].
  - cbn in Hs. destruct Hs as [-> Hnone]. rewrite Hnone. cbn.
    split; [reflexivity | discriminate].
  - cbn [serves] in Hs. destruct Hs as [Hp Hnext]. rewrite Hp.
    destruct (JS.truthy (nextPageToken p)) eqn:Hn.
    + match goal with
      | |- context [searchLoop fuel drive data ?a ?t ?w'] =>
          destruct (searchLoop_serves rest fuel drive data a t w' e Hn Hnext
                      ltac:(cbn in Hf; lia)) as [Hv Htr];
          destruct (searchLoop fuel drive data a t w') as [r w2] eqn:Hrun
      end.
      cbn [fst snd] in Hv, Htr. subst r. split.
      * destruct e; [| reflexivity].
        unfold visible, allFiles. cbn. destruct inc; reflexivity.
      * intros He. destruct e; [| discriminate].
        destruct inc; cbn; rewrite (Htr eq_refl); cbn;
          rewrite <- app_assoc; reflexivity.
    + destruct Hnext as [-> ->].
      assert (Hl : forall a w0,
                 searchLoop fuel drive data a (nextPageToken p) w0
                 = (Val (Some a), w0)).
      { intros a w0. destruct fuel; cbn; rewrite Hn; reflexivity. }
      rewrite Hl. unfold visible, allFiles. cbn. rewrite app_nil_r.
      destruct inc; cbn; split; reflexivity.
Qed.

Lemma searchFiles_concatenates_pages_witness :
  serves Scenario.threePages Scenario.everything [] None
    [Scenario.page1; Scenario.page2; Scenario.page3] Exhausted
  /\ fst (searchFiles 2 Scenario.threePages Scenario.everything true
            (Scenario.start (mkSettings [] [])))
     = Val (Some (allFiles [Scenario.page1; Scenario.page2; Scenario.page3])).
Proof.
  assert (H : serves Scenario.threePages Scenario.everything
                (trace (Scenario.start (mkSettings [] []))) None
                [Scenario.page1; Scenario.page2; Scenario.page3] Exhausted).
  { vm_compute. repeat split. }
  split; [exact H |].
  apply (searchFiles_concatenates_pages 2 Scenario.threePages
           Scenario.everything true (Scenario.start (mkSettings [] []))
           [Scenario.page1; Scenario.page2; Scenario.page3] Exhausted H).
  cbn. lia.
Defined.

(** C5 as it was stated fails: with the default [includeObsidian], an
    entry of the first page, the vault root, is missing from the result
    of a listing that was read to its end. *)
Lemma searchFiles_omits_vault_root :
  serves Scenario.threePages Scenario.everything [] None
    [Scenario.page1; Scenario.page2; Scenario.page3] Exhausted
  /\ fst (searchFiles 2 Scenario.threePages Scenario.everything false
            (Scenario.start (mkSettings [] [])))
     <> Val (Some (allFiles [Scenario.page1; Scenario.page2; Scenario.page3]))
  /\ In Scenario.rootFile
       (allFiles [Scenario.page1; Scenario.page2; Scenario.page3]).
Proof.
  split; [vm_compute; repeat split |].
  split; [vm_compute; discriminate | vm_compute; auto].
Qed.

(** A failed third page leaves nothing of the first two. *)
Lemma searchFiles_no_partial_list :
  fst (searchFiles 2 Scenario.brokenThird Scenario.everything true
         (Scenario.start (mkSettings [] [])))
  = Val None.
Proof. vm_compute. reflexivity. Qed.

(* ================================================================= *)
(** ** Resolving paths to ids *)

Lemma mapM_idAndPath (fs : list FileMetadata) (w : World) :
  mapM idAndPath fs w
  = (if forallb hasProperties fs then Val (map idPath fs)
     else Throw TypeError, w).
Proof.
  induction fs as [| f fs IH]; [reflexivity |].
  cbn [mapM forallb map]. unfold bind.
  unfold idAndPath at 1, hasProperties at 1, idPath at 1.
  destruct (properties f) as [p |]; cbn; [| reflexivity].
  rewrite IH. destruct (forallb hasProperties fs); reflexivity.
Qed.

Lemma idsFromPaths_of_search (fuel : nat) (drive : KyInstance)
    (paths : list string) (w : World) :
  fst (idsFromPaths fuel drive paths w)
  = match fst (searchFiles fuel drive (pathMatches paths) false w) with
    | Val (Some found) =>
        if forallb hasProperties found then Val (Some (map idPath found))
        else Throw TypeError
    | Val None => Val None
    | Throw e => Throw e
    | Diverge => Diverge
    end.
Proof.
  unfold idsFromPaths, bind.
  destruct (searchFiles fuel drive (pathMatches paths) false w)
    as [[[found |] | e |] w']; cbn; try reflexivity.
  rewrite mapM_idAndPath.
  destruct (forallb hasProperties found); reflexivity.
Qed.

(** C9.  [idsFromPaths] returns the absent value exactly when the search
    it runs does.  Otherwise its result is read off the objects found,
    one entry per object, whatever paths were asked for: a path that
    matches no remote object is left out and no failure is signalled, so
    the result can be shorter than the list of paths. *)
Theorem idsFromPaths_absent_only_when_search_fails :
  (forall (fuel : nat) (drive : KyInstance) (paths : list string) (w : World),
      (fst (idsFromPaths fuel drive paths w) = Val None
       <-> fst (searchFiles fuel drive (pathMatches paths) false w)
           = Val None)
      /\ match fst (searchFiles fuel drive (pathMatches paths) false w) with
         | Val (Some found) =>
             fst (idsFromPaths fuel drive paths w)
             = if forallb hasProperties found
               then Val (Some (map idPath found))
               else Throw TypeError
         | _ => True
         end)
  /\ fst (idsFromPaths 0
            (Scenario.listing [Scenario.remoteFile "ID_A" "a.md"])
            ["a.md"; "b.md"] (Scenario.start (mkSettings [] [])))
     = Val (Some [("ID_A", Some "a.md")]).
Proof.
  split; [| vm_compute; reflexivity].
  intros fuel drive paths w.
  rewrite idsFromPaths_of_search.
  destruct (fst (searchFiles fuel drive (pathMatches paths) false w))
    as [[found |] | e |]; split; try reflexivity; try tauto;
    try (split; discriminate).
  destruct (forallb hasProperties found); split; discriminate.
Qed.

(* ================================================================= *)
(** ** The vault root as the default parent *)

(** C10, as amended.  When [createFolder] or [uploadFile] is called
    without a parent id, it resolves the vault root: it searches for the
    object whose properties say [obsidian = vault], takes the id of the
    first one found, or, when none is found, creates a folder named
    Obsidian carrying that property and takes its id.  When that id is
    absent or empty the call returns the absent value without sending a
    request of its own.  Otherwise it sends its request with that id as
    the only parent and returns what the request returns, which is the
    absent value when the request itself fails. *)
Theorem no_parent_targets_vault_root :
  forall (fuel : nat) (drive : KyInstance) (w : World) (a : FolderArgs)
         (file : Blob) (name : string) (parent : JS.Value)
         (metadata : Metadata),
    JS.isTruthy (a_parent a) = false ->
    JS.isTruthy parent = false ->
    getRootFolderId fuel drive w
    = match searchFiles fuel drive vaultMatch true w with
      | (Val (Some (root :: _)), w') => (Val (Some (id root)), w')
      | (Val (Some []), w') =>
          (Val (post_files drive (trace w') rootFolderJson),
           sent (POST_files rootFolderJson) w')
      | (Val None, w') => (Val None, w')
      | (Throw e, w') => (Throw e, w')
      | (Diverge, w') => (Diverge, w')
      end
    /\ rawQuery [[Fproperties [("obsidian", "vault")]]]
       = "((properties has { key='obsidian' and value='vault' }))"
         ++ " and trashed=false"
    /\ rootFolderJson
       = mkFileJson "Obsidian" folderMimeType None None
           (Some [("obsidian", "vault")])
    /\ createFolder fuel drive a w
       = match getRootFolderId fuel drive w with
         | (Val root, w') =>
             match JS.nonEmpty root with
             | Some r =>
                 (Val (post_files drive (trace w')
                         (folderJson a (JS.str r))),
                  sent (POST_files (folderJson a (JS.str r))) w')
             | None => (Val None, w')
             end
         | (Throw e, w') => (Throw e, w')
         | (Diverge, w') => (Diverge, w')
         end
    /\ uploadFile fuel drive file name parent metadata w
       = match getRootFolderId fuel drive w with
         | (Val root, w') =>
             match JS.nonEmpty root with
             | Some r =>
                 (Val (post_upload drive (trace w')
                         (uploadJson file name (JS.str r) metadata) file),
                  sent (POST_upload
                          (uploadJson file name (JS.str r) metadata) file)
                    w')
             | None => (Val None, w')
             end
         | (Throw e, w') => (Throw e, w')
         | (Diverge, w') => (Diverge, w')
         end
    /\ (forall r, j_parents (folderJson a r) = Some [r])
    /\ (forall r, u_parents (uploadJson file name r metadata) = [r]).
Proof.
  intros fuel drive w a file name parent metadata Ha Hp.
  repeat split.
  - unfold getRootFolderId, bind.
    destruct (searchFiles fuel drive vaultMatch true w)
      as [[[[| root found] |] | e |] w']; reflexivity.
  - unfold createFolder. rewrite Ha. unfold bind.
    destruct (getRootFolderId fuel drive w) as [[root | e |] w'];
      try reflexivity.
    destruct (JS.nonEmpty root); reflexivity.
  - unfold uploadFile. rewrite Hp. unfold bind.
    destruct (getRootFolderId fuel drive w) as [[root | e |] w'];
      try reflexivity.
    destruct (JS.nonEmpty root); reflexivity.
Qed.

Lemma no_parent_targets_vault_root_witness :
  JS.isTruthy (a_parent Scenario.orphanFolder) = false
  /\ createFolder 1 (Scenario.listing [Scenario.rootFile])
       Scenario.orphanFolder (Scenario.start (mkSettings [] []))
     = (Val (Some "folder1"),
        sent (POST_files (folderJson Scenario.orphanFolder (JS.str "ROOT")))
          (sent (GET_files (listUrl vaultMatch None (Some 1000)))
             (Scenario.start (mkSettings [] [])))).
Proof.
  split; [reflexivity |].
  destruct (no_parent_targets_vault_root 1
              (Scenario.listing [Scenario.rootFile])
              (Scenario.start (mkSettings [] [])) Scenario.orphanFolder
              (mkBlob "" "") "" JS.undefined noMetadata eq_refl eq_refl)
    as (_ & _ & _ & H & _).
  rewrite H. vm_compute. reflexivity.
Defined.

(** C10 as it was stated fails: the vault root is found, so the root
    resolution succeeds, and still both calls return the absent value,
    because the remote refuses the creation itself. *)
Lemma absent_although_root_resolved :
  fst (getRootFolderId 1 Scenario.refusing
         (Scenario.start (mkSettings [] [])))
  = Val (Some "ROOT")
  /\ fst (createFolder 1 Scenario.refusing Scenario.orphanFolder
            (Scenario.start (mkSettings [] [])))
     = Val None
  /\ fst (uploadFile 1 Scenario.refusing (mkBlob "text" "") "a.md"
            JS.undefined noMetadata (Scenario.start (mkSettings [] [])))
     = Val None.
Proof. repeat split; vm_compute; reflexivity. Qed.

(* ================================================================= *)
(** ** Searching never writes *)

Lemma onlyListed_refl (w : World) : onlyListed w w.
Proof.
  repeat split. exists []. split; [symmetry; apply app_nil_r | constructor].
Qed.

Lemma onlyListed_trans (a b c : World) :
  onlyListed a b -> onlyListed b c -> onlyListed a c.
Proof.
  intros (S1 & L1 & N1 & g1 & T1 & G1) (S2 & L2 & N2 & g2 & T2 & G2).
  repeat split; try congruence.
  exists (g1 ++ g2)%list. split.
  - rewrite T2, T1, app_assoc. reflexivity.
  - apply Forall_app. split; assumption.
Qed.

Lemma listed_paginateFiles drive data token pageSize :
  respects onlyListed (paginateFiles drive data token pageSize).
Proof.
  intros w. cbn. repeat split. eexists. split; [reflexivity |].
  repeat constructor.
Qed.

Lemma listed_searchLoop fuel drive data :
  forall acc token, respects onlyListed (searchLoop fuel drive data acc token).
Proof.
  induction fuel as [| fuel IH]; intros acc token; cbn;
    destruct (JS.truthy token);
    try (apply respects_ret, onlyListed_refl);
    try (apply respects_diverge, onlyListed_refl).
  apply respects_bind;
    [apply onlyListed_trans | apply listed_paginateFiles | intros [p |]].
  - apply IH.
  - apply respects_ret, onlyListed_refl.
Qed.

Lemma listed_searchFiles fuel drive data includeObsidian :
  respects onlyListed (searchFiles fuel drive data includeObsidian).
Proof.
  unfold searchFiles.
  apply respects_bind;
    [apply onlyListed_trans | apply listed_paginateFiles | intros [p |]].
  - apply respects_bind;
      [apply onlyListed_trans | apply listed_searchLoop | intros [l |]].
    + destruct includeObsidian; apply respects_ret, onlyListed_refl.
    + apply respects_ret, onlyListed_refl.
  - apply respects_ret, onlyListed_refl.
Qed.

Lemma listed_idsFromPaths fuel drive paths :
  respects onlyListed (idsFromPaths fuel drive paths).
Proof.
  unfold idsFromPaths.
  apply respects_bind;
    [apply onlyListed_trans | apply listed_searchFiles | intros [fs |]].
  - intros w. unfold bind. rewrite mapM_idAndPath.
    destruct (forallb hasProperties fs); apply onlyListed_refl.
  - apply respects_ret, onlyListed_refl.
Qed.


(** [searchFiles] only reads: however it ends (a list, a failure, the
    page budget used up), it has sent listing requests and nothing
    else, the first of them without a page token, and has left the
    settings, the lock and the notices as they were.  Whether the vault
    root is kept in the result does not change what is requested. *)
Theorem searchFiles_only_lists :
  forall (fuel : nat) (drive : KyInstance) (data : ListData)
         (includeObsidian : bool) (w : World),
    settings (snd (searchFiles fuel drive data includeObsidian w))
    = settings w
    /\ syncing (snd (searchFiles fuel drive data includeObsidian w))
       = syncing w
    /\ notices (snd (searchFiles fuel drive data includeObsidian w))
       = notices w
    /\ (exists more,
           trace (snd (searchFiles fuel drive data includeObsidian w))
           = (trace w ++ GET_files (listUrl data None (Some 1000)) :: more)%list
           /\ Forall isGET more)
    /\ snd (searchFiles fuel drive data includeObsidian w)
       = snd (searchFiles fuel drive data (negb includeObsidian) w).
Proof.
  intros fuel drive data inc w.
  assert (Hsame : forall b,
             snd (searchFiles fuel drive data b w)
             = snd (searchFiles fuel drive data true w)).
  { intros b. unfold searchFiles, bind.
    destruct (paginateFiles drive data None (Some 1000) w)
      as [[[p |] | e |] w0]; try reflexivity.
    destruct (searchLoop fuel drive data (files p) (nextPageToken p) w0)
      as [[[l |] | e |] w1]; destruct b; reflexivity. }
  rewrite (Hsame inc), (Hsame (negb inc)).
  unfold searchFiles, bind, paginateFiles, request. cbn [fst snd].
  destruct (get_files drive (trace w) (listUrl data None (Some 1000)))
    as [p |].
  - match goal with
    | |- context [searchLoop fuel drive data ?a ?t ?w0] =>
        pose proof (listed_searchLoop fuel drive data a t w0)
          as (Hs & Hl & Hn & gets & Ht & Hg);
        destruct (searchLoop fuel drive data a t w0) as [[[l |] | e |] w1]
    end;
      cbn in *;
      (split; [exact Hs | split; [exact Hl | split; [exact Hn | split]]];
       [ exists gets; split; [| exact Hg];
         rewrite Ht; cbn; rewrite <- app_assoc; reflexivity
       | reflexivity ]).
  - cbn. repeat split. exists []. split; [reflexivity | constructor].
Qed.

Lemma searchLoop_never_throws (fuel : nat) (drive : KyInstance)
    (data : ListData) :
  forall acc token w e,
    fst (searchLoop fuel drive data acc token w) <> Throw e.
Proof.
  induction fuel as [| fuel IH]; intros acc token w e; cbn;
    destruct (JS.truthy token); try discriminate.
  unfold bind, paginateFiles, request. cbn [fst snd].
  destruct (get_files drive (trace w) (listUrl data token (Some 1000)));
    [apply IH | discriminate].
Qed.

Lemma searchFiles_never_throws (fuel : nat) (drive : KyInstance)
    (data : ListData) (includeObsidian : bool) (w : World) (e : Exn) :
  fst (searchFiles fuel drive data includeObsidian w) <> Throw e.
Proof.
  unfold searchFiles, bind, paginateFiles, request. cbn [fst snd].
  destruct (get_files drive (trace w) (listUrl data None (Some 1000)))
    as [p |]; [| discriminate].
  match goal with
  | |- context [searchLoop fuel drive data ?a ?t ?w0] =>
      pose proof (searchLoop_never_throws fuel drive data a t w0 e) as H;
      destruct (searchLoop fuel drive data a t w0) as [[[l |] | e' |] w1]
  end; cbn in *; try discriminate; [destruct includeObsidian |];
    try discriminate.
  exact H.
Qed.

(** [idFromPath] asks what [idsFromPaths] asks for the one path and
    returns the id of the first object found; it returns the absent value
    both when the search fails and when nothing is found, which its
    caller cannot tell apart, and it does not read the properties of
    what is found, so it does not throw where [idsFromPaths] does. *)
Theorem idFromPath_is_first_of_idsFromPaths :
  forall (fuel : nat) (drive : KyInstance) (path : string) (w : World),
    snd (idFromPath fuel drive path w) = snd (idsFromPaths fuel drive [path] w)
    /\ match fst (idsFromPaths fuel drive [path] w) with
       | Val (Some ((i, _) :: _)) =>
           fst (idFromPath fuel drive path w) = Val (Some i)
       | Val (Some []) | Val None =>
           fst (idFromPath fuel drive path w) = Val None
       | Throw _ =>
           exists f found,
             fst (searchFiles fuel drive (pathMatches [path]) false w)
             = Val (Some (f :: found))
             /\ fst (idFromPath fuel drive path w) = Val (Some (id f))
       | Diverge => fst (idFromPath fuel drive path w) = Diverge
       end.
Proof.
  intros fuel drive path w.
  unfold idFromPath, idsFromPaths, bind.
  destruct (searchFiles fuel drive (pathMatches [path]) false w)
    as [[[found |] | e |] w1] eqn:Es; cbn [fst snd]; auto.
  - rewrite mapM_idAndPath.
    destruct found as [| f found]; [cbn; auto |].
    cbn [forallb map].
    destruct (forallb hasProperties found);
      unfold hasProperties, idPath; destruct (properties f); cbn;
      (split; [reflexivity |]); try reflexivity; exists f, found; auto.
  - cbn. auto.
  - exfalso.
    apply (searchFiles_never_throws fuel drive (pathMatches [path]) false w e).
    rewrite Es. reflexivity.
Qed.

(* ================================================================= *)
(** ** Resolving the vault root *)

(** [getRootFolderId] creates the vault root at most once, and only
    after a search that succeeded and found none: when a root is
    listed, or when the search fails, it sends listing requests only.
    It never changes the settings. *)
Theorem root_created_only_when_none_found :
  forall (fuel : nat) (drive : KyInstance) (w : World),
    settings (snd (getRootFolderId fuel drive w)) = settings w
    /\ exists gets,
         Forall isGET gets
         /\ (trace (snd (getRootFolderId fuel drive w))
             = (trace w ++ gets)%list
             \/ (trace (snd (getRootFolderId fuel drive w))
                 = (trace w ++ gets ++ [POST_files rootFolderJson])%list
                 /\ fst (searchFiles fuel drive vaultMatch true w)
                    = Val (Some []))).
Proof.
  intros fuel drive w. unfold getRootFolderId, bind.
  pose proof (listed_searchFiles fuel drive vaultMatch true w)
    as (Hs & _ & _ & gets & Ht & Hg).
  destruct (searchFiles fuel drive vaultMatch true w)
    as [[[[| root found] |] | e |] w1]; cbn [fst snd] in *;
    (split; [exact Hs | exists gets; split; [exact Hg |]]); auto.
  right. split; [| reflexivity]. cbn. rewrite Ht, app_assoc. reflexivity.
Qed.

(* ================================================================= *)
(** ** The grouped delete *)

Lemma deleteParts_nth (ids : list JS.Value) :
  forall (index k : nat),
    nth_error (deleteParts index ids) k
    = option_map
        (fun fileId =>
           ("request_" ++ JS.of_nat (index + k + 1), deleteRequest fileId))
        (nth_error ids k).
Proof.
  induction ids as [| fileId ids IH]; intros index k.
  - destruct k; reflexivity.
  - destruct k as [| k]; cbn [deleteParts nth_error option_map].
    + rewrite Nat.add_0_r. reflexivity.
    + rewrite IH. replace (S index + k + 1) with (index + S k + 1) by lia.
      reflexivity.
Qed.

Lemma deleteParts_length (ids : list JS.Value) (index : nat) :
  length (deleteParts index ids) = length ids.
Proof.
  revert index. induction ids as [| i ids IH]; intros index; cbn; auto.
Qed.

(** [batchDelete] sends exactly one request whatever the number of ids,
    none included.  Its body has one part per id, in the order of the
    ids, the part of the [k]-th id (counting from zero) being named
    [request_(k+1)] and asking to delete that id, where an undefined id
    is written as the word itself, followed by the closing boundary.  The
    result is absent exactly when the answer is empty. *)
Theorem batchDelete_one_request_one_part_per_id :
  forall (drive : KyInstance) (ids : list JS.Value) (w : World),
    snd (batchDelete drive ids w) = sent (POST_batch (batchBody ids)) w
    /\ length (batchBody ids) = length ids + 1
    /\ (forall k,
           nth_error (batchBody ids) k
           = if k <? length ids
             then option_map
                    (fun fileId =>
                       ("request_" ++ JS.of_nat (k + 1),
                        deleteRequest fileId))
                    (nth_error ids k)
             else if k =? length ids then Some ("", "--batch_boundary--")
                  else None)%nat
    /\ (fst (batchDelete drive ids w) = Val None
        <-> post_batch drive (trace w) (batchBody ids) = "")
    /\ deleteRequest JS.undefined
       = JS.join crlf
           ["--batch_boundary"; "Content-Type: application/http"; "";
            "DELETE /drive/v3/files/undefined HTTP/1.1"; ""; ""].
Proof.
  intros drive ids w. split; [| split; [| split; [| split]]].
  - unfold batchDelete, bind, request. cbn.
    destruct (String.eqb _ ""); reflexivity.
  - unfold batchBody. rewrite length_app, deleteParts_length. reflexivity.
  - intros k. unfold batchBody.
    destruct (k <? length ids)%nat eqn:Ek.
    + apply Nat.ltb_lt in Ek.
      rewrite nth_error_app1 by (rewrite deleteParts_length; exact Ek).
      rewrite deleteParts_nth. reflexivity.
    + apply Nat.ltb_ge in Ek.
      rewrite nth_error_app2 by (rewrite deleteParts_length; exact Ek).
      rewrite deleteParts_length.
      destruct (k =? length ids)%nat eqn:Ee.
      * apply Nat.eqb_eq in Ee. subst k. rewrite Nat.sub_diag. reflexivity.
      * apply Nat.eqb_neq in Ee.
        destruct (k - length ids) as [| [| n]] eqn:Ed; try reflexivity.
        lia.
  - unfold batchDelete, bind, request. cbn.
    destruct (String.eqb _ "") eqn:E; cbn.
    + apply String.eqb_eq in E. split; auto.
    + apply String.eqb_neq in E. split; [discriminate | contradiction].
  - reflexivity.
Qed.

(* ================================================================= *)
(** ** Parts of the world that the phases never write *)

Section Kept.

Variable X : Type.
Variable proj : World -> X.

Hypothesis kept_sent : forall c w, proj (sent c w) = proj w.
Hypothesis kept_Notice : forall text w, proj (snd (Notice text w)) = proj w.
Hypothesis kept_setMessage :
  forall text w, proj (snd (setMessage text w)) = proj w.
Hypothesis kept_setPathsToIds :
  forall o w, proj (snd (setPathsToIds o w)) = proj w.
Hypothesis kept_setCompleted :
  forall n w, proj (snd (setCompleted n w)) = proj w.
Hypothesis kept_setDriveIdToPath :
  forall o w, proj (snd (setDriveIdToPath o w)) = proj w.

Lemma keeps_refl (w : World) : keeps proj w w.
Proof. reflexivity. Qed.

Lemma keeps_trans (a b c : World) :
  keeps proj a b -> keeps proj b c -> keeps proj a c.
Proof. unfold keeps. congruence. Qed.

Lemma kept_ret {A} (a : A) : respects (keeps proj) (ret a).
Proof. apply respects_ret, keeps_refl. Qed.

Lemma kept_throw {A} (e : Exn) : respects (keeps proj) (@throw A e).
Proof. apply respects_throw, keeps_refl. Qed.

Lemma kept_diverge {A} : respects (keeps proj) (@diverge A).
Proof. apply respects_diverge, keeps_refl. Qed.

Lemma kept_getWorld : respects (keeps proj) getWorld.
Proof. apply respects_getWorld, keeps_refl. Qed.

Lemma kept_toISOString (env : Env) : respects (keeps proj) (toISOString env).
Proof. intros w. reflexivity. Qed.

Lemma kept_bind {A B} (c : M A) (k : A -> M B) :
  respects (keeps proj) c -> (forall a, respects (keeps proj) (k a)) ->
  respects (keeps proj) (bind c k).
Proof. apply respects_bind, keeps_trans. Qed.

Lemma kept_request {A} (c : Call) (answer : list Call -> A) :
  respects (keeps proj) (request c answer).
Proof. intros w. apply kept_sent. Qed.

Lemma kept_notice (text : string) : respects (keeps proj) (Notice text).
Proof. intros w. apply kept_Notice. Qed.

Lemma kept_message (text : string) : respects (keeps proj) (setMessage text).
Proof. intros w. apply kept_setMessage. Qed.

Lemma kept_paths (o : JS.Obj string) :
  respects (keeps proj) (setPathsToIds o).
Proof. intros w. apply kept_setPathsToIds. Qed.

Lemma kept_completed (n : nat) : respects (keeps proj) (setCompleted n).
Proof. intros w. apply kept_setCompleted. Qed.

Lemma kept_index (o : JS.Obj string) :
  respects (keeps proj) (setDriveIdToPath o).
Proof. intros w. apply kept_setDriveIdToPath. Qed.

Lemma kept_forEach {A} (f : A -> M unit) (l : list A) :
  (forall x, respects (keeps proj) (f x)) ->
  respects (keeps proj) (forEach f l).
Proof.
  intros H. apply respects_forEach; [apply keeps_refl | apply keeps_trans |].
  apply Forall_forall. auto.
Qed.

Lemma kept_mapM {A B} (f : A -> M B) (l : list A) :
  (forall x, respects (keeps proj) (f x)) ->
  respects (keeps proj) (mapM f l).
Proof.
  intros H. apply respects_mapM; [apply keeps_refl | apply keeps_trans |].
  apply Forall_forall. auto.
Qed.

Lemma kept_filterM {A} (f : A -> M bool) (l : list A) :
  (forall x, respects (keeps proj) (f x)) ->
  respects (keeps proj) (filterM f l).
Proof.
  intros H. apply respects_filterM; [apply keeps_refl | apply keeps_trans |].
  apply Forall_forall. auto.
Qed.

Lemma kept_batchAsyncs {A} (env : Env) (f : A -> Action) (l : list A) :
  (forall x, respectsAsync (keeps proj) (f x)) ->
  respects (keeps proj) (batchAsyncs env (map f l)).
Proof.
  intros H. apply respects_batchAsyncs;
    [apply keeps_refl | apply keeps_trans |].
  apply Forall_map_all. exact H.
Qed.

Lemma kept_promiseAll {A B} (env : Env) (combine : B -> B -> B) (none : B)
    (f : A -> Async B) (l : list A) :
  (forall x, respectsAsync (keeps proj) (f x)) ->
  respects (keeps proj) (promiseAll env combine none (map f l)).
Proof.
  intros H. apply respects_promiseAll;
    [apply keeps_refl | apply keeps_trans |].
  apply Forall_map_all. exact H.
Qed.

Lemma keptA_retA {A} (a : A) : respectsAsync (keeps proj) (retA a).
Proof. apply respectsAsync_retA, keeps_refl. Qed.

Lemma keptA_throw {A} (e : Exn) :
  respectsAsync (keeps proj) (@throw (Pending A) e).
Proof. apply respectsAsync_throw, keeps_refl. Qed.

Lemma keptA_diverge {A} : respectsAsync (keeps proj) (@diverge (Pending A)).
Proof. apply respectsAsync_diverge, keeps_refl. Qed.

Lemma keptA_later {A} (a : A) : respectsAsync (keeps proj) (later a).
Proof. apply respectsAsync_later, keeps_refl. Qed.

Lemma keptA_sync {A} (c : M A) :
  respects (keeps proj) c -> respectsAsync (keeps proj) (sync c).
Proof. apply respectsAsync_sync. Qed.

Lemma keptA_requestA {A} (c : Call) (answer : list Call -> A) :
  respectsAsync (keeps proj) (requestA c answer).
Proof.
  apply respectsAsync_requestA; [apply keeps_refl |].
  intros w. apply kept_sent.
Qed.

Lemma keptA_bind {A B} (c : M A) (k : A -> Async B) :
  respects (keeps proj) c -> (forall a, respectsAsync (keeps proj) (k a)) ->
  respectsAsync (keeps proj) (bind c k).
Proof. apply respectsAsync_bind, keeps_trans. Qed.

Lemma keptA_bindA {A B} (c : Async A) (k : A -> Async B) :
  respectsAsync (keeps proj) c ->
  (forall a, respectsAsync (keeps proj) (k a)) ->
  respectsAsync (keeps proj) (bindA c k).
Proof.
  apply respectsAsync_bindA; [apply keeps_refl | apply keeps_trans].
Qed.

Ltac kept_step :=
  match goal with
  | |- respectsAsync _ (bindA _ _) => apply keptA_bindA; [| intros ?]
  | |- respectsAsync _ (sync _) => apply keptA_sync
  | |- respectsAsync _ (retA _) => apply keptA_retA
  | |- respectsAsync _ (later _) => apply keptA_later
  | |- respectsAsync _ (requestA _ _) => apply keptA_requestA
  | |- respectsAsync _ (throw _) => apply keptA_throw
  | |- respectsAsync _ diverge => apply keptA_diverge
  | |- respectsAsync _ (bind _ _) => apply keptA_bind; [| intros ?]
  | |- respectsAsync _ (if ?b then _ else _) => destruct b
  | |- respectsAsync _ (match ?x with _ => _ end) => destruct x
  | |- respectsAsync _ (let _ := _ in _) => cbv zeta
  | |- respects _ (bind _ _) => apply kept_bind; [| intros ?]
  | |- respects _ (forEach _ _) => apply kept_forEach; intros ?
  | |- respects _ (mapM _ _) => apply kept_mapM; intros ?
  | |- respects _ (filterM _ _) => apply kept_filterM; intros ?
  | |- respects _ (batchAsyncs _ (map _ _)) =>
      apply kept_batchAsyncs; intros ?
  | |- respects _ (promiseAll _ _ _ (map _ _)) =>
      apply kept_promiseAll; intros ?
  | |- respects _ (if ?b then _ else _) => destruct b
  | |- respects _ (match ?x with _ => _ end) => destruct x
  | |- respects _ (let _ := _ in _) => cbv zeta
  | |- respects _ (ret _) => apply kept_ret
  | |- respects _ (throw _) => apply kept_throw
  | |- respects _ diverge => apply kept_diverge
  | |- respects _ getWorld => apply kept_getWorld
  | |- respects _ (toISOString _) => apply kept_toISOString
  | |- respects _ (request _ _) => apply kept_request
  | |- respects _ (Notice _) => apply kept_notice
  | |- respects _ (setMessage _) => apply kept_message
  | |- respects _ (setPathsToIds _) => apply kept_paths
  | |- respects _ (setCompleted _) => apply kept_completed
  | |- respects _ (setDriveIdToPath _) => apply kept_index
  | |- _ => solve [auto]
  end.

Ltac kept := repeat kept_step.

Lemma kept_paginateFiles drive data token pageSize :
  respects (keeps proj) (paginateFiles drive data token pageSize).
Proof. unfold paginateFiles. kept. Qed.

Lemma kept_searchLoop fuel drive data :
  forall acc token,
    respects (keeps proj) (searchLoop fuel drive data acc token).
Proof.
  induction fuel as [| fuel IH]; intros acc token; cbn.
  - kept.
  - destruct (JS.truthy token); [| kept].
    apply kept_bind; [apply kept_paginateFiles | intros [p |]]; kept.
Qed.

Lemma kept_searchFiles fuel drive data includeObsidian :
  respects (keeps proj) (searchFiles fuel drive data includeObsidian).
Proof.
  unfold searchFiles.
  apply kept_bind; [apply kept_paginateFiles | intros [p |]]; kept.
  apply kept_searchLoop.
Qed.

Lemma kept_getRootFolderId fuel drive :
  respects (keeps proj) (getRootFolderId fuel drive).
Proof.
  unfold getRootFolderId.
  apply kept_bind; [apply kept_searchFiles | intros ?]; kept.
Qed.

Lemma kept_createFolder fuel drive a :
  respects (keeps proj) (createFolder fuel drive a).
Proof.
  unfold createFolder, postFolder.
  destruct (JS.isTruthy (a_parent a)); kept.
  apply kept_getRootFolderId.
Qed.

Lemma kept_uploadFile fuel drive file name parent metadata :
  respects (keeps proj) (uploadFile fuel drive file name parent metadata).
Proof.
  unfold uploadFile, postUpload.
  destruct (JS.isTruthy parent); kept.
  apply kept_getRootFolderId.
Qed.

Lemma kept_updateFile drive id content metadata :
  respects (keeps proj) (updateFile drive id content metadata).
Proof. unfold updateFile. kept. Qed.

Lemma kept_getFile drive id : respects (keeps proj) (getFile drive id).
Proof. unfold getFile. kept. Qed.

Lemma kept_getFileMetadata drive id :
  respects (keeps proj) (getFileMetadata drive id).
Proof. unfold getFileMetadata. kept. Qed.

Lemma kept_idsFromPaths fuel drive paths :
  respects (keeps proj) (idsFromPaths fuel drive paths).
Proof.
  unfold idsFromPaths, idAndPath.
  apply kept_bind; [apply kept_searchFiles | intros ?]; kept.
Qed.

Lemma kept_batchDelete drive ids :
  respects (keeps proj) (batchDelete drive ids).
Proof. unfold batchDelete. kept. Qed.

Lemma kept_recordId id path : respects (keeps proj) (recordId id path).
Proof. unfold recordId. kept. Qed.

Lemma kept_forgetKey key : respects (keeps proj) (forgetKey key).
Proof. unfold forgetKey. kept. Qed.

Lemma kept_indexPath path id : respects (keeps proj) (indexPath path id).
Proof. unfold indexPath. kept. Qed.

(** The client inside closures. *)

Lemma keptA_paginateFiles drive data token pageSize :
  respectsAsync (keeps proj) (Async.paginateFiles drive data token pageSize).
Proof. unfold Async.paginateFiles. kept. Qed.

Lemma keptA_searchLoop fuel drive data :
  forall acc token,
    respectsAsync (keeps proj) (Async.searchLoop fuel drive data acc token).
Proof.
  induction fuel as [| fuel IH]; intros acc token; cbn.
  - kept.
  - destruct (JS.truthy token); [| kept].
    apply keptA_bindA; [apply keptA_paginateFiles | intros [p |]]; kept.
Qed.

Lemma keptA_searchFiles fuel drive data includeObsidian :
  respectsAsync (keeps proj)
    (Async.searchFiles fuel drive data includeObsidian).
Proof.
  unfold Async.searchFiles.
  apply keptA_bindA; [apply keptA_paginateFiles | intros [p |]]; kept.
  apply keptA_searchLoop.
Qed.

Lemma keptA_getRootFolderId fuel drive :
  respectsAsync (keeps proj) (Async.getRootFolderId fuel drive).
Proof.
  unfold Async.getRootFolderId.
  apply keptA_bindA; [apply keptA_searchFiles | intros ?]; kept.
Qed.

Lemma keptA_createFolder fuel drive a :
  respectsAsync (keeps proj) (Async.createFolder fuel drive a).
Proof.
  unfold Async.createFolder, Async.postFolder.
  destruct (JS.isTruthy (a_parent a)); kept.
  apply keptA_getRootFolderId.
Qed.

Lemma keptA_uploadFile fuel drive file name parent metadata :
  respectsAsync (keeps proj)
    (Async.uploadFile fuel drive file name parent metadata).
Proof.
  unfold Async.uploadFile, Async.postUpload.
  destruct (JS.isTruthy parent); kept.
  apply keptA_getRootFolderId.
Qed.

Lemma keptA_updateFile drive id content metadata :
  respectsAsync (keeps proj) (Async.updateFile drive id content metadata).
Proof. unfold Async.updateFile. kept. Qed.

Lemma keptA_getFile drive id :
  respectsAsync (keeps proj) (Async.getFile drive id).
Proof. unfold Async.getFile. kept. Qed.

Hint Resolve kept_createFolder kept_uploadFile kept_updateFile
  kept_idsFromPaths kept_batchDelete kept_recordId kept_forgetKey
  kept_indexPath kept_searchFiles kept_getFile kept_getFileMetadata
  keptA_createFolder keptA_uploadFile keptA_updateFile keptA_getFile : core.

Lemma kept_fold_batches (batches : list nat) (folders : list TAbstractFile) :
  forall init : M (Heap TAbstractFile),
    respects (keeps proj) init ->
    respects (keeps proj)
      (fold_left
         (fun (acc : M (Heap TAbstractFile)) folder =>
            h <- acc ;;
            match nth_error batches (depth (tf_path folder) - 1) with
            | Some r => ret (pushAt h r folder)
            | None => throw TypeError
            end)
         folders init).
Proof.
  induction folders as [| f folders IH]; intros init Hi; cbn; [exact Hi |].
  apply IH. kept.
Qed.

Lemma kept_makeBatches folders :
  respects (keeps proj) (HelpersPush.makeBatches folders).
Proof.
  unfold HelpersPush.makeBatches. destruct folders; kept.
  apply kept_fold_batches. kept.
Qed.

Hint Resolve kept_makeBatches : core.

Lemma kept_deletePhase fuel env deletes :
  respects (keeps proj) (HelpersPush.deletePhase fuel env deletes).
Proof. unfold HelpersPush.deletePhase. kept. Qed.

Lemma kept_createPhase fuel env creates :
  respects (keeps proj) (HelpersPush.createPhase fuel env creates).
Proof.
  unfold HelpersPush.createPhase, HelpersPush.folderAction,
    HelpersPush.noteAction.
  kept.
Qed.

Lemma kept_modifyPhase env modifies :
  respects (keeps proj) (HelpersPush.modifyPhase env modifies).
Proof.
  unfold HelpersPush.modifyPhase, HelpersPush.modifyAction. kept.
Qed.

Lemma kept_staleConfig env configOnDrive :
  respects (keeps proj) (ConfirmedPush.staleConfig env configOnDrive).
Proof.
  unfold ConfirmedPush.staleConfig, ConfirmedPush.staleAction. kept.
Qed.

Lemma kept_advance env lo hi total :
  respects (keeps proj) (ConfirmedPush.advance env lo hi total).
Proof. unfold ConfirmedPush.advance. kept. Qed.

Hint Resolve kept_advance : core.

Lemma kept_confirmed_deletePhase env deletes :
  respects (keeps proj) (ConfirmedPush.deletePhase env deletes).
Proof. unfold ConfirmedPush.deletePhase. kept. Qed.

Lemma kept_confirmed_createPhase fuel env creates :
  respects (keeps proj) (ConfirmedPush.createPhase fuel env creates).
Proof.
  unfold ConfirmedPush.createPhase, ConfirmedPush.folderAction,
    ConfirmedPush.noteAction.
  kept.
Qed.

Lemma kept_confirmed_modifyPhase env modifies :
  respects (keeps proj) (ConfirmedPush.modifyPhase env modifies).
Proof.
  unfold ConfirmedPush.modifyPhase, ConfirmedPush.modifyAction. kept.
Qed.

Lemma kept_configSync fuel env :
  respects (keeps proj) (ConfirmedPush.configSync fuel env).
Proof.
  unfold ConfirmedPush.configSync, ConfirmedPush.configFolderAction,
    ConfirmedPush.configFileAction.
  kept.
Qed.

(** The dialogs also call black boxes of the plugin and drop entries of
    the log. *)

Hypothesis kept_blackBox :
  forall f w, proj (snd (blackBox f w)) = proj w.
Hypothesis kept_setOperations :
  forall o w, proj (snd (setOperations o w)) = proj w.

Lemma kept_black (f : Settings -> Settings) :
  respects (keeps proj) (blackBox f).
Proof. intros w. apply kept_blackBox. Qed.

Lemma kept_forgetOperation (file : string) :
  respects (keeps proj) (forgetOperation file).
Proof.
  unfold forgetOperation. kept. intros w. apply kept_setOperations.
Qed.

Lemma kept_keyed (file : FileMetadata) :
  respects (keeps proj) (Dialog.keyed file).
Proof. unfold Dialog.keyed. kept. Qed.

Lemma kept_isFolderPath pathToFile path :
  respects (keeps proj) (Dialog.isFolderPath pathToFile path).
Proof. unfold Dialog.isFolderPath. kept. Qed.

Hint Resolve kept_black kept_forgetOperation kept_keyed kept_isFolderPath
  : core.

Lemma keptA_restoreAction env filePathToId pathToFile path :
  respectsAsync (keeps proj)
    (Dialog.restoreAction env filePathToId pathToFile path).
Proof. unfold Dialog.restoreAction. kept. Qed.

Hint Resolve keptA_restoreAction : core.

Lemma kept_handleDelete fuel env filePathToId paths :
  respects (keeps proj) (Dialog.handleDelete fuel env filePathToId paths).
Proof. unfold Dialog.handleDelete. kept. Qed.

Lemma kept_handleCreate env found :
  respects (keeps proj) (Dialog.handleCreate env found).
Proof. unfold Dialog.handleCreate. kept. Qed.

Lemma kept_handleModify env filePathToId found path :
  respects (keeps proj) (Dialog.handleModify env filePathToId found path).
Proof. unfold Dialog.handleModify. kept. Qed.

Lemma kept_attempt (handler : M unit) :
  respects (keeps proj) handler ->
  respects (keeps proj) (Dialog.attempt handler).
Proof.
  intros H w. specialize (H w). unfold Dialog.attempt.
  destruct (handler w) as [[[] | e |] w']; exact H.
Qed.

Lemma kept_ConfirmUndoModal fuel env operation files found :
  respects (keeps proj)
    (Dialog.ConfirmUndoModal fuel env operation files found).
Proof.
  unfold Dialog.ConfirmUndoModal. kept. apply kept_attempt.
  destruct operation; kept;
    auto using kept_handleDelete, kept_handleCreate, kept_handleModify.
Qed.

Lemma kept_onclick fuel env operations path op g :
  respects (keeps proj) (Dialog.onclick fuel env operations path op g).
Proof.
  unfold Dialog.onclick. kept. apply kept_ConfirmUndoModal.
Qed.

Lemma kept_session fuel env gs decision :
  forall operations,
    respects (keeps proj) (Dialog.session fuel env operations gs decision).
Proof.
  induction gs as [| g gs IH]; intros operations; cbn; [kept |].
  destruct (find _ operations) as [[path op] |]; [| apply IH].
  apply kept_bind; [apply kept_onclick | intros [operations' |]]; kept.
Qed.

Lemma kept_dialog fuel env : respects (keeps proj) (dialog fuel env).
Proof.
  unfold dialog, Dialog.ConfirmPushModal. kept. apply kept_session.
Qed.

End Kept.
(* ================================================================= *)
(** ** What leaves the operation log and the lock alone *)

Lemma sameLog_refl (w : World) : sameLog w w.
Proof. reflexivity. Qed.

Lemma sameLog_trans (a b c : World) : sameLog a b -> sameLog b c -> sameLog a c.
Proof. unfold sameLog. intros H1 H2. rewrite H2. exact H1. Qed.

(** The log is one of the parts that the phases never write. *)
Ltac log_kept lemma :=
  apply (lemma (JS.Obj Operation) (fun w => operations (settings w)));
  intros; reflexivity.

Lemma keeps_Notice (text : string) : respects sameLog (Notice text).
Proof. intros w. reflexivity. Qed.

Lemma keeps_searchFiles fuel drive data includeObsidian :
  respects sameLog (searchFiles fuel drive data includeObsidian).
Proof. log_kept kept_searchFiles. Qed.

Lemma keeps_deletePhase fuel env deletes :
  respects sameLog (HelpersPush.deletePhase fuel env deletes).
Proof. log_kept kept_deletePhase. Qed.

Lemma keeps_createPhase fuel env creates :
  respects sameLog (HelpersPush.createPhase fuel env creates).
Proof. log_kept kept_createPhase. Qed.

Lemma keeps_modifyPhase env modifies :
  respects sameLog (HelpersPush.modifyPhase env modifies).
Proof. log_kept kept_modifyPhase. Qed.

Lemma keeps_staleConfig env configOnDrive :
  respects sameLog (ConfirmedPush.staleConfig env configOnDrive).
Proof. log_kept kept_staleConfig. Qed.

Lemma keeps_confirmed_deletePhase env deletes :
  respects sameLog (ConfirmedPush.deletePhase env deletes).
Proof. log_kept kept_confirmed_deletePhase. Qed.

Lemma keeps_confirmed_createPhase fuel env creates :
  respects sameLog (ConfirmedPush.createPhase fuel env creates).
Proof. log_kept kept_confirmed_createPhase. Qed.

Lemma keeps_confirmed_modifyPhase env modifies :
  respects sameLog (ConfirmedPush.modifyPhase env modifies).
Proof. log_kept kept_confirmed_modifyPhase. Qed.

Lemma keeps_configSync fuel env :
  respects sameLog (ConfirmedPush.configSync fuel env).
Proof. log_kept kept_configSync. Qed.

Lemma logAndLock_searchFiles fuel drive data includeObsidian :
  respects (keeps logAndLock) (searchFiles fuel drive data includeObsidian).
Proof. apply kept_searchFiles; reflexivity. Qed.

Lemma logAndLock_deletePhase fuel env deletes :
  respects (keeps logAndLock) (HelpersPush.deletePhase fuel env deletes).
Proof. apply kept_deletePhase; reflexivity. Qed.

Lemma logAndLock_createPhase fuel env creates :
  respects (keeps logAndLock) (HelpersPush.createPhase fuel env creates).
Proof. apply kept_createPhase; reflexivity. Qed.

Lemma logAndLock_modifyPhase env modifies :
  respects (keeps logAndLock) (HelpersPush.modifyPhase env modifies).
Proof. apply kept_modifyPhase; reflexivity. Qed.

Lemma logAndLock_staleConfig env found :
  respects (keeps logAndLock) (ConfirmedPush.staleConfig env found).
Proof. apply kept_staleConfig; reflexivity. Qed.

Lemma logAndLock_confirmed_deletePhase env deletes :
  respects (keeps logAndLock) (ConfirmedPush.deletePhase env deletes).
Proof. apply kept_confirmed_deletePhase; reflexivity. Qed.

Lemma logAndLock_confirmed_createPhase fuel env creates :
  respects (keeps logAndLock) (ConfirmedPush.createPhase fuel env creates).
Proof. apply kept_confirmed_createPhase; reflexivity. Qed.

Lemma logAndLock_confirmed_modifyPhase env modifies :
  respects (keeps logAndLock) (ConfirmedPush.modifyPhase env modifies).
Proof. apply kept_confirmed_modifyPhase; reflexivity. Qed.

Lemma logAndLock_configSync fuel env :
  respects (keeps logAndLock) (ConfirmedPush.configSync fuel env).
Proof. apply kept_configSync; reflexivity. Qed.

Lemma logAndLock_inv (w w' : World) :
  keeps logAndLock w w' ->
  operations (settings w') = operations (settings w)
  /\ syncing w' = syncing w.
Proof. unfold keeps, logAndLock. intros H. inversion H. auto. Qed.

Lemma busy_push_returns (fuel : nat) (env : Env) (w : World) :
  syncing w = true -> HelpersPush.push fuel env w = (Val tt, w).
Proof.
  intros H. unfold HelpersPush.push, bind, getWorld. rewrite H. reflexivity.
Qed.

(* ================================================================= *)
(** ** The single-flight guard *)

(** C7.  When [push] is invoked while a sync cycle is in progress (the
    [syncing] flag is set) it returns at once: no request is sent, and
    the operation log, the index and the rest of the state are left as
    they were.  This holds for both variants of [push]. *)
Theorem push_noop_while_syncing :
  forall (fuel : nat) (env : Env) (w : World),
    syncing w = true ->
    HelpersPush.push fuel env w = (Val tt, w)
    /\ ConfirmedPush.push fuel env w = (Val tt, w).
Proof.
  intros fuel env w H.
  unfold HelpersPush.push, ConfirmedPush.push, bind, getWorld.
  rewrite H. split; reflexivity.
Qed.

Lemma push_noop_while_syncing_witness :
  syncing Scenario.busy = true
  /\ HelpersPush.push 3 (Scenario.quiet (Scenario.listing [])
                           Scenario.emptyVault) Scenario.busy
     = (Val tt, Scenario.busy)
  /\ ConfirmedPush.push 3 (Scenario.quiet (Scenario.listing [])
                             Scenario.emptyVault) Scenario.busy
     = (Val tt, Scenario.busy).
Proof.
  split; [reflexivity |].
  apply (push_noop_while_syncing 3
           (Scenario.quiet (Scenario.listing []) Scenario.emptyVault)
           Scenario.busy).
  reflexivity.
Defined.

(* ================================================================= *)
(** ** The confirmation dialog *)

Lemma dialog_keeps_the_lock (fuel : nat) (env : Env) (w : World) :
  syncing (afterDialog fuel env w) = syncing w.
Proof.
  unfold afterDialog. apply (kept_dialog bool syncing); reflexivity.
Qed.

Lemma forgetting_never_throws (nested : list string) (w : World) :
  fst (forEach forgetOperation nested w) = Val tt.
Proof.
  revert w. induction nested as [| file nested IH]; intros w; cbn;
    [reflexivity |].
  apply IH.
Qed.

Lemma attempt_never_throws (handler : M unit) (w : World) (e : Exn) :
  fst (Dialog.attempt handler w) <> Throw e.
Proof.
  unfold Dialog.attempt. destruct (handler w) as [[[] | e' |] w'];
    discriminate.
Qed.

Lemma onclick_never_throws fuel env operations path op g (w : World)
    (e : Exn) :
  fst (Dialog.onclick fuel env operations path op g w) <> Throw e.
Proof.
  unfold Dialog.onclick. unfold bind at 1.
  destruct (g_confirm g).
  - unfold Dialog.ConfirmUndoModal. unfold bind at 1, getWorld at 1.
    match goal with
    | |- context [Dialog.attempt ?h w] =>
        pose proof (attempt_never_throws h w) as Ha;
        destruct (Dialog.attempt h w) as [[[] | e' |] w1]
    end; cbn [fst negb] in *; try discriminate.
    + unfold bind.
      pose proof (forgetting_never_throws
                    (nestedFiles operations path) w1) as Hf.
      destruct (forEach forgetOperation (nestedFiles operations path) w1)
        as [r w2]. cbn in Hf. subst r.
      destruct (afterUndo operations path); discriminate.
    + exfalso. apply (Ha e'). reflexivity.
  - cbn. discriminate.
Qed.

Lemma session_never_throws fuel env gs decision :
  forall operations (w : World) (e : Exn),
    fst (Dialog.session fuel env operations gs decision w) <> Throw e.
Proof.
  induction gs as [| g gs IH]; intros operations w e; cbn;
    [discriminate |].
  destruct (find _ operations) as [[path op] |]; [| apply IH].
  unfold bind.
  pose proof (onclick_never_throws fuel env operations path op g w) as Ho.
  destruct (Dialog.onclick fuel env operations path op g w)
    as [[[operations' |] | e' |] w1]; cbn [fst] in *.
  - apply IH.
  - discriminate.
  - exfalso. apply (Ho e'). reflexivity.
  - discriminate.
Qed.

(** The dialog is closed with an answer, or the session runs out of
    budget; no exception leaves it. *)
Lemma dialog_never_throws (fuel : nat) (env : Env) (w : World) (e : Exn) :
  fst (dialog fuel env w) <> Throw e.
Proof. apply session_never_throws. Qed.

Lemma confirmed_push_opens_dialog (fuel : nat) (env : Env) (w : World) :
  syncing w = false ->
  ConfirmedPush.push fuel env w
  = match fst (dialog fuel env w) with
    | Val true =>
        (startSync ;;
         runPull env ;;
         w <- getWorld ;;
         let operations := operations (settings w) in
         setPathsToIds
           (JS.fromEntries (map swap (driveIdToPath (settings w)))) ;;
         configOnDrive <- searchFiles fuel (drive env) configMatch false ;;
         match configOnDrive with
         | None => Notice fetchError
         | Some configOnDrive =>
             stale <- ConfirmedPush.staleConfig env configOnDrive ;;
             go <- ConfirmedPush.deletePhase env
                     (withOp delete operations ++ stale)%list ;;
             if negb go then ret tt
             else
               setMessage "Syncing (33%)" ;;
               ConfirmedPush.createPhase fuel env (withOp create operations) ;;
               ConfirmedPush.modifyPhase env (withOp modify operations) ;;
               ConfirmedPush.configSync fuel env ;;
               setOperations [] ;;
               endSync ;;
               Notice syncComplete
         end) (afterDialog fuel env w)
    | Val false => (Val tt, afterDialog fuel env w)
    | Throw e => (Throw e, afterDialog fuel env w)
    | Diverge => (Diverge, afterDialog fuel env w)
    end.
Proof.
  intros Hs.
  assert (E : dialog fuel env w
              = Dialog.ConfirmPushModal fuel env
                  (JS.sortByKey (operations (settings w))) w)
    by reflexivity.
  unfold afterDialog. rewrite E. unfold ConfirmedPush.push.
  unfold bind at 1. unfold getWorld at 1. rewrite Hs.
  cbv beta iota zeta. unfold bind at 1.
  destruct (Dialog.ConfirmPushModal fuel env
              (JS.sortByKey (operations (settings w))) w)
    as [[[] | e |] w1]; reflexivity.
Qed.
(* ================================================================= *)
(** ** The commit point *)

Lemma push_enters (fuel : nat) (env : Env) (w : World) :
  syncing w = false ->
  HelpersPush.push fuel env w
  = (go <- HelpersPush.deletePhase fuel env
             (withOp delete (operations (settings (entered env w)))) ;;
     if negb go then ret tt
     else
       HelpersPush.createPhase fuel env
         (withOp create (operations (settings (entered env w)))) ;;
       HelpersPush.modifyPhase env
         (withOp modify (operations (settings (entered env w)))) ;;
       setOperations [] ;;
       endSync ;;
       if fst (pull env (settings w)) then Notice reloadAdvice
       else Notice syncComplete) (entered env w).
Proof.
  intros H. unfold HelpersPush.push, entered.
  unfold bind at 1. unfold getWorld at 1. rewrite H.
  unfold bind at 1. unfold startSync, setSyncing at 1.
  unfold bind at 1. unfold runPull, onSettings at 1. cbn [settings].
  destruct (pull env (settings w)) as [pulled s]. reflexivity.
Qed.

Lemma committed_log_is_empty (N : M unit) (w : World) :
  respects sameLog N ->
  operations (settings (snd ((setOperations [] ;; endSync ;; N) w))) = [].
Proof.
  intros HN. unfold bind, setOperations, endSync, setSyncing, setSettings,
    getWorld. cbn.
  match goal with |- context [N ?w0] => specialize (HN w0) end.
  unfold sameLog in HN. cbn in HN.
  match goal with |- context [N ?w0] => destruct (N w0) as [[[] | e |] w1] end;
    cbn in *; assumption.
Qed.

(** Whatever a run of [push] does, the log it leaves is empty or is the
    log the run started from after [pull]: entries are never cleared one
    by one. *)
Lemma push_log_all_or_nothing (fuel : nat) (env : Env) (w : World)
    (r : Outcome unit) (w' : World) :
  HelpersPush.push fuel env w = (r, w') ->
  operations (settings w') = []
  \/ operations (settings w') = operations (settings w)
  \/ operations (settings w') = operations (settings (entered env w)).
Proof.
  intros E. destruct (syncing w) eqn:Hs.
  - right. left. unfold HelpersPush.push, bind, getWorld in E.
    rewrite Hs in E. inversion E. reflexivity.
  - rewrite (push_enters fuel env w Hs) in E.
    set (w1 := entered env w) in *. set (ops := operations (settings w1)) in *.
    unfold bind at 1 in E.
    pose proof (keeps_deletePhase fuel env (withOp delete ops) w1) as H1.
    destruct (HelpersPush.deletePhase fuel env (withOp delete ops) w1)
      as [[[] | e |] w2]; cbn [snd negb] in H1, E;
      try (inversion E; subst; right; right; exact H1).
    unfold bind at 1 in E.
    pose proof (keeps_createPhase fuel env (withOp create ops) w2) as H2.
    destruct (HelpersPush.createPhase fuel env (withOp create ops) w2)
      as [[[] | e |] w3]; cbn [snd] in H2, E;
      try (inversion E; subst; right; right; rewrite H2; exact H1).
    unfold bind at 1 in E.
    pose proof (keeps_modifyPhase env (withOp modify ops) w3) as H3.
    destruct (HelpersPush.modifyPhase env (withOp modify ops) w3)
      as [[[] | e |] w4]; cbn [snd] in H3, E;
      try (inversion E; subst; right; right; rewrite H3, H2; exact H1).
    left.
    match type of E with
    | ?c w4 = _ =>
        assert (Hc : operations (settings (snd (c w4))) = [])
    end.
    { apply committed_log_is_empty.
      destruct (fst (pull env (settings w))); apply keeps_Notice. }
    rewrite E in Hc. exact Hc.
Qed.

Ltac log_chain :=
  unfold sameLog in *; cbn [snd settings operations] in *; congruence.

Lemma confirmed_push_enters (fuel : nat) (env : Env) (w : World) :
  syncing w = false ->
  fst (dialog fuel env w) = Val true ->
  ConfirmedPush.push fuel env w
  = (setPathsToIds
       (JS.fromEntries
          (map swap (driveIdToPath (settings (confirmed fuel env w))))) ;;
     configOnDrive <- searchFiles fuel (drive env) configMatch false ;;
     match configOnDrive with
     | None => Notice fetchError
     | Some configOnDrive =>
         stale <- ConfirmedPush.staleConfig env configOnDrive ;;
         go <- ConfirmedPush.deletePhase env
                 (withOp delete (operations (settings (confirmed fuel env w)))
                  ++ stale)%list ;;
         if negb go then ret tt
         else
           setMessage "Syncing (33%)" ;;
           ConfirmedPush.createPhase fuel env
             (withOp create (operations (settings (confirmed fuel env w)))) ;;
           ConfirmedPush.modifyPhase env
             (withOp modify (operations (settings (confirmed fuel env w)))) ;;
           ConfirmedPush.configSync fuel env ;;
           setOperations [] ;;
           endSync ;;
           Notice syncComplete
     end) (confirmed fuel env w).
Proof.
  intros Hs Hm. rewrite (confirmed_push_opens_dialog fuel env w Hs), Hm.
  unfold confirmed, entered.
  unfold bind at 1. unfold startSync, setSyncing at 1.
  unfold bind at 1. unfold runPull, onSettings at 1. cbn [settings].
  destruct (pull env (settings (afterDialog fuel env w))) as [pulled s2].
  reflexivity.
Qed.

Lemma confirmed_push_log_all_or_nothing (fuel : nat) (env : Env) (w : World)
    (r : Outcome unit) (w' : World) :
  ConfirmedPush.push fuel env w = (r, w') ->
  operations (settings w') = []
  \/ operations (settings w') = operations (settings w)
  \/ operations (settings w')
     = operations (settings (afterDialog fuel env w))
  \/ operations (settings w')
     = operations (settings (confirmed fuel env w)).
Proof.
  intros E. destruct (syncing w) eqn:Hs.
  { right. left. unfold ConfirmedPush.push, bind, getWorld in E.
    rewrite Hs in E. inversion E. reflexivity. }
  destruct (fst (dialog fuel env w)) as [[] | e |] eqn:Hm.
  2, 3, 4:
    right; right; left;
    rewrite (confirmed_push_opens_dialog fuel env w Hs), Hm in E;
    inversion E; reflexivity.
  rewrite (confirmed_push_enters fuel env w Hs Hm) in E.
  set (w1 := confirmed fuel env w) in *.
  set (ops := operations (settings w1)) in *.
  assert (Habort : forall w2, sameLog w1 w2 ->
            operations (settings w2) = []
            \/ operations (settings w2) = operations (settings w)
            \/ operations (settings w2)
               = operations (settings (afterDialog fuel env w))
            \/ operations (settings w2) = ops).
  { intros w2 H. right. right. right. exact H. }
  unfold bind at 1 in E. unfold setPathsToIds at 1 in E.
  cbv beta iota in E.
  match type of E with
  | bind _ _ ?w0 = _ =>
      set (w1' := w0) in *; assert (H0 : sameLog w1 w1') by reflexivity
  end.
  unfold bind at 1 in E.
  pose proof (keeps_searchFiles fuel (drive env) configMatch false w1') as H1.
  destruct (searchFiles fuel (drive env) configMatch false w1')
    as [[[found |] | e |] w2]; cbn [snd] in H1, E;
    try (inversion E; subst r w'; apply Habort; log_chain).
  unfold bind at 1 in E.
  pose proof (keeps_staleConfig env found w2) as H2.
  destruct (ConfirmedPush.staleConfig env found w2) as [[stale | e |] w3];
    cbn [snd] in H2, E;
    try (inversion E; subst r w'; apply Habort; log_chain).
  unfold bind at 1 in E.
  pose proof (keeps_confirmed_deletePhase env
                (withOp delete ops ++ stale)%list w3) as H3.
  destruct (ConfirmedPush.deletePhase env (withOp delete ops ++ stale)%list w3)
    as [[[] | e |] w4]; cbn [snd negb] in H3, E;
    try (inversion E; subst r w'; apply Habort; log_chain).
  unfold bind at 1 in E. unfold setMessage at 1 in E.
  cbv beta iota in E.
  match type of E with
  | bind _ _ ?w0 = _ =>
      set (w4' := w0) in *; assert (H4 : sameLog w4 w4') by reflexivity
  end.
  unfold bind at 1 in E.
  pose proof (keeps_confirmed_createPhase fuel env (withOp create ops) w4')
    as H5.
  destruct (ConfirmedPush.createPhase fuel env (withOp create ops) w4')
    as [[[] | e |] w5]; cbn [snd] in H5, E;
    try (inversion E; subst r w'; apply Habort; log_chain).
  unfold bind at 1 in E.
  pose proof (keeps_confirmed_modifyPhase env (withOp modify ops) w5) as H6.
  destruct (ConfirmedPush.modifyPhase env (withOp modify ops) w5)
    as [[[] | e |] w6]; cbn [snd] in H6, E;
    try (inversion E; subst r w'; apply Habort; log_chain).
  unfold bind at 1 in E.
  pose proof (keeps_configSync fuel env w6) as H7.
  destruct (ConfirmedPush.configSync fuel env w6) as [[[] | e |] w7];
    cbn [snd] in H7, E;
    try (inversion E; subst r w'; apply Habort; log_chain).
  left.
  match type of E with
  | ?c w7 = _ => assert (Hc : operations (settings (snd (c w7))) = [])
  end.
  { apply committed_log_is_empty. apply keeps_Notice. }
  rewrite E in Hc. exact Hc.
Qed.

Lemma withOp_only_modify (l : JS.Obj Operation) :
  Forall (fun e => snd e = modify) l ->
  withOp delete l = [] /\ withOp create l = [].
Proof.
  induction 1 as [| [path op] l Hop _ [IHd IHc]]; [split; reflexivity |].
  cbn in Hop. subst op. unfold withOp in *. cbn. auto.
Qed.

Lemma settles_modifyPhase (env : Env) (modifies : JS.Obj Operation) :
  settles (HelpersPush.modifyPhase env modifies).
Proof.
  unfold HelpersPush.modifyPhase. destruct modifies as [| m modifies].
  - intros w. reflexivity.
  - intros w. unfold bind at 1. unfold getWorld at 1.
    apply settles_batchAsyncs. apply Forall_map_all.
    intros file. unfold HelpersPush.modifyAction.
    apply settlesAsync_later. intros content w0. cbn. intros w1.
    match goal with
    | |- context [JS.nonEmpty ?x] => destruct (JS.nonEmpty x)
    end; exact I.
Qed.

Lemma modify_only_commits (fuel : nat) (env : Env) (w : World) :
  syncing w = false ->
  Forall (fun e => snd e = modify) (operations (settings (entered env w))) ->
  exists w', HelpersPush.push fuel env w = (Val tt, w')
             /\ operations (settings w') = []
             /\ syncing w' = false.
Proof.
  intros Hs Hm. rewrite (push_enters fuel env w Hs).
  destruct (withOp_only_modify _ Hm) as [Hd Hc]. rewrite Hd, Hc.
  set (w1 := entered env w).
  set (m := withOp modify (operations (settings w1))).
  unfold HelpersPush.deletePhase, HelpersPush.createPhase.
  unfold bind at 1. unfold ret at 1. cbn [negb].
  unfold bind at 1. unfold ret at 1.
  unfold bind at 1.
  pose proof (settles_modifyPhase env m w1) as Hset.
  destruct (HelpersPush.modifyPhase env m w1) as [r w2]. cbn in Hset.
  subst r.
  destruct (fst (pull env (settings w))); eexists;
    (split; [reflexivity | split; reflexivity]).
Qed.

(** C1, as amended.  In a sync cycle whose pending operations are all
    modifications, whichever of the updates fail at the remote call, the
    cycle of [src/helpers/push.ts] runs to its end and leaves the
    operation log empty: the commit clears every entry, that of a failed
    update included, and a failure is only reported by a notice.  In both
    variants of [push] the log after a run is either empty or the whole
    log the run was given (as it stood, or as the dialog and [pull] left
    it); entries are never cleared one by one. *)
Theorem commit_clears_the_whole_log :
  forall (fuel : nat) (env : Env) (w : World),
    syncing w = false ->
    Forall (fun e => snd e = modify) (operations (settings (entered env w))) ->
    (exists w', HelpersPush.push fuel env w = (Val tt, w')
                /\ operations (settings w') = []
                /\ syncing w' = false)
    /\ (forall r w', HelpersPush.push fuel env w = (r, w') ->
          operations (settings w') = []
          \/ operations (settings w') = operations (settings w)
          \/ operations (settings w') = operations (settings (entered env w)))
    /\ (forall r w', ConfirmedPush.push fuel env w = (r, w') ->
          operations (settings w') = []
          \/ operations (settings w') = operations (settings w)
          \/ operations (settings w')
             = operations (settings (afterDialog fuel env w))
          \/ operations (settings w')
             = operations (settings (confirmed fuel env w))).
Proof.
  intros fuel env w Hs Hm. split; [| split].
  - apply modify_only_commits; assumption.
  - apply push_log_all_or_nothing.
  - apply confirmed_push_log_all_or_nothing.
Qed.

Lemma commit_clears_the_whole_log_witness :
  syncing (Scenario.start Scenario.twoModifies) = false
  /\ Forall (fun e => snd e = modify)
       (operations
          (settings (entered Scenario.oneFails
                       (Scenario.start Scenario.twoModifies))))
  /\ exists w',
       HelpersPush.push 1 Scenario.oneFails
         (Scenario.start Scenario.twoModifies) = (Val tt, w')
       /\ operations (settings w') = []
       /\ syncing w' = false.
Proof.
  assert (H : Forall (fun e => snd e = modify)
                (operations
                   (settings (entered Scenario.oneFails
                                (Scenario.start Scenario.twoModifies))))).
  { repeat constructor. }
  split; [reflexivity | split; [exact H |]].
  exact (proj1 (commit_clears_the_whole_log 1 Scenario.oneFails
                  (Scenario.start Scenario.twoModifies) eq_refl H)).
Defined.

(** C1 as it was stated fails.  Of two pending modifications the update
    of [b.md] fails, which one notice reports; after the cycle the log
    does not hold [b.md] any more, in either variant of [push]. *)
Lemma failed_modify_is_cleared :
  patch_upload (drive Scenario.oneFails) [] (Scenario.updateUrl "ID_B")
    (stamped noMetadata "2024-01-01T00:00:00.000Z")
    (mkBlob "content of b.md" "") = None
  /\ notices (snd (HelpersPush.push 1 Scenario.oneFails
                     (Scenario.start Scenario.twoModifies)))
     = [modifyError; syncComplete]
  /\ JS.get (operations
               (settings (snd (HelpersPush.push 1 Scenario.oneFails
                                 (Scenario.start Scenario.twoModifies)))))
       "b.md" <> Some modify
  /\ notices (snd (ConfirmedPush.push 1 Scenario.oneFails
                     (Scenario.start Scenario.twoModifies)))
     = [modifyError; syncComplete]
  /\ JS.get (operations
               (settings (snd (ConfirmedPush.push 1 Scenario.oneFails
                                 (Scenario.start Scenario.twoModifies)))))
       "b.md" <> Some modify.
Proof.
  repeat split; try (vm_compute; reflexivity); vm_compute; discriminate.
Qed.
(* ================================================================= *)
(** ** The delete phase *)

(** C2, as amended.  When the search that resolves the pending delete
    paths fails, so that [idsFromPaths] returns the absent value, the
    cycle of [src/helpers/push.ts] stops there with the notice about
    fetching: it has sent listing requests only, hence no delete request,
    and the operation log and the index are as [pull] left them. *)
Theorem failed_search_stops_the_delete_phase :
  forall (fuel : nat) (env : Env) (w : World),
    syncing w = false ->
    withOp delete (operations (settings (entered env w))) <> [] ->
    fst (idsFromPaths fuel (drive env)
           (map fst (withOp delete (operations (settings (entered env w)))))
           (entered env w))
    = Val None ->
    exists w',
      HelpersPush.push fuel env w = (Val tt, w')
      /\ settings w' = settings (entered env w)
      /\ notices w' = (notices w ++ [fetchError])%list
      /\ exists gets, trace w' = (trace w ++ gets)%list /\ Forall isGET gets.
Proof.
  intros fuel env w Hs Hd Hnone.
  rewrite (push_enters fuel env w Hs).
  set (w1 := entered env w) in *.
  destruct (withOp delete (operations (settings w1))) as [| d ds] eqn:Ed;
    [contradiction |].
  unfold bind at 1. unfold HelpersPush.deletePhase. unfold bind at 1.
  pose proof (listed_idsFromPaths fuel (drive env) (map fst (d :: ds)) w1)
    as (S1 & L1 & N1 & gets & T1 & G1).
  destruct (idsFromPaths fuel (drive env) (map fst (d :: ds)) w1)
    as [r w2].
  cbn [fst snd] in *. subst r.
  eexists. split; [reflexivity |]. cbn.
  repeat split; try assumption.
  - rewrite N1. reflexivity.
  - exists gets. split; assumption.
Qed.

Lemma failed_search_stops_the_delete_phase_witness :
  exists w',
    HelpersPush.push 1 Scenario.unreachable
      (Scenario.start Scenario.twoDeletes) = (Val tt, w')
    /\ settings w' = Scenario.twoDeletes
    /\ notices w' = [fetchError]
    /\ exists gets, trace w' = gets /\ Forall isGET gets.
Proof.
  apply (failed_search_stops_the_delete_phase 1 Scenario.unreachable
           (Scenario.start Scenario.twoDeletes)).
  - reflexivity.
  - vm_compute. discriminate.
  - vm_compute. reflexivity.
Defined.

(** C2 as it was stated fails.  Of two paths to delete, [b.md] matches no
    remote object, so it is not resolved to an id; the search itself
    succeeds, one grouped delete is sent for the id of [a.md], and at the
    end of the cycle both delete entries have left the log. *)
Lemma unresolved_path_does_not_stop_the_delete :
  fst (idsFromPaths 1 (drive Scenario.knowsOnlyA) ["a.md"; "b.md"]
         (entered Scenario.knowsOnlyA (Scenario.start Scenario.twoDeletes)))
  = Val (Some [("ID_A", Some "a.md")])
  /\ In (POST_batch (batchBody [JS.str "ID_A"]))
       (trace (snd (HelpersPush.push 1 Scenario.knowsOnlyA
                      (Scenario.start Scenario.twoDeletes))))
  /\ operations (settings (Scenario.start Scenario.twoDeletes))
     = [("a.md", delete); ("b.md", delete)]
  /\ operations
       (settings (snd (HelpersPush.push 1 Scenario.knowsOnlyA
                         (Scenario.start Scenario.twoDeletes))))
     = [].
Proof.
  repeat split; try (vm_compute; reflexivity).
  vm_compute. right. left. reflexivity.
Qed.

Lemma forgetKey_run (key : string) (w : World) :
  forgetKey key w
  = (Val tt,
     mkWorld
       (mkSettings (operations (settings w))
          (JS.delete (driveIdToPath (settings w)) key))
       (syncing w) (pathsToIds w) (completed w) (trace w) (notices w)
       (progress w)).
Proof. reflexivity. Qed.

Lemma forget_all (ids : list (string * option string)) :
  forall w,
    fst (forEach (fun e => forgetKey (fst e)) ids w) = Val tt
    /\ (forall id, In id (map fst ids) ->
          JS.get (driveIdToPath
                    (settings (snd (forEach (fun e => forgetKey (fst e))
                                      ids w)))) id = None)
    /\ (forall id, JS.get (driveIdToPath (settings w)) id = None ->
          JS.get (driveIdToPath
                    (settings (snd (forEach (fun e => forgetKey (fst e))
                                      ids w)))) id = None).
Proof.
  induction ids as [| [i p] ids IH]; intros w.
  - cbn. repeat split; [contradiction | auto].
  - cbn [forEach]. unfold bind. rewrite forgetKey_run. cbn [fst].
    match goal with
    | |- context [forEach _ ids ?w0] => destruct (IH w0) as (Hv & Hin & Hkeep)
    end.
    cbn [settings driveIdToPath] in Hkeep.
    repeat split.
    + exact Hv.
    + intros id [<- | Hid].
      * apply Hkeep. apply get_delete_same.
      * apply Hin. exact Hid.
    + intros id Hid. apply Hkeep. apply get_delete_none. exact Hid.
Qed.

(** The delete phase of [src/helpers/push.ts] does what C4 says: once
    the grouped delete has succeeded, no id it was sent remains a key of
    the index. *)
Lemma deletePhase_forgets_deleted_ids (fuel : nat) (env : Env)
    (deletes : JS.Obj Operation) (w w1 w' : World)
    (ids : list (string * option string)) :
  deletes <> [] ->
  idsFromPaths fuel (drive env) (map fst deletes) w = (Val (Some ids), w1) ->
  HelpersPush.deletePhase fuel env deletes w = (Val true, w') ->
  forall id, In id (map fst ids) ->
             JS.get (driveIdToPath (settings w')) id = None.
Proof.
  intros Hd Hids Hrun id Hid.
  destruct deletes as [| d ds]; [contradiction |].
  unfold HelpersPush.deletePhase in Hrun. unfold bind at 1 in Hrun.
  rewrite Hids in Hrun. destruct ids as [| i ids]; [contradiction |].
  unfold bind at 1 in Hrun.
  destruct (batchDelete (drive env) (map (fun e => JS.str (fst e)) (i :: ids)) w1)
    as [[[answer |] | e |] w2]; try discriminate.
  unfold bind at 1 in Hrun.
  destruct (forget_all (i :: ids) w2) as (Hv & Hin & _).
  destruct (forEach (fun e => forgetKey (fst e)) (i :: ids) w2) as [r w3].
  cbn [fst snd] in *. subst r. inversion Hrun; subst. apply Hin. exact Hid.
Qed.

(** C4 fails in the confirming variant of [push].  With one pending
    deletion of an indexed file, the grouped delete is sent for the id of
    the file and succeeds, the cycle runs to its end, and the index still
    maps that id to the path: the key removed from the id-keyed index is
    the path, not the id.  On the same input [src/helpers/push.ts]
    removes the id. *)
Theorem confirmed_push_keeps_the_deleted_id :
  fst (ConfirmedPush.push 1 Scenario.agreeable
         (Scenario.start Scenario.oneDelete)) = Val tt
  /\ In (POST_batch (batchBody [JS.str "ID_OLD"]))
       (trace (snd (ConfirmedPush.push 1 Scenario.agreeable
                      (Scenario.start Scenario.oneDelete))))
  /\ notices (snd (ConfirmedPush.push 1 Scenario.agreeable
                     (Scenario.start Scenario.oneDelete)))
     = [syncComplete]
  /\ JS.get (driveIdToPath
               (settings (snd (ConfirmedPush.push 1 Scenario.agreeable
                                 (Scenario.start Scenario.oneDelete)))))
       "ID_OLD" = Some "old.md"
  /\ JS.get (driveIdToPath
               (settings (snd (HelpersPush.push 1 Scenario.knowsOld
                                 (Scenario.start Scenario.oneDelete)))))
       "ID_OLD" = None.
Proof.
  repeat split; try (vm_compute; reflexivity).
  vm_compute. right. left. reflexivity.
Qed.

(* ================================================================= *)
(** ** The folder batches *)
Lemma shared_slot (folders : list TAbstractFile) (f : TAbstractFile) :
  In f folders ->
  nth_error
    (repeat 0 (list_max (map (fun f => depth (tf_path f)) folders)))
    (depth (tf_path f) - 1)
  = Some 0.
Proof.
  intros Hin. apply nth_error_repeat.
  pose proof (depth_positive (tf_path f)) as Hpos.
  assert (Hle : depth (tf_path f)
                <= list_max (map (fun f => depth (tf_path f)) folders)).
  { pose proof (proj1 (list_max_le
                         (map (fun f => depth (tf_path f)) folders)
                         (list_max (map (fun f => depth (tf_path f)) folders)))
                  (le_n _)) as Hall.
    rewrite Forall_forall in Hall. apply Hall.
    apply in_map_iff. exists f. split; [reflexivity | exact Hin]. }
  lia.
Qed.

Lemma fold_into_shared_array (batches : list nat)
    (todo : list TAbstractFile) :
  Forall (fun f => nth_error batches (depth (tf_path f) - 1) = Some 0) todo ->
  forall (init : M (Heap TAbstractFile)) (done : list TAbstractFile),
    (forall w, init w = (Val [done], w)) ->
    forall w,
      fold_left
        (fun (acc : M (Heap TAbstractFile)) folder =>
           h <- acc ;;
           match nth_error batches (depth (tf_path folder) - 1) with
           | Some r => ret (pushAt h r folder)
           | None => throw TypeError
           end)
        todo init w
      = (Val [(done ++ todo)%list], w).
Proof.
  induction 1 as [| f todo Hf _ IH]; intros init done Hinit w; cbn.
  - rewrite app_nil_r. apply Hinit.
  - rewrite (IH _ (done ++ [f])%list).
    + rewrite <- app_assoc. reflexivity.
    + intros w0. unfold bind. rewrite Hinit, Hf. reflexivity.
Qed.

(** Every slot of [batches] holds the address of the one array, and that
    array ends up holding every folder, whatever its depth. *)
Lemma makeBatches_one_shared_array (folders : list TAbstractFile) (w : World) :
  folders <> [] ->
  HelpersPush.makeBatches folders w
  = (Val (repeat 0 (list_max (map (fun f => depth (tf_path f)) folders)),
          [folders]), w).
Proof.
  intros Hne. unfold HelpersPush.makeBatches.
  destruct folders as [| f folders]; [contradiction |].
  cbv beta iota zeta.
  remember (f :: folders) as all eqn:Eall. clear Eall Hne f folders.
  unfold bind at 1.
  rewrite (fold_into_shared_array _ all) with (done := []).
  - reflexivity.
  - apply Forall_forall. intros f Hin. apply shared_slot. exact Hin.
  - reflexivity.
Qed.

(** C3 fails in [src/helpers/push.ts].  With the folders [a] and [a/b]
    pending, [fill] has put one and the same array in both slots of
    [batches], so the first batch holds [a/b], a path of two segments,
    next to [a]: [a/b] is submitted in the first wave, before the id of
    [a] is recorded, and is created under the vault root; the second
    batch then creates both folders once more, [a/b] now under the first
    [a].  This is so when the closure of [a] is resumed first and when
    that of [a/b] is.  Batches by segment count would have been [[a]] and
    [[a/b]]. *)
Theorem shared_batch_array_breaks_depth_order :
  fst (HelpersPush.makeBatches [Scenario.folderA; Scenario.folderAB]
         (Scenario.start Scenario.nested))
  = Val ([0; 0], [[Scenario.folderA; Scenario.folderAB]])
  /\ map (deref [[Scenario.folderA; Scenario.folderAB]]) [0; 0]
     = [[Scenario.folderA; Scenario.folderAB];
        [Scenario.folderA; Scenario.folderAB]]
  /\ depth (tf_path Scenario.folderAB) = 2
  /\ folderPosts
       (trace (snd (HelpersPush.push 1 Scenario.nestedEnv
                      (Scenario.start Scenario.nested))))
     = [("a", Some [JS.str "ROOT"]); ("b", Some [JS.str "ROOT"]);
        ("b", Some [JS.str "folder2"]); ("a", Some [JS.str "ROOT"])]
  /\ folderPosts
       (trace (snd (HelpersPush.push 1
                      (Scenario.arriving (fun _ _ _ => false)
                         Scenario.nestedEnv)
                      (Scenario.start Scenario.nested))))
     = [("b", Some [JS.str "ROOT"]); ("a", Some [JS.str "ROOT"]);
        ("b", Some [JS.str "folder3"]); ("a", Some [JS.str "ROOT"])]
  /\ foldersToBatches tf_path [Scenario.folderA; Scenario.folderAB]
     = [[Scenario.folderA]; [Scenario.folderAB]].
Proof. repeat split; vm_compute; reflexivity. Qed.

(** Without a folder among the pending creations the length handed to
    [new Array] is [-Infinity]: [push] throws before anything is
    uploaded, and the lock stays taken. *)
Lemma creating_only_files_throws :
  fst (HelpersPush.push 1 Scenario.oneNoteEnv
         (Scenario.start Scenario.oneNote)) = Throw RangeError
  /\ trace (snd (HelpersPush.push 1 Scenario.oneNoteEnv
                   (Scenario.start Scenario.oneNote))) = []
  /\ syncing (snd (HelpersPush.push 1 Scenario.oneNoteEnv
                     (Scenario.start Scenario.oneNote))) = true.
Proof. repeat split; vm_compute; reflexivity. Qed.

(* ================================================================= *)
(** ** The report of [pull] *)

(** C6, as amended.  In [src/helpers/push.ts], when [pull] reports that
    it pulled remote objects into the local tree, [push] goes through
    the very phases it goes through when [pull] reports nothing, and
    when it reaches the commit its closing notice advises to reload;
    when a phase stops the cycle early, nothing is added. *)
Theorem reload_advised_after_pull :
  forall (fuel : nat) (env : Env) (w : World),
    syncing w = false ->
    fst (pull env (settings w)) = true ->
    match phasesOfPush fuel env (entered env w) with
    | (Val true, w') =>
        HelpersPush.push fuel env w = (Val tt, noticed reloadAdvice w')
        /\ HelpersPush.push fuel (reporting false env) w
           = (Val tt, noticed syncComplete w')
    | (Val false, w') =>
        HelpersPush.push fuel env w = (Val tt, w')
        /\ HelpersPush.push fuel (reporting false env) w = (Val tt, w')
    | (Throw e, w') =>
        HelpersPush.push fuel env w = (Throw e, w')
        /\ HelpersPush.push fuel (reporting false env) w = (Throw e, w')
    | (Diverge, w') =>
        HelpersPush.push fuel env w = (Diverge, w')
        /\ HelpersPush.push fuel (reporting false env) w = (Diverge, w')
    end.
Proof.
  intros fuel env w Hs Hp.
  rewrite (push_enters fuel env w Hs).
  rewrite (push_enters fuel (reporting false env) w Hs).
  rewrite Hp. cbn [reporting pull fst].
  change (entered (reporting false env) w) with (entered env w).
  change (HelpersPush.deletePhase fuel (reporting false env))
    with (HelpersPush.deletePhase fuel env).
  change (HelpersPush.createPhase fuel (reporting false env))
    with (HelpersPush.createPhase fuel env).
  change (HelpersPush.modifyPhase (reporting false env))
    with (HelpersPush.modifyPhase env).
  unfold phasesOfPush. unfold bind at 1. unfold getWorld at 1.
  set (w1 := entered env w). cbv zeta.
  set (ops := operations (settings w1)).
  unfold bind.
  destruct (HelpersPush.deletePhase fuel env (withOp delete ops) w1)
    as [[[] | e |] w2]; cbn [negb]; try (split; reflexivity).
  destruct (HelpersPush.createPhase fuel env (withOp create ops) w2)
    as [[[] | e |] w3]; try (split; reflexivity).
  destruct (HelpersPush.modifyPhase env (withOp modify ops) w3)
    as [[[] | e |] w4]; split; reflexivity.
Qed.

Lemma reload_advised_after_pull_witness :
  syncing (Scenario.start (mkSettings [] [])) = false
  /\ fst (pull Scenario.pulling (settings (Scenario.start (mkSettings [] []))))
     = true
  /\ notices (snd (HelpersPush.push 1 Scenario.pulling
                     (Scenario.start (mkSettings [] []))))
     = [reloadAdvice].
Proof.
  split; [reflexivity | split; [reflexivity |]].
  pose proof (reload_advised_after_pull 1 Scenario.pulling
                (Scenario.start (mkSettings [] [])) eq_refl eq_refl) as H.
  destruct (phasesOfPush 1 Scenario.pulling
              (entered Scenario.pulling (Scenario.start (mkSettings [] []))))
    as [r w'] eqn:E.
  vm_compute in E. inversion E; subst r w'.
  destruct H as [H _]. rewrite H. reflexivity.
Defined.

(** C6 as it was stated fails in the confirming variant of [push]: what
    [pull] reports is dropped, and a cycle that ran to its end after
    [pull] reported pulled files closes with the plain notice, without
    the advice to reload. *)
Lemma confirmed_push_drops_the_report :
  fst (pull Scenario.pulling (settings (Scenario.start (mkSettings [] []))))
  = true
  /\ fst (ConfirmedPush.push 1 Scenario.pulling
            (Scenario.start (mkSettings [] []))) = Val tt
  /\ notices (snd (ConfirmedPush.push 1 Scenario.pulling
                     (Scenario.start (mkSettings [] []))))
     = [syncComplete]
  /\ ~ In reloadAdvice
         (notices (snd (ConfirmedPush.push 1 Scenario.pulling
                          (Scenario.start (mkSettings [] []))))).
Proof.
  repeat split; try (vm_compute; reflexivity).
  vm_compute. intros [H | []]. discriminate.
Qed.
(* ================================================================= *)
(** ** The lock and the commit *)

(** A run of [push] in [src/helpers/push.ts] that finds the lock free
    ends in one of two ways.  Either it reaches the commit: it returns
    normally, the lock is free again and the log is empty.  Or it stops
    before (a failed search, a failed grouped delete, an exception): then
    the lock is still taken, so that every later [push] returns at once,
    and the log is as [pull] left it. *)
Theorem push_commits_or_keeps_the_lock :
  forall (fuel : nat) (env : Env) (w : World) (r : Outcome unit)
         (w' : World),
    syncing w = false ->
    HelpersPush.push fuel env w = (r, w') ->
    (r = Val tt /\ syncing w' = false /\ operations (settings w') = [])
    \/ (syncing w' = true
        /\ operations (settings w') = operations (settings (entered env w))
        /\ forall fuel' env',
             HelpersPush.push fuel' env' w' = (Val tt, w')).
Proof.
  intros fuel env w r w' Hs E.
  rewrite (push_enters fuel env w Hs) in E.
  set (w1 := entered env w) in *. set (ops := operations (settings w1)) in *.
  assert (Hstop : forall w2, keeps logAndLock w1 w2 ->
            syncing w2 = true
            /\ operations (settings w2) = ops
            /\ forall fuel' env',
                 HelpersPush.push fuel' env' w2 = (Val tt, w2)).
  { intros w2 H. apply logAndLock_inv in H. destruct H as [Ho Hl].
    cbn in Hl. repeat split; auto.
    intros fuel' env'. apply busy_push_returns. exact Hl. }
  unfold bind at 1 in E.
  pose proof (logAndLock_deletePhase fuel env (withOp delete ops) w1) as H1.
  destruct (HelpersPush.deletePhase fuel env (withOp delete ops) w1)
    as [[[] | e |] w2]; cbn [snd negb] in H1, E;
    try (inversion E; subst r w'; right; apply Hstop; exact H1).
  unfold bind at 1 in E.
  pose proof (logAndLock_createPhase fuel env (withOp create ops) w2) as H2.
  destruct (HelpersPush.createPhase fuel env (withOp create ops) w2)
    as [[[] | e |] w3]; cbn [snd] in H2, E;
    try (inversion E; subst r w'; right; apply Hstop;
         unfold keeps in *; congruence).
  unfold bind at 1 in E.
  pose proof (logAndLock_modifyPhase env (withOp modify ops) w3) as H3.
  destruct (HelpersPush.modifyPhase env (withOp modify ops) w3)
    as [[[] | e |] w4]; cbn [snd] in H3, E;
    try (inversion E; subst r w'; right; apply Hstop;
         unfold keeps in *; congruence).
  left. destruct (fst (pull env (settings w))); cbn in E;
    inversion E; subst r w'; repeat split.
Qed.

Lemma push_commits_or_keeps_the_lock_witness :
  syncing (Scenario.start Scenario.twoDeletes) = false
  /\ syncing (snd (HelpersPush.push 1 Scenario.unreachable
                     (Scenario.start Scenario.twoDeletes))) = true
  /\ operations
       (settings (snd (HelpersPush.push 1 Scenario.unreachable
                         (Scenario.start Scenario.twoDeletes))))
     = [("a.md", delete); ("b.md", delete)].
Proof.
  split; [reflexivity |].
  destruct (push_commits_or_keeps_the_lock 1 Scenario.unreachable
              (Scenario.start Scenario.twoDeletes) _ _ eq_refl
              (surjective_pairing _))
    as [(_ & H & _) | (Hl & Ho & _)].
  - vm_compute in H. discriminate.
  - split; [exact Hl | exact Ho].
Defined.

Ltac lock_chain :=
  unfold keeps, logAndLock in *;
  cbn [settings operations syncing snd fst] in *; congruence.

(** A run of the confirming [push] that finds the lock free ends in one
    of four ways.  The dialog is closed without Confirm: [push] returns,
    the lock is not taken, and the world is as the dialog left it, with
    whatever the undo handlers requested, reported and rewrote.  Or the
    session with the dialog runs out of budget, with the same outcome
    for the world.  Or the commit is reached: normal return, lock free,
    log empty.  Or the run stops in between: the lock stays taken and the
    log is as the dialog and [pull] left it. *)
Theorem confirmed_push_cancels_commits_or_keeps_the_lock :
  forall (fuel : nat) (env : Env) (w : World) (r : Outcome unit)
         (w' : World),
    syncing w = false ->
    ConfirmedPush.push fuel env w = (r, w') ->
    (fst (dialog fuel env w) = Val false
     /\ r = Val tt /\ w' = afterDialog fuel env w /\ syncing w' = false)
    \/ (fst (dialog fuel env w) = Diverge
        /\ r = Diverge /\ w' = afterDialog fuel env w /\ syncing w' = false)
    \/ (fst (dialog fuel env w) = Val true
        /\ r = Val tt /\ syncing w' = false
        /\ operations (settings w') = [])
    \/ (fst (dialog fuel env w) = Val true
        /\ syncing w' = true
        /\ operations (settings w')
           = operations (settings (confirmed fuel env w))).
Proof.
  intros fuel env w r w' Hs E.
  pose proof (dialog_keeps_the_lock fuel env w) as Hl. rewrite Hs in Hl.
  destruct (fst (dialog fuel env w)) as [[] | e |] eqn:Hm.
  2:{ left. rewrite (confirmed_push_opens_dialog fuel env w Hs), Hm in E.
      inversion E; subst r w'. auto. }
  2:{ exfalso. exact (dialog_never_throws fuel env w e Hm). }
  2:{ right. left.
      rewrite (confirmed_push_opens_dialog fuel env w Hs), Hm in E.
      inversion E; subst r w'. auto. }
  right. right.
  rewrite (confirmed_push_enters fuel env w Hs Hm) in E.
  set (w1 := confirmed fuel env w) in *.
  set (ops := operations (settings w1)) in *.
  assert (Hstop : forall w2, keeps logAndLock w1 w2 ->
            Val true = Val true /\ syncing w2 = true
            /\ operations (settings w2) = ops).
  { intros w2 H. apply logAndLock_inv in H. destruct H as [Ho Hl2].
    cbn in Hl2. auto. }
  unfold bind at 1 in E. unfold setPathsToIds at 1 in E.
  cbv beta iota in E.
  match type of E with
  | bind _ _ ?w0 = _ =>
      set (w1' := w0) in *;
      assert (H0 : keeps logAndLock w1 w1') by reflexivity
  end.
  unfold bind at 1 in E.
  pose proof (logAndLock_searchFiles fuel (drive env) configMatch false w1')
    as H1.
  destruct (searchFiles fuel (drive env) configMatch false w1')
    as [[[found |] | e |] w2]; cbn [snd] in H1, E;
    try (inversion E; subst r w'; right; apply Hstop; lock_chain).
  unfold bind at 1 in E.
  pose proof (logAndLock_staleConfig env found w2) as H2.
  destruct (ConfirmedPush.staleConfig env found w2) as [[stale | e |] w3];
    cbn [snd] in H2, E;
    try (inversion E; subst r w'; right; apply Hstop; lock_chain).
  unfold bind at 1 in E.
  pose proof (logAndLock_confirmed_deletePhase env
                (withOp delete ops ++ stale)%list w3) as H3.
  destruct (ConfirmedPush.deletePhase env (withOp delete ops ++ stale)%list w3)
    as [[[] | e |] w4]; cbn [snd negb] in H3, E;
    try (inversion E; subst r w'; right; apply Hstop; lock_chain).
  unfold bind at 1 in E. unfold setMessage at 1 in E.
  cbv beta iota in E.
  match type of E with
  | bind _ _ ?w0 = _ =>
      set (w4' := w0) in *;
      assert (H4 : keeps logAndLock w4 w4') by reflexivity
  end.
  unfold bind at 1 in E.
  pose proof (logAndLock_confirmed_createPhase fuel env (withOp create ops)
                w4') as H5.
  destruct (ConfirmedPush.createPhase fuel env (withOp create ops) w4')
    as [[[] | e |] w5]; cbn [snd] in H5, E;
    try (inversion E; subst r w'; right; apply Hstop; lock_chain).
  unfold bind at 1 in E.
  pose proof (logAndLock_confirmed_modifyPhase env (withOp modify ops) w5)
    as H6.
  destruct (ConfirmedPush.modifyPhase env (withOp modify ops) w5)
    as [[[] | e |] w6]; cbn [snd] in H6, E;
    try (inversion E; subst r w'; right; apply Hstop; lock_chain).
  unfold bind at 1 in E.
  pose proof (logAndLock_configSync fuel env w6) as H7.
  destruct (ConfirmedPush.configSync fuel env w6) as [[[] | e |] w7];
    cbn [snd] in H7, E;
    try (inversion E; subst r w'; right; apply Hstop; lock_chain).
  left. cbn in E. inversion E; subst r w'. repeat split.
Qed.

Lemma confirmed_push_cancels_commits_or_keeps_the_lock_witness :
  syncing (Scenario.start Scenario.oneDelete) = false
  /\ syncing (snd (ConfirmedPush.push 1 Scenario.agreeable
                     (Scenario.start Scenario.oneDelete))) = false
  /\ operations
       (settings (snd (ConfirmedPush.push 1 Scenario.agreeable
                         (Scenario.start Scenario.oneDelete))))
     = [].
Proof.
  split; [reflexivity |].
  destruct (confirmed_push_cancels_commits_or_keeps_the_lock 1
              Scenario.agreeable (Scenario.start Scenario.oneDelete) _ _
              eq_refl (surjective_pairing _))
    as [(H & _) | [(H & _) | [(_ & _ & Hl & Ho) | (_ & H & _)]]].
  - vm_compute in H. discriminate.
  - vm_compute in H. discriminate.
  - split; [exact Hl | exact Ho].
  - vm_compute in H. discriminate.
Defined.

(* ================================================================= *)
(** ** Edge cases of [push] in [src/helpers/push.ts] *)

Lemma withOp_nil (op : Operation) : withOp op [] = [].
Proof. reflexivity. Qed.

(** With nothing pending after [pull], [push] sends no request at all:
    it clears the (empty) log, leaves the index as [pull] left it,
    releases the lock and closes with its final notice. *)
Theorem push_with_empty_log_sends_nothing :
  forall (fuel : nat) (env : Env) (w : World),
    syncing w = false ->
    operations (settings (entered env w)) = [] ->
    exists w',
      HelpersPush.push fuel env w = (Val tt, w')
      /\ trace w' = trace w
      /\ operations (settings w') = []
      /\ driveIdToPath (settings w')
         = driveIdToPath (settings (entered env w))
      /\ syncing w' = false
      /\ notices w'
         = (notices w
            ++ [if fst (pull env (settings w)) then reloadAdvice
                else syncComplete])%list.
Proof.
  intros fuel env w Hs He.
  rewrite (push_enters fuel env w Hs). rewrite He.
  destruct (fst (pull env (settings w))); eexists;
    (split; [reflexivity | repeat split]).
Qed.

Lemma push_with_empty_log_sends_nothing_witness :
  exists w',
    HelpersPush.push 1 Scenario.agreeable
      (mkWorld (mkSettings [] [("ID_A", "a.md")]) false [] 0
         [GET_files "earlier"] [] [])
    = (Val tt, w')
    /\ trace w' = [GET_files "earlier"]
    /\ driveIdToPath (settings w') = [("ID_A", "a.md")]
    /\ syncing w' = false.
Proof.
  destruct (push_with_empty_log_sends_nothing 1 Scenario.agreeable
              (mkWorld (mkSettings [] [("ID_A", "a.md")]) false [] 0
                 [GET_files "earlier"] [] []) eq_refl eq_refl)
    as (w' & E & Ht & _ & Hi & Hl & _).
  exists w'. repeat split; assumption.
Defined.

(** When files are pending for creation and no folder is, the length
    handed to [new Array] is [-Infinity]: once the delete phase is
    through, [push] throws a [RangeError] before it sends any creation
    request.  The log is not cleared and the lock stays taken. *)
Theorem push_creating_no_folder_throws :
  forall (fuel : nat) (env : Env) (w w2 : World),
    syncing w = false ->
    HelpersPush.deletePhase fuel env
      (withOp delete (operations (settings (entered env w)))) (entered env w)
    = (Val true, w2) ->
    withOp create (operations (settings (entered env w))) <> [] ->
    instancesOf isFolder
      (map (fun e => getAbstractFileByPath (vault env) (fst e))
         (withOp create (operations (settings (entered env w)))))
    = [] ->
    fst (HelpersPush.push fuel env w) = Throw RangeError
    /\ trace (snd (HelpersPush.push fuel env w)) = trace w2
    /\ settings (snd (HelpersPush.push fuel env w)) = settings w2
    /\ operations (settings (snd (HelpersPush.push fuel env w)))
       = operations (settings (entered env w))
    /\ syncing (snd (HelpersPush.push fuel env w)) = true.
Proof.
  intros fuel env w w2 Hs Hd Hc Hf.
  pose proof (logAndLock_deletePhase fuel env
                (withOp delete (operations (settings (entered env w))))
                (entered env w)) as Hk.
  rewrite Hd in Hk. cbn [snd] in Hk.
  apply logAndLock_inv in Hk. destruct Hk as [Hops Hlock].
  assert (E : HelpersPush.push fuel env w
              = (Throw RangeError,
                 snd (setPathsToIds
                        (JS.fromEntries
                           (map swap (driveIdToPath (settings w2)))) w2))).
  { rewrite (push_enters fuel env w Hs).
    unfold bind at 1. rewrite Hd. cbn [negb].
    unfold bind at 1. unfold HelpersPush.createPhase.
    destruct (withOp create (operations (settings (entered env w))))
      as [| c cs]; [contradiction |].
    unfold bind at 1. unfold getWorld at 1.
    unfold bind at 1. unfold setPathsToIds at 1. cbv beta iota.
    unfold bind at 1. rewrite Hf. reflexivity. }
  rewrite E. cbn.
  repeat split; [exact Hops | exact Hlock].
Qed.

Lemma push_creating_no_folder_throws_witness :
  fst (HelpersPush.push 1 Scenario.oneNoteEnv
         (Scenario.start Scenario.oneNote)) = Throw RangeError
  /\ trace (snd (HelpersPush.push 1 Scenario.oneNoteEnv
                   (Scenario.start Scenario.oneNote))) = []
  /\ syncing (snd (HelpersPush.push 1 Scenario.oneNoteEnv
                     (Scenario.start Scenario.oneNote))) = true.
Proof.
  destruct (push_creating_no_folder_throws 1 Scenario.oneNoteEnv
              (Scenario.start Scenario.oneNote)
              (entered Scenario.oneNoteEnv (Scenario.start Scenario.oneNote))
              eq_refl eq_refl)
    as (Hr & Ht & _ & _ & Hl).
  - vm_compute. discriminate.
  - reflexivity.
  - repeat split; assumption.
Defined.

(** When the grouped delete itself fails (an empty answer), [push] stops
    with the notice about deleting: the one request has been sent, but
    no id is removed from the index, the log is kept, and the lock stays
    taken. *)
Theorem push_failed_delete_keeps_index_and_log :
  forall (fuel : nat) (env : Env) (w w1 : World)
         (i : string * option string) (ids : list (string * option string)),
    syncing w = false ->
    withOp delete (operations (settings (entered env w))) <> [] ->
    idsFromPaths fuel (drive env)
      (map fst (withOp delete (operations (settings (entered env w)))))
      (entered env w)
    = (Val (Some (i :: ids)), w1) ->
    post_batch (drive env) (trace w1)
      (batchBody (map (fun e => JS.str (fst e)) (i :: ids))) = "" ->
    exists w',
      HelpersPush.push fuel env w = (Val tt, w')
      /\ settings w' = settings (entered env w)
      /\ trace w'
         = (trace w1
            ++ [POST_batch
                  (batchBody (map (fun e => JS.str (fst e)) (i :: ids)))])%list
      /\ notices w' = (notices w ++ [deleteError])%list
      /\ syncing w' = true.
Proof.
  intros fuel env w w1 i ids Hs Hd Hids Hfail.
  rewrite (push_enters fuel env w Hs).
  set (w0 := entered env w) in *.
  pose proof (listed_idsFromPaths fuel (drive env)
                (map fst (withOp delete (operations (settings w0)))) w0)
    as (S1 & L1 & N1 & _).
  rewrite Hids in S1, L1, N1. cbn [snd] in S1, L1, N1.
  destruct (withOp delete (operations (settings w0))) as [| d ds] eqn:Ed;
    [contradiction |].
  unfold bind at 1. unfold HelpersPush.deletePhase. unfold bind at 1.
  rewrite Hids. unfold bind at 1. unfold batchDelete. unfold bind at 1.
  unfold request. rewrite Hfail. cbn.
  eexists. split; [reflexivity |]. cbn.
  repeat split; try assumption. rewrite N1. reflexivity.
Qed.

Lemma push_failed_delete_keeps_index_and_log_witness :
  exists w',
    HelpersPush.push 1 Cases.deleteRefused
      (Scenario.start Cases.deleteOneOfTwo) = (Val tt, w')
    /\ settings w' = Cases.deleteOneOfTwo
    /\ notices w' = [deleteError]
    /\ syncing w' = true.
Proof.
  destruct (push_failed_delete_keeps_index_and_log 1 Cases.deleteRefused
              (Scenario.start Cases.deleteOneOfTwo)
              (snd (idsFromPaths 1 (drive Cases.deleteRefused) ["old.md"]
                      (entered Cases.deleteRefused
                         (Scenario.start Cases.deleteOneOfTwo))))
              ("ID_OLD", Some "old.md") [] eq_refl)
    as (w' & E & Hs & _ & Hn & Hl).
  - vm_compute. discriminate.
  - vm_compute. reflexivity.
  - reflexivity.
  - exists w'. repeat split; assumption.
Defined.

(* ================================================================= *)
(** ** What the delete phases remove from the index *)

(** Forgetting the keys of [l] one after the other removes exactly these
    keys and touches nothing but the index. *)
Lemma forget_exactly {B} (l : list (string * B)) :
  forall w,
    exists index,
      forEach (fun e => forgetKey (fst e)) l w
      = (Val tt,
         mkWorld (mkSettings (operations (settings w)) index) (syncing w)
           (pathsToIds w) (completed w) (trace w) (notices w) (progress w))
      /\ forall id,
           JS.get index id
           = if existsb (String.eqb id) (map fst l) then None
             else JS.get (driveIdToPath (settings w)) id.
Proof.
  induction l as [| [k b] l IH]; intros w.
  - exists (driveIdToPath (settings w)). split.
    + destruct w as [[ops idx] ? ? ? ? ? ?]. reflexivity.
    + reflexivity.
  - cbn [forEach]. unfold bind. rewrite forgetKey_run. cbn [fst].
    match goal with
    | |- context [forEach _ l ?w0] => destruct (IH w0) as (index & E & Hget)
    end.
    rewrite E. exists index. split; [reflexivity |].
    intros id. rewrite Hget. cbn [map existsb settings driveIdToPath fst].
    destruct (String.eqb id k) eqn:Ek.
    + apply String.eqb_eq in Ek. subst k. cbn.
      rewrite get_delete_same.
      destruct (existsb (String.eqb id) (map fst l)); reflexivity.
    + cbn. apply String.eqb_neq in Ek.
      rewrite get_delete_other by congruence. reflexivity.
Qed.

(** After the delete phase of [src/helpers/push.ts] has gone through,
    the index has lost exactly the ids that the search resolved: each of
    them is absent, and every other id maps to what it mapped to before.
    The log is untouched. *)
Theorem push_delete_removes_exactly_the_resolved_ids :
  forall (fuel : nat) (env : Env) (deletes : JS.Obj Operation)
         (w w1 w' : World) (ids : list (string * option string)),
    deletes <> [] ->
    idsFromPaths fuel (drive env) (map fst deletes) w = (Val (Some ids), w1) ->
    HelpersPush.deletePhase fuel env deletes w = (Val true, w') ->
    (forall id,
        JS.get (driveIdToPath (settings w')) id
        = if existsb (String.eqb id) (map fst ids) then None
          else JS.get (driveIdToPath (settings w)) id)
    /\ operations (settings w') = operations (settings w).
Proof.
  intros fuel env deletes w w1 w' ids Hd Hids Hrun.
  pose proof (listed_idsFromPaths fuel (drive env) (map fst deletes) w)
    as (S1 & _).
  rewrite Hids in S1. cbn [snd] in S1.
  destruct deletes as [| d ds]; [contradiction |].
  unfold HelpersPush.deletePhase in Hrun. unfold bind at 1 in Hrun.
  rewrite Hids in Hrun. destruct ids as [| i ids].
  - inversion Hrun; subst. rewrite S1. split; reflexivity.
  - unfold bind at 1 in Hrun. unfold batchDelete in Hrun.
    unfold bind at 1 in Hrun. unfold request in Hrun.
    destruct (String.eqb _ ""); cbn [fst snd] in Hrun.
    + cbn in Hrun. discriminate.
    + unfold ret at 1 in Hrun. unfold bind at 1 in Hrun.
      match type of Hrun with
      | context [forEach _ _ ?w0] =>
          destruct (forget_exactly (i :: ids) w0) as (index & E & Hget)
      end.
      rewrite E in Hrun. inversion Hrun; subst. cbn in *.
      rewrite S1 in *. split; [exact Hget | reflexivity].
Qed.

Lemma push_delete_removes_exactly_the_resolved_ids_witness :
  JS.get (driveIdToPath
            (settings (snd (HelpersPush.deletePhase 1 Scenario.knowsOld
                              [("old.md", delete)]
                              (Scenario.start Cases.deleteOneOfTwo)))))
    "ID_OLD" = None
  /\ JS.get (driveIdToPath
               (settings (snd (HelpersPush.deletePhase 1 Scenario.knowsOld
                                 [("old.md", delete)]
                                 (Scenario.start Cases.deleteOneOfTwo)))))
       "ID_KEPT" = Some "kept.md".
Proof.
  destruct (push_delete_removes_exactly_the_resolved_ids 1 Scenario.knowsOld
              [("old.md", delete)] (Scenario.start Cases.deleteOneOfTwo)
              (snd (idsFromPaths 1 (drive Scenario.knowsOld) ["old.md"]
                      (Scenario.start Cases.deleteOneOfTwo)))
              (snd (HelpersPush.deletePhase 1 Scenario.knowsOld
                      [("old.md", delete)]
                      (Scenario.start Cases.deleteOneOfTwo)))
              [("ID_OLD", Some "old.md")])
    as [Hget _].
  - discriminate.
  - vm_compute. reflexivity.
  - vm_compute. reflexivity.
  - split; rewrite Hget; reflexivity.
Defined.

(** After the delete phase of the confirming [push] has gone through,
    the index has lost exactly the keys that are spelt like one of the
    delete paths: an id leaves the index only if it is equal, as a
    string, to a path that was deleted, and every other id, the ids of
    the deleted objects included, maps to what it mapped to before. *)
Theorem confirmed_delete_removes_keys_spelt_like_paths :
  forall (env : Env) (deletes : JS.Obj Operation) (w w' : World),
    ConfirmedPush.deletePhase env deletes w = (Val true, w') ->
    (forall id,
        JS.get (driveIdToPath (settings w')) id
        = if existsb (String.eqb id) (map fst deletes) then None
          else JS.get (driveIdToPath (settings w)) id)
    /\ operations (settings w') = operations (settings w).
Proof.
  intros env deletes w w' Hrun.
  unfold ConfirmedPush.deletePhase in Hrun.
  destruct deletes as [| d ds].
  - inversion Hrun; subst. split; reflexivity.
  - unfold bind at 1 in Hrun. unfold getWorld at 1 in Hrun.
    unfold bind at 1 in Hrun. unfold batchDelete in Hrun.
    unfold bind at 1 in Hrun. unfold request in Hrun.
    destruct (String.eqb _ ""); cbn [fst snd] in Hrun.
    + cbn in Hrun. discriminate.
    + unfold ret at 1 in Hrun. unfold bind at 1 in Hrun.
      match type of Hrun with
      | context [forEach _ _ ?w0] =>
          destruct (forget_exactly (d :: ds) w0) as (index & E & Hget)
      end.
      rewrite E in Hrun. inversion Hrun; subst. cbn in *.
      split; [exact Hget | reflexivity].
Qed.

Lemma confirmed_delete_removes_keys_spelt_like_paths_witness :
  JS.get (driveIdToPath
            (settings (snd (ConfirmedPush.deletePhase Scenario.agreeable
                              [("old.md", delete)]
                              (Scenario.start Cases.idSpeltLikePath)))))
    "ID_OLD" = Some "old.md"
  /\ JS.get (driveIdToPath
               (settings (snd (ConfirmedPush.deletePhase Scenario.agreeable
                                 [("old.md", delete)]
                                 (Scenario.start Cases.idSpeltLikePath)))))
       "old.md" = None.
Proof.
  destruct (confirmed_delete_removes_keys_spelt_like_paths Scenario.agreeable
              [("old.md", delete)] (Scenario.start Cases.idSpeltLikePath)
              (snd (ConfirmedPush.deletePhase Scenario.agreeable
                      [("old.md", delete)]
                      (Scenario.start Cases.idSpeltLikePath))))
    as [Hget _].
  - vm_compute. reflexivity.
  - split; rewrite Hget; reflexivity.
Defined.

(* ================================================================= *)
(** ** Closures that run together: what they add up to *)

Section Balance.

Variable measure : World -> Z.

Lemma owes_mapP {A B} (f : A -> B) (p : Pending A) :
  forall d, owes measure p d -> owes measure (mapP f p) d.
Proof.
  induction p as [a | e | | effect next IH]; cbn; intros d H; auto.
Qed.

Lemma owes_par {A} (combine : A -> A -> A)
    (choose : nat -> World -> bool) (p : Pending A) :
  forall (d1 : Z),
    owes measure p d1 ->
    forall (q : Pending A) (n : nat) (d2 : Z),
      owes measure q d2 ->
      owes measure (par combine choose p n q) (d1 + d2).
Proof.
  induction p as [a | e | | effect next IHp]; intros d1 Hp.
  - intros q n d2 Hq. cbn in Hp. subst d1. destruct q; cbn; auto.
    apply (owes_mapP (combine a) (Awaiting effect next)). exact Hq.
  - intros q n d2 Hq. destruct q; exact I.
  - intros q n d2 Hq. destruct q; exact I.
  - induction q as [b | e | | effect' next' IHq]; intros n d2 Hq;
      try exact I.
    + cbn in Hq. subst d2. replace (d1 + 0)%Z with d1 by lia.
      apply (owes_mapP (fun a => combine b a) (Awaiting effect next)).
      exact Hp.
    + cbn. intros w. destruct (choose n w).
      * replace (d1 + d2 - (measure (effect w) - measure w))%Z
          with ((d1 - (measure (effect w) - measure w)) + d2)%Z by lia.
        apply IHp; [apply Hp | exact Hq].
      * replace (d1 + d2 - (measure (effect' w) - measure w))%Z
          with (d1 + (d2 - (measure (effect' w) - measure w)))%Z by lia.
        apply IHq. apply Hq.
Qed.

Lemma owes_all {A} (combine : A -> A -> A) (none : A)
    (turn : nat -> nat -> World -> bool) (ps : list (Pending A))
    (ds : list Z) :
  Forall2 (owes measure) ps ds ->
  forall j,
    owes measure (all combine none turn j ps) (total (fun d => d) ds).
Proof.
  induction 1 as [| p d ps ds Hp _ IH]; intros j; cbn; [reflexivity |].
  apply owes_par; [exact Hp | apply IH].
Qed.

Lemma await_owes {A} (p : Pending A) :
  forall (d : Z) (w : World) (a : A),
    owes measure p d ->
    fst (await p w) = Val a ->
    measure (snd (await p w)) = (measure w + d)%Z.
Proof.
  induction p as [b | e | | effect next IH]; cbn; intros d w a H E;
    try discriminate.
  - subst d. lia.
  - rewrite (IH w _ (effect w) a (H w) E). lia.
Qed.

Lemma started_owe {A X} (f : X -> Async A) (d : X -> Z) :
  (forall x, owesAsync measure (f x) (d x)) ->
  forall (l : list X) (w : World),
    exists ps ds,
      fst (mapM start (map f l) w) = Val ps
      /\ Forall2 (owes measure) ps ds
      /\ (measure (snd (mapM start (map f l) w)) + total (fun d => d) ds
          = measure w + total d l)%Z.
Proof.
  intros Hf. induction l as [| x l IH]; intros w.
  - exists [], []. cbn. split; [reflexivity | split; [constructor | lia]].
  - cbn [map]. rewrite mapM_start_cons.
    destruct (IH (snd (f x w))) as (ps & ds & Eps & Hps & Hsum).
    destruct (mapM start (map f l) (snd (f x w))) as [r w2].
    cbn [fst snd] in *. subst r.
    exists (settle (fst (f x w)) :: ps),
      ((d x - (measure (snd (f x w)) - measure w))%Z :: ds).
    split; [reflexivity |]. split.
    + constructor; [apply Hf | exact Hps].
    + unfold total in *. cbn [fold_right fst snd] in *. lia.
Qed.

Lemma promiseAll_owes {A X} (env : Env) (combine : A -> A -> A) (none : A)
    (f : X -> Async A) (d : X -> Z) (l : list X) (w : World) (a : A) :
  (forall x, owesAsync measure (f x) (d x)) ->
  fst (promiseAll env combine none (map f l) w) = Val a ->
  measure (snd (promiseAll env combine none (map f l) w))
  = (measure w + total d l)%Z.
Proof.
  intros Hf. unfold promiseAll, bind.
  destruct (started_owe f d Hf l w) as (ps & ds & Eps & Hps & Hsum).
  destruct (mapM start (map f l) w) as [r w1]. cbn [fst snd] in *.
  subst r. intros E.
  rewrite (await_owes _ _ w1 a (owes_all combine none (turn env) ps ds Hps 0) E).
  lia.
Qed.

Lemma total_app {X} (d : X -> Z) (a b : list X) :
  total d (a ++ b) = (total d a + total d b)%Z.
Proof.
  unfold total. induction a as [| x a IH]; cbn [fold_right app];
    [lia | rewrite IH; lia].
Qed.

Lemma waves_owe {X} (env : Env) (f : X -> Async unit) (d : X -> Z)
    (size : nat) :
  (forall x, owesAsync measure (f x) (d x)) ->
  forall (fuel : nat) (l : list X) (w : World),
    fst (forEach (fun wave : list (Async unit) =>
                    promiseAll env (fun _ _ => tt) tt wave)
           (waves fuel size (map f l)) w) = Val tt ->
    measure (snd (forEach (fun wave : list (Async unit) =>
                             promiseAll env (fun _ _ => tt) tt wave)
                    (waves fuel size (map f l)) w))
    = (measure w + total d l)%Z.
Proof.
  intros Hf. induction fuel as [| fuel IH]; intros l w.
  - destruct l as [| x l]; [cbn; intros _; lia |].
    change (waves 0 size (map f (x :: l))) with [map f (x :: l)].
    cbn [forEach]. unfold bind at 1 2.
    pose proof (promiseAll_owes env (fun _ _ => tt) tt f d (x :: l) w tt Hf)
      as H.
    revert H.
    destruct (promiseAll env (fun _ _ => tt) tt (map f (x :: l)) w)
      as [[[] | e |] w1]; cbn [fst snd]; intros H; try discriminate.
    intros _. apply H. reflexivity.
  - destruct l as [| x l]; [cbn; intros _; lia |].
    change (waves (S fuel) size (map f (x :: l)))
      with (firstn size (map f (x :: l))
            :: waves fuel size (skipn size (map f (x :: l)))).
    replace (total d (x :: l))
      with (total d (firstn size (x :: l) ++ skipn size (x :: l)))
      by (rewrite firstn_skipn; reflexivity).
    rewrite total_app, firstn_map, skipn_map.
    remember (firstn size (x :: l)) as first eqn:Ef.
    remember (skipn size (x :: l)) as rest eqn:Er.
    cbn [forEach]. unfold bind at 1 2.
    pose proof (promiseAll_owes env (fun _ _ => tt) tt f d first w tt Hf)
      as H.
    revert H.
    destruct (promiseAll env (fun _ _ => tt) tt (map f first) w)
      as [[[] | e |] w1]; cbn [fst snd]; intros H; try discriminate.
    intros E. rewrite (IH rest w1 E), (H eq_refl). lia.
Qed.

(** When the batch has gone through, the closures have added their
    amounts to the measure, in whatever order they were resumed. *)
Lemma batchAsyncs_owes {X} (env : Env) (f : X -> Action) (d : X -> Z)
    (l : list X) (w : World) :
  (forall x, owesAsync measure (f x) (d x)) ->
  fst (batchAsyncs env (map f l) w) = Val tt ->
  measure (snd (batchAsyncs env (map f l) w)) = (measure w + total d l)%Z.
Proof. intros Hf. unfold batchAsyncs. apply waves_owe. exact Hf. Qed.

End Balance.

(* ================================================================= *)
(** ** The modify phase *)

Lemma onlyUpdated_refl (w : World) : onlyUpdated w w.
Proof.
  repeat split.
  - exists []. split; [symmetry; apply app_nil_r | constructor].
  - exists 0. symmetry. apply app_nil_r.
Qed.

Lemma onlyUpdated_trans (a b c : World) :
  onlyUpdated a b -> onlyUpdated b c -> onlyUpdated a c.
Proof.
  intros (S1 & L1 & (p1 & T1 & P1) & (k1 & N1))
    (S2 & L2 & (p2 & T2 & P2) & (k2 & N2)).
  repeat split; try congruence.
  - exists (p1 ++ p2)%list. split.
    + rewrite T2, T1, app_assoc. reflexivity.
    + apply Forall_app. split; assumption.
  - exists (k1 + k2). rewrite N2, N1, repeat_app, app_assoc. reflexivity.
Qed.

Lemma onlyUpdated_modifyAction (env : Env) (pathToId : JS.Obj string)
    (file : TAbstractFile) :
  respectsAsync onlyUpdated (HelpersPush.modifyAction env pathToId file).
Proof.
  unfold HelpersPush.modifyAction. cbv zeta.
  apply (respectsAsync_bindA onlyUpdated onlyUpdated_refl onlyUpdated_trans).
  { apply respectsAsync_later, onlyUpdated_refl. }
  intros content.
  apply (respectsAsync_bind onlyUpdated onlyUpdated_trans).
  { intros w. apply onlyUpdated_refl. }
  intros time.
  apply (respectsAsync_bindA onlyUpdated onlyUpdated_refl onlyUpdated_trans).
  { unfold Async.updateFile. cbv zeta.
    apply (respectsAsync_requestA onlyUpdated onlyUpdated_refl).
    intros w. repeat split.
    - eexists. split; [reflexivity |]. repeat constructor.
    - exists 0. symmetry. apply app_nil_r. }
  intros id'. apply respectsAsync_sync.
  destruct (JS.nonEmpty id').
  - intros w. apply onlyUpdated_refl.
  - intros w. repeat split.
    + exists []. split; [symmetry; apply app_nil_r | constructor].
    + exists 1. reflexivity.
Qed.

Lemma updatedUrls_app (a b : list Call) :
  updatedUrls (a ++ b) = (updatedUrls a ++ updatedUrls b)%list.
Proof. apply flat_map_app. Qed.

(** The closure of one modification sends one update, to the id that
    the index gave for the path when the closure was started. *)
Lemma modifyAction_updates (env : Env) (pathToId : JS.Obj string)
    (file : TAbstractFile) (url : string) :
  owesAsync (updatesTo url) (HelpersPush.modifyAction env pathToId file)
    (if string_dec (updateUrlOf (JS.index pathToId (tf_path file))) url
     then 1 else 0)%Z.
Proof.
  intros w. unfold HelpersPush.modifyAction.
  cbn -[updateUrlOf updatesTo string_dec Z.sub Z.add].
  intros w1 w2.
  destruct (JS.nonEmpty _);
    cbn -[updateUrlOf updatesTo string_dec Z.sub Z.add];
    unfold updatesTo; cbn [trace sent];
    rewrite updatedUrls_app, count_occ_app;
    cbn [updatedUrls flat_map app count_occ];
    destruct (string_dec _ url); lia.
Qed.

Lemma failedUpdates_app (drive : KyInstance) (a b past : list Call) :
  failedUpdates drive past (a ++ b)
  = failedUpdates drive past a + failedUpdates drive (past ++ a) b.
Proof.
  revert past. induction a as [| c a IH]; intros past; cbn.
  - rewrite app_nil_r. reflexivity.
  - rewrite IH, <- app_assoc. cbn. lia.
Qed.

(** Every failed update is reported by the closure that sent it. *)
Lemma modifyAction_reports (env : Env) (pathToId : JS.Obj string)
    (file : TAbstractFile) :
  owesAsync (unreported (drive env))
    (HelpersPush.modifyAction env pathToId file) 0%Z.
Proof.
  intros w. unfold HelpersPush.modifyAction.
  cbn -[updateUrlOf unreported Z.sub Z.add].
  intros w1 w2.
  destruct (JS.nonEmpty _) eqn:E;
    cbn -[updateUrlOf unreported Z.sub Z.add];
    unfold unreported; cbn [trace sent notices];
    rewrite failedUpdates_app; cbn [failedUpdates fails app];
    rewrite E; rewrite ?length_app; cbn [length]; lia.
Qed.

Lemma total_indicator {X} (f : X -> string) (url : string) (l : list X) :
  total (fun x => if string_dec (f x) url then 1 else 0)%Z l
  = Z.of_nat (count_occ string_dec (map f l) url).
Proof.
  unfold total. induction l as [| x l IH]; cbn [fold_right map count_occ];
    [reflexivity |].
  rewrite IH. destruct (string_dec (f x) url); lia.
Qed.

Lemma total_zero {X} (l : list X) : total (fun _ => 0%Z) l = 0%Z.
Proof. unfold total. induction l; cbn; auto. Qed.

Lemma modifyPhase_is_one_batch (env : Env) (m : string * Operation)
    (modifies : JS.Obj Operation) (w : World) :
  HelpersPush.modifyPhase env (m :: modifies) w
  = batchAsyncs env
      (map (HelpersPush.modifyAction env
              (JS.fromEntries (map swap (driveIdToPath (settings w)))))
         (modifiedFiles env (m :: modifies))) w.
Proof. reflexivity. Qed.

(** The modify phase of [src/helpers/push.ts] always runs to its end.
    In whatever order the closures are resumed, it sends exactly one
    content update per pending modification whose file still exists in
    the vault, each to the id that the index gives for the path (a path
    that the index does not hold is sent to the id spelt [undefined]); a
    modification whose file is gone is skipped without a word.  It sends
    nothing else, shows the notice about modifying once for each update
    that failed and no other notice, and leaves the settings and the lock
    as they were. *)
Theorem modify_phase_one_update_per_existing_file :
  forall (env : Env) (modifies : JS.Obj Operation) (w : World),
    exists w' patches,
      HelpersPush.modifyPhase env modifies w = (Val tt, w')
      /\ settings w' = settings w /\ syncing w' = syncing w
      /\ trace w' = (trace w ++ patches)%list
      /\ Forall isPATCH patches
      /\ Permutation (updatedUrls patches)
           (map (fun f =>
                   updateUrlOf
                     (JS.index
                        (JS.fromEntries
                           (map swap (driveIdToPath (settings w))))
                        (tf_path f)))
              (modifiedFiles env modifies))
      /\ notices w'
         = (notices w
            ++ repeat modifyError
                 (failedUpdates (drive env) (trace w) patches))%list.
Proof.
  intros env modifies w. destruct modifies as [| m modifies].
  { exists w, []. cbn. rewrite !app_nil_r.
    repeat split; constructor. }
  pose proof (settles_modifyPhase env (m :: modifies) w) as Hval.
  rewrite modifyPhase_is_one_batch in *.
  set (pathToId := JS.fromEntries (map swap (driveIdToPath (settings w))))
    in *.
  set (files := modifiedFiles env (m :: modifies)) in *.
  pose proof (respects_batchAsyncs onlyUpdated onlyUpdated_refl
                onlyUpdated_trans env
                (map (HelpersPush.modifyAction env pathToId) files)
                (Forall_map_all _ _ _
                   (onlyUpdated_modifyAction env pathToId)) w)
    as (Hs & Hl & (patches & Ht & Hp) & (k & Hn)).
  pose proof (fun url =>
                batchAsyncs_owes (updatesTo url) env
                  (HelpersPush.modifyAction env pathToId) _ files w
                  (fun file => modifyAction_updates env pathToId file url)
                  Hval) as Hurls.
  pose proof (batchAsyncs_owes (unreported (drive env)) env
                (HelpersPush.modifyAction env pathToId) _ files w
                (modifyAction_reports env pathToId) Hval) as Hrep.
  destruct (batchAsyncs env (map (HelpersPush.modifyAction env pathToId) files)
              w) as [r w'].
  cbn [fst snd] in *. subst r.
  exists w', patches. repeat split; auto.
  - apply (Permutation_count_occ string_dec). intros url.
    specialize (Hurls url). unfold updatesTo in Hurls.
    rewrite Ht, updatedUrls_app, count_occ_app, total_indicator in Hurls.
    lia.
  - rewrite Hn. f_equal. f_equal.
    unfold unreported in Hrep.
    rewrite Ht, failedUpdates_app, Hn, length_app, repeat_length,
      total_zero in Hrep.
    cbn [app] in Hrep. lia.
Qed.

Lemma modify_phase_one_update_per_existing_file_witness :
  exists w' patches,
    HelpersPush.modifyPhase Scenario.oneFails
      [("a.md", modify); ("b.md", modify)]
      (Scenario.start Scenario.twoModifies)
    = (Val tt, w')
    /\ trace w' = patches
    /\ Permutation (updatedUrls patches)
         [Scenario.updateUrl "ID_A"; Scenario.updateUrl "ID_B"]
    /\ notices w' = [modifyError].
Proof.
  destruct (modify_phase_one_update_per_existing_file Scenario.oneFails
              [("a.md", modify); ("b.md", modify)]
              (Scenario.start Scenario.twoModifies))
    as (w' & patches & E & _ & _ & Ht & _ & Hperm & Hn).
  exists w', patches. cbn [Scenario.start trace notices app] in Ht, Hn.
  split; [exact E |]. split; [exact Ht |]. split; [exact Hperm |].
  rewrite Hn, <- Ht.
  replace w' with (snd (HelpersPush.modifyPhase Scenario.oneFails
                          [("a.md", modify); ("b.md", modify)]
                          (Scenario.start Scenario.twoModifies)))
    by (rewrite E; reflexivity).
  vm_compute. reflexivity.
Defined.
(* ================================================================= *)
(** ** The confirming variant: listing the configuration objects *)

(** When the listing of the configuration objects fails, the confirming
    [push] stops with the notice about fetching before it deletes,
    creates or updates anything: since the dialog was confirmed it has
    sent listing requests only, the settings are as the dialog and [pull]
    left them, and the lock stays taken. *)
Theorem confirmed_push_stops_when_config_listing_fails :
  forall (fuel : nat) (env : Env) (w : World),
    syncing w = false ->
    fst (dialog fuel env w) = Val true ->
    fst (searchFiles fuel (drive env) configMatch false
           (snd (setPathsToIds
                   (JS.fromEntries
                      (map swap
                         (driveIdToPath (settings (confirmed fuel env w)))))
                   (confirmed fuel env w))))
    = Val None ->
    exists w',
      ConfirmedPush.push fuel env w = (Val tt, w')
      /\ settings w' = settings (confirmed fuel env w)
      /\ notices w'
         = (notices (afterDialog fuel env w) ++ [fetchError])%list
      /\ syncing w' = true
      /\ exists gets,
           trace w' = (trace (afterDialog fuel env w) ++ gets)%list
           /\ Forall isGET gets.
Proof.
  intros fuel env w Hs Hm Hnone.
  rewrite (confirmed_push_enters fuel env w Hs Hm).
  unfold bind at 1. unfold setPathsToIds at 1. cbv beta iota.
  unfold setPathsToIds in Hnone. cbn [snd] in Hnone.
  unfold bind at 1.
  match goal with
  | |- context [searchFiles fuel (drive env) configMatch false ?w0] =>
      pose proof (listed_searchFiles fuel (drive env) configMatch false w0)
        as (S1 & L1 & N1 & gets & T1 & G1);
      destruct (searchFiles fuel (drive env) configMatch false w0)
        as [r w2]
  end.
  cbn [fst snd] in *. subst r.
  eexists. split; [reflexivity |]. cbn.
  repeat split; try assumption.
  - rewrite N1. reflexivity.
  - exists gets. split; assumption.
Qed.

Lemma confirmed_push_stops_when_config_listing_fails_witness :
  exists w',
    ConfirmedPush.push 1 Scenario.unreachable
      (Scenario.start Scenario.twoDeletes) = (Val tt, w')
    /\ settings w' = Scenario.twoDeletes
    /\ notices w' = [fetchError]
    /\ syncing w' = true.
Proof.
  destruct (confirmed_push_stops_when_config_listing_fails 1
              Scenario.unreachable (Scenario.start Scenario.twoDeletes)
              eq_refl eq_refl)
    as (w' & E & Hs & Hn & Hl & _).
  - vm_compute. reflexivity.
  - exists w'. repeat split; assumption.
Defined.

(** *** What closures that run together yield *)

Lemma results_mapP {A B} (Q : A -> Prop) (Q' : B -> Prop) (f : A -> B)
    (p : Pending A) :
  (forall a, Q a -> Q' (f a)) -> results Q p -> results Q' (mapP f p).
Proof.
  intros Hf. induction p as [a | e | | effect next IH]; cbn; auto.
Qed.

Lemma sameElements_app {A} (a b s1 s2 : list A) :
  sameElements a s1 -> sameElements b s2 ->
  sameElements (a ++ b) (s1 ++ s2).
Proof.
  intros Ha Hb x. rewrite !in_app_iff, (Ha x), (Hb x). reflexivity.
Qed.

Lemma sameElements_app_swap {A} (a b s1 s2 : list A) :
  sameElements a s1 -> sameElements b s2 ->
  sameElements (b ++ a) (s1 ++ s2).
Proof.
  intros Ha Hb x. rewrite !in_app_iff, (Ha x), (Hb x). tauto.
Qed.

(** Two closures that push onto the same array: whichever is resumed
    first, the array ends up with what both push. *)
Lemma results_par_app {E} (choose : nat -> World -> bool)
    (s1 s2 : list E) (p : Pending (list E)) :
  results (fun l => sameElements l s1) p ->
  forall (q : Pending (list E)) (n : nat),
    results (fun l => sameElements l s2) q ->
    results (fun l => sameElements l (s1 ++ s2))
      (par (@app E) choose p n q).
Proof.
  induction p as [a | e | | effect next IHp]; intros Hp.
  - intros q n Hq. destruct q; cbn in *; auto.
    + apply sameElements_app; assumption.
    + intros w. apply (results_mapP (fun l => sameElements l s2)).
      * intros b Hb. apply sameElements_app; assumption.
      * apply Hq.
  - intros q n Hq. destruct q; exact I.
  - intros q n Hq. destruct q; exact I.
  - induction q as [b | e | | effect' next' IHq]; intros n Hq;
      try exact I.
    + cbn in *. intros w.
      apply (results_mapP (fun l => sameElements l s1)).
      * intros a Ha. apply sameElements_app_swap; assumption.
      * apply Hp.
    + cbn. intros w. destruct (choose n w).
      * apply IHp; [apply Hp | exact Hq].
      * apply IHq. apply Hq.
Qed.

Lemma results_all_app {E} (turn : nat -> nat -> World -> bool)
    (ps : list (Pending (list E))) (ss : list (list E)) :
  Forall2 (fun p s => results (fun l => sameElements l s) p) ps ss ->
  forall j,
    results (fun l => sameElements l (concat ss)) (all (@app E) [] turn j ps).
Proof.
  induction 1 as [| p s ps ss Hp _ IH]; intros j; cbn.
  - intros x. reflexivity.
  - apply results_par_app; [exact Hp | apply IH].
Qed.

Lemma await_results {A} (Q : A -> Prop) (p : Pending A) :
  results Q p ->
  forall (w : World) (a : A), fst (await p w) = Val a -> Q a.
Proof.
  induction p as [b | e | | effect next IH]; cbn; intros H w a E;
    try discriminate.
  - inversion E; subst. exact H.
  - apply (IH w (H w) (effect w) a E).
Qed.

Lemma started_results {A X} (f : X -> Async (list A)) (s : X -> list A) :
  (forall x w, results (fun l => sameElements l (s x)) (settle (fst (f x w)))) ->
  forall (l : list X) (w : World),
    exists ps,
      fst (mapM start (map f l) w) = Val ps
      /\ Forall2 (fun p s => results (fun l => sameElements l s) p) ps
           (map s l).
Proof.
  intros Hf. induction l as [| x l IH]; intros w.
  - exists []. split; [reflexivity | constructor].
  - cbn [map]. rewrite mapM_start_cons.
    destruct (IH (snd (f x w))) as (ps & Eps & Hps).
    destruct (mapM start (map f l) (snd (f x w))) as [r w2].
    cbn [fst snd] in *. subst r. eexists. split; [reflexivity |].
    constructor; [apply Hf | exact Hps].
Qed.

Lemma staleAction_yields (env : Env) (f : FileMetadata) (w : World) :
  results (fun l => sameElements l (staleEntry env f))
    (settle (fst (ConfirmedPush.staleAction env f w))).
Proof.
  unfold ConfirmedPush.staleAction, staleEntry.
  destruct (properties f) as [props |]; cbn; [| exact I].
  intros w' x. reflexivity.
Qed.

Lemma staleEntry_In (env : Env) (found : list FileMetadata)
    (e : string * Operation) :
  In e (concat (map (staleEntry env) found))
  <-> exists f props,
        In f found /\ properties f = Some props
        /\ exists_ (vault env) (JS.get props "path") = false
        /\ e = (JS.template (JS.get props "path"), delete).
Proof.
  rewrite in_concat. split.
  - intros (l & Hl & He). apply in_map_iff in Hl.
    destruct Hl as (f & <- & Hf). unfold staleEntry in He.
    destruct (properties f) as [props |] eqn:Ep; [| contradiction].
    destruct (exists_ (vault env) (JS.get props "path")) eqn:Ex;
      [contradiction |].
    destruct He as [<- | []]. exists f, props. auto.
  - intros (f & props & Hf & Ep & Ex & ->).
    exists (staleEntry env f). split; [apply in_map; exact Hf |].
    unfold staleEntry. rewrite Ep, Ex. left. reflexivity.
Qed.

(** The configuration objects that the confirming [push] adds to the
    deletions are exactly those whose path no longer exists locally:
    each added entry is a deletion of the path of a listed object that
    the adapter does not find, and every listed object that the adapter
    does not find is added.  The step itself changes nothing. *)
Theorem stale_config_is_what_no_longer_exists :
  forall (env : Env) (found : list FileMetadata) (w w' : World)
         (stale : JS.Obj Operation),
    ConfirmedPush.staleConfig env found w = (Val stale, w') ->
    w' = w
    /\ (forall e,
           In e stale
           <-> exists f props,
                 In f found /\ properties f = Some props
                 /\ exists_ (vault env) (JS.get props "path") = false
                 /\ e = (JS.template (JS.get props "path"), delete)).
Proof.
  intros env found w w' stale E. split.
  - pose proof (kept_staleConfig World (fun w => w) env found w) as H.
    rewrite E in H. exact H.
  - intros e. rewrite <- staleEntry_In.
    destruct (started_results (ConfirmedPush.staleAction env)
                (staleEntry env) (staleAction_yields env) found w)
      as (ps & Eps & Hps).
    unfold ConfirmedPush.staleConfig, promiseAll in E.
    unfold bind at 1 in E. revert E.
    destruct (mapM start _ w) as [r w1] eqn:Em. intros E.
    cbn [fst] in Eps. subst r.
    apply (await_results _ _ (results_all_app (turn env) ps _ Hps 0) w1).
    rewrite E. reflexivity.
Qed.

Lemma stale_config_is_what_no_longer_exists_witness :
  fst (ConfirmedPush.staleConfig Cases.keepsApp Cases.configListed
         (Scenario.start (mkSettings [] [])))
  = Val [(".obsidian/gone.json", delete)]
  /\ In (".obsidian/gone.json", delete)
       [(".obsidian/gone.json", delete)].
Proof.
  assert (E : ConfirmedPush.staleConfig Cases.keepsApp Cases.configListed
                (Scenario.start (mkSettings [] []))
              = (Val [(".obsidian/gone.json", delete)],
                 Scenario.start (mkSettings [] []))).
  { vm_compute. reflexivity. }
  split; [rewrite E; reflexivity |].
  destruct (stale_config_is_what_no_longer_exists Cases.keepsApp
              Cases.configListed _ _ _ E) as [_ Hin].
  apply Hin.
  exists (Cases.configObject "C2" ".obsidian/gone.json"),
    [("path", ".obsidian/gone.json"); ("config", "true")].
  repeat split. cbn. auto.
Defined.
(* ================================================================= *)
(** ** The undo of the confirmation dialog *)











Lemma bind_run {A B} (c : M A) (k : A -> M B) (w : World) :
  bind c k w
  = match c w with
    | (Val a, w') => k a w'
    | (Throw e, w') => (Throw e, w')
    | (Diverge, w') => (Diverge, w')
    end.
Proof. unfold bind. destruct (c w) as [[a | e |] w']; reflexivity. Qed.




Lemma onclick_stays (fuel : nat) (env : Env) (shown : JS.Obj Operation)
    (path : string) (op : Operation) (g : Gesture) (w w1 : World) :
  g_confirm g = true ->
  Dialog.ConfirmUndoModal fuel env op (nestedFiles shown path) (g_found g) w
  = (Val false, w1) ->
  Dialog.onclick fuel env shown path op g w = (Val (Some shown), w1).
Proof.
  intros Hg E. unfold Dialog.onclick. cbv zeta.
  rewrite bind_run, Hg, E. reflexivity.
Qed.




Lemma isFolderPath_keeps (pathToFile : JS.Obj FileMetadata) (path : string)
    (w : World) :
  snd (Dialog.isFolderPath pathToFile path w) = w.
Proof.
  unfold Dialog.isFolderPath.
  destruct (JS.get pathToFile path) as [file |]; [| reflexivity].
  destruct (properties file); reflexivity.
Qed.

Lemma isFolderPath_result (pathToFile : JS.Obj FileMetadata) (path : string)
    (w : World) :
  (exists b, fst (Dialog.isFolderPath pathToFile path w) = Val b)
  \/ fst (Dialog.isFolderPath pathToFile path w) = Throw TypeError.
Proof.
  unfold Dialog.isFolderPath.
  destruct (JS.get pathToFile path) as [file |]; [| right; reflexivity].
  destruct (properties file); [left; eexists | right]; reflexivity.
Qed.

(** Filtering the paths throws as soon as one of them was not found. *)
Lemma filter_throws_on_a_missing_path (pathToFile : JS.Obj FileMetadata)
    (paths : list string) (missing : string) (w : World) :
  In missing paths ->
  JS.get pathToFile missing = None ->
  filterM (Dialog.isFolderPath pathToFile) paths w = (Throw TypeError, w).
Proof.
  intros Hin Hnone. induction paths as [| p paths IH]; [contradiction |].
  cbn [filterM]. rewrite bind_run.
  pose proof (isFolderPath_keeps pathToFile p w) as Hk.
  pose proof (isFolderPath_result pathToFile p w) as Hr.
  destruct (Dialog.isFolderPath pathToFile p w) as [r w1] eqn:Ei.
  cbn [fst snd] in *. subst w1.
  destruct Hr as [[b ->] | ->]; [| reflexivity].
  destruct Hin as [-> | Hin].
  - unfold Dialog.isFolderPath in Ei. rewrite Hnone in Ei. discriminate.
  - rewrite bind_run, (IH Hin). reflexivity.
Qed.

Lemma keyed_run (f : FileMetadata) (w : World) :
  Dialog.keyed f w
  = match properties f with
    | Some p => (Val (JS.template (JS.get p "path"), f), w)
    | None => (Throw TypeError, w)
    end.
Proof. unfold Dialog.keyed. destruct (properties f); reflexivity. Qed.

Lemma keyed_all (files : list FileMetadata) (w : World) :
  (exists entries,
      mapM Dialog.keyed files w = (Val entries, w)
      /\ forall k f, In (k, f) entries ->
           In f files
           /\ exists props, properties f = Some props
                            /\ k = JS.template (JS.get props "path"))
  \/ mapM Dialog.keyed files w = (Throw TypeError, w).
Proof.
  induction files as [| f files IH].
  - left. exists []. split; [reflexivity | intros k f []].
  - cbn [mapM]. rewrite !bind_run, keyed_run.
    destruct (properties f) as [props |] eqn:Ep; [| right; reflexivity].
    rewrite !bind_run.
    destruct IH as [(entries & E & Hall) | E]; rewrite E;
      [left | right; reflexivity].
    eexists. split; [reflexivity |].
    intros k f0 [Heq | Hin].
    + inversion Heq; subst. split; [left; reflexivity | eauto].
    + destruct (Hall k f0 Hin) as [Hf Hp]. split; [right; exact Hf | exact Hp].
Qed.

(** The undo of a deletion restores nothing unless the search finds an
    object for every path to restore: when one is not found, the handler
    throws on reading it, after the listing requests and before anything
    is restored.  The entries then stay in the dialog and in the log. *)
Theorem undo_of_a_delete_needs_every_path_found :
  forall (fuel : nat) (env : Env) (shown : JS.Obj Operation) (path : string)
         (g : Gesture) (w w1 : World) (files : list FileMetadata)
         (missing : string),
    g_confirm g = true ->
    searchFiles fuel (drive env)
      (mkListData
         (Some (map (fun path => [Fproperties [("path", path)]])
                  (nestedFiles shown path)))
         None (Some Dialog.undoInclude)) false w
    = (Val (Some files), w1) ->
    In missing (nestedFiles shown path) ->
    (forall f props,
        In f files -> properties f = Some props ->
        JS.template (JS.get props "path") <> missing) ->
    Dialog.handleDelete fuel env
      (JS.fromEntries (map swap (driveIdToPath (settings w))))
      (nestedFiles shown path) w
    = (Throw TypeError, w1)
    /\ Dialog.onclick fuel env shown path delete g w = (Val (Some shown), w1)
    /\ settings w1 = settings w.
Proof.
  intros fuel env shown path g w w1 files missing Hg Es Hin Hmiss.
  assert (Hd : Dialog.handleDelete fuel env
                 (JS.fromEntries (map swap (driveIdToPath (settings w))))
                 (nestedFiles shown path) w
               = (Throw TypeError, w1)).
  { unfold Dialog.handleDelete. rewrite bind_run, Es. rewrite bind_run.
    destruct (keyed_all files w1) as [(entries & E & Hall) | E]; rewrite E;
      [| reflexivity].
    cbv zeta. rewrite bind_run.
    rewrite (filter_throws_on_a_missing_path _ _ missing w1 Hin);
      [reflexivity |].
    destruct (JS.get (JS.fromEntries entries) missing) as [f |] eqn:Eg;
      [| reflexivity].
    exfalso. rewrite get_fromEntries in Eg. apply get_In, in_rev in Eg.
    destruct (Hall _ _ Eg) as (Hf & props & Hp & Hk).
    apply (Hmiss f props Hf Hp). symmetry. exact Hk. }
  split; [exact Hd |]. split.
  - apply onclick_stays; [exact Hg |].
    unfold Dialog.ConfirmUndoModal. rewrite bind_run. cbn [getWorld].
    unfold Dialog.attempt. rewrite Hd. reflexivity.
  - pose proof (listed_searchFiles fuel (drive env)
                  (mkListData
                     (Some (map (fun path => [Fproperties [("path", path)]])
                              (nestedFiles shown path)))
                     None (Some Dialog.undoInclude)) false w) as (S1 & _).
    rewrite Es in S1. exact S1.
Qed.

Lemma undo_of_a_delete_needs_every_path_found_witness :
  exists w1,
    Dialog.onclick 3 Cases.findsOnlyA [("a", delete); ("a/b.md", delete)]
      "a" delete (mkGesture "a" true None)
      (Scenario.start Cases.folderAndFile)
    = (Val (Some [("a", delete); ("a/b.md", delete)]), w1)
    /\ settings w1 = Cases.folderAndFile.
Proof.
  exists (snd (searchFiles 3 (drive Cases.findsOnlyA)
                 (mkListData
                    (Some [[Fproperties [("path", "a")]];
                           [Fproperties [("path", "a/b.md")]]])
                    None (Some Dialog.undoInclude)) false
                 (Scenario.start Cases.folderAndFile))).
  destruct (undo_of_a_delete_needs_every_path_found 3 Cases.findsOnlyA
              [("a", delete); ("a/b.md", delete)] "a"
              (mkGesture "a" true None) (Scenario.start Cases.folderAndFile)
              (snd (searchFiles 3 (drive Cases.findsOnlyA)
                      (mkListData
                         (Some [[Fproperties [("path", "a")]];
                                [Fproperties [("path", "a/b.md")]]])
                         None (Some Dialog.undoInclude)) false
                      (Scenario.start Cases.folderAndFile)))
              [Scenario.remoteFile "ID_A" "a"] "a/b.md" eq_refl)
    as (_ & Ho & Hs).
  - vm_compute. reflexivity.
  - vm_compute. auto.
  - intros f props [<- | []] Hp. inversion Hp; subst props.
    vm_compute. discriminate.
  - split; [exact Ho | exact Hs].
Defined.
(* ================================================================= *)
(** ** Creating folders and files in [src/helpers/push.ts] *)

(** In [src/helpers/push.ts] every slot of [batches] refers to the one
    array that [fill] was given: there are as many batches as the deepest
    pending folder has segments, and every batch holds every pending
    folder, in the order of the log.  The index [depth - 1] is always in
    range, so building the batches never throws for a non-empty list. *)
Theorem every_batch_holds_every_folder :
  forall (folders : list TAbstractFile) (w : World),
    folders <> [] ->
    exists batches heap,
      HelpersPush.makeBatches folders w = (Val (batches, heap), w)
      /\ length batches
         = list_max (map (fun f => depth (tf_path f)) folders)
      /\ 1 <= length batches
      /\ forall r, In r batches -> deref heap r = folders.
Proof.
  intros folders w Hne.
  exists (repeat 0 (list_max (map (fun f => depth (tf_path f)) folders))),
    [folders].
  split; [apply makeBatches_one_shared_array; exact Hne |].
  rewrite repeat_length. repeat split.
  - destruct folders as [| f folders]; [contradiction |].
    pose proof (depth_positive (tf_path f)) as Hp. cbn [map list_max].
    cbn. lia.
  - intros r Hr. apply repeat_spec in Hr. subst r. reflexivity.
Qed.

Lemma every_batch_holds_every_folder_witness :
  exists batches heap,
    HelpersPush.makeBatches [Scenario.folderA; Scenario.folderAB]
      (Scenario.start Scenario.nested)
    = (Val (batches, heap), Scenario.start Scenario.nested)
    /\ length batches = 2
    /\ forall r, In r batches ->
                 deref heap r = [Scenario.folderA; Scenario.folderAB].
Proof.
  destruct (every_batch_holds_every_folder
              [Scenario.folderA; Scenario.folderAB]
              (Scenario.start Scenario.nested))
    as (batches & heap & E & Hlen & _ & Hall).
  - discriminate.
  - exists batches, heap. repeat split; assumption.
Defined.


Lemma await_started {A} (c : Async A) (w : World) :
  await (settle (fst (c w))) (snd (c w)) = awaited c w.
Proof.
  unfold awaited, bind. destruct (c w) as [[p | e |] w1]; reflexivity.
Qed.

(** What recording a created object changes. *)
Lemma record_both_ways (i path : string) (w : World) :
  (recordId i path ;; indexPath path i) w
  = (Val tt,
     mkWorld
       (mkSettings (operations (settings w))
          (JS.assign (driveIdToPath (settings w)) i path))
       (syncing w) (JS.assign (pathsToIds w) path i) (completed w)
       (trace w) (notices w) (progress w)).
Proof. reflexivity. Qed.

Lemma record_one_way (i path : string) (w : World) :
  recordId i path w
  = (Val tt,
     mkWorld
       (mkSettings (operations (settings w))
          (JS.assign (driveIdToPath (settings w)) i path))
       (syncing w) (pathsToIds w) (completed w) (trace w) (notices w)
       (progress w)).
Proof. reflexivity. Qed.

Lemma folderAction_alone (fuel : nat) (env : Env) (folder : TAbstractFile)
    (w : World) :
  awaited (HelpersPush.folderAction fuel env folder) w
  = (id <- createFolder fuel (drive env)
             (mkFolderArgs (tf_name folder) (parentId (pathsToIds w) folder)
                None (Some [("path", tf_path folder)])) ;;
     match JS.nonEmpty id with
     | None => Notice folderError
     | Some id =>
         recordId id (tf_path folder) ;; indexPath (tf_path folder) id
     end) w.
Proof.
  unfold HelpersPush.folderAction.
  rewrite awaited_bind. unfold bind at 1, getWorld at 1. cbv zeta.
  rewrite awaited_bindA. unfold bind at 1 3.
  rewrite awaited_createFolder.
  destruct (createFolder fuel (drive env) _ w) as [[id | e |] w1];
    try reflexivity.
  apply awaited_sync.
Qed.

(** The closure that creates a folder fixes its request when it is
    called: the call looks the parent up in [pathsToIds] and sends the
    first request of [createFolder], which is the creation itself when
    the parent is known and the search for the vault root otherwise.
    When the parent is known, the closure then waits for one answer, and
    whatever is recorded before it is resumed, it records the id that
    this answer holds, or shows the notice about folders when it holds
    none.  Run alone it is [createFolder] followed by the recording:
    when the creation returns an id, [driveIdToPath[id] = path] and
    [pathsToIds[path] = id] are assigned and nothing else changes; when
    it returns no id there is only the notice about folders. *)
Theorem folder_creation_records_the_pair :
  forall (fuel : nat) (env : Env) (folder : TAbstractFile) (w : World),
    let parent := parentId (pathsToIds w) folder in
    let args :=
      mkFolderArgs (tf_name folder) parent None
        (Some [("path", tf_path folder)]) in
    snd (HelpersPush.folderAction fuel env folder w)
    = sent (if JS.isTruthy parent
            then POST_files (folderJson args parent)
            else GET_files (listUrl vaultMatch None (Some 1000))) w
    /\ (JS.isTruthy parent = true ->
        exists effect next,
          fst (HelpersPush.folderAction fuel env folder w)
          = Val (Awaiting effect next)
          /\ forall w',
               next w' = Settled tt
               /\ effect w'
                  = match JS.nonEmpty
                            (post_files (drive env) (trace w)
                               (folderJson args parent)) with
                    | Some i =>
                        snd ((recordId i (tf_path folder) ;;
                              indexPath (tf_path folder) i) w')
                    | None => noticed folderError w'
                    end)
    /\ match createFolder fuel (drive env) args w with
       | (Val created, w2) =>
           match JS.nonEmpty created with
           | Some i =>
               exists w3,
                 awaited (HelpersPush.folderAction fuel env folder) w
                 = (Val tt, w3)
                 /\ driveIdToPath (settings w3)
                    = JS.assign (driveIdToPath (settings w2)) i
                        (tf_path folder)
                 /\ pathsToIds w3
                    = JS.assign (pathsToIds w2) (tf_path folder) i
                 /\ (i <> "__proto__" ->
                     JS.get (driveIdToPath (settings w3)) i
                     = Some (tf_path folder))
                 /\ (tf_path folder <> "__proto__" ->
                     JS.get (pathsToIds w3) (tf_path folder) = Some i)
                 /\ operations (settings w3) = operations (settings w2)
                 /\ trace w3 = trace w2
                 /\ notices w3 = notices w2
           | None =>
               awaited (HelpersPush.folderAction fuel env folder) w
               = (Val tt, noticed folderError w2)
           end
       | (Throw e, w2) =>
           awaited (HelpersPush.folderAction fuel env folder) w
           = (Throw e, w2)
       | (Diverge, w2) =>
           awaited (HelpersPush.folderAction fuel env folder) w
           = (Diverge, w2)
       end.
Proof.
  intros fuel env folder w parent args. split; [| split].
  - unfold HelpersPush.folderAction. unfold bind at 1, getWorld at 1.
    cbv zeta. fold parent. fold args.
    unfold Async.createFolder. cbn [a_parent args].
    destruct (JS.isTruthy parent); reflexivity.
  - intros Ht. unfold HelpersPush.folderAction.
    unfold bind at 1, getWorld at 1. cbv zeta. fold parent. fold args.
    unfold Async.createFolder. cbn [a_parent args]. rewrite Ht.
    eexists. eexists. split; [reflexivity |].
    intros w'. cbn beta. cbn [andThen].
    destruct (JS.nonEmpty (post_files (drive env) (trace w)
                             (folderJson args parent))); split; reflexivity.
  - rewrite folderAction_alone. fold parent. fold args. rewrite bind_run.
    destruct (createFolder fuel (drive env) args w) as [[created | e |] w2];
      try reflexivity.
    destruct (JS.nonEmpty created) as [i |]; [| reflexivity].
    rewrite record_both_ways. eexists. split; [reflexivity |].
    cbn [settings driveIdToPath pathsToIds operations trace notices].
    repeat split; intros Hne; apply get_assign_same; exact Hne.
Qed.

Lemma noteAction_resumed (fuel : nat) (env : Env) (note : TAbstractFile)
    (w' : World) :
  awaited
    (w <- getWorld ;;
     time <- toISOString env ;;
     id <~ Async.uploadFile fuel (drive env)
             (mkBlob (readBinary (vault env) (tf_path note)) "")
             (tf_name note) (parentId (pathsToIds w) note)
             (stamped (pathProperty (tf_path note)) time) ;;
     sync (match JS.nonEmpty id with
           | None => Notice fileError
           | Some id => recordId id (tf_path note)
           end)) w'
  = (id <- uploadFile fuel (drive env)
             (mkBlob (readBinary (vault env) (tf_path note)) "")
             (tf_name note) (parentId (pathsToIds w') note)
             (stamped (pathProperty (tf_path note)) (now env (trace w'))) ;;
     match JS.nonEmpty id with
     | None => Notice fileError
     | Some id => recordId id (tf_path note)
     end) w'.
Proof.
  rewrite awaited_bind. unfold bind at 1, getWorld at 1.
  rewrite awaited_bind. unfold bind at 1, toISOString at 1.
  rewrite awaited_bindA, !bind_run, awaited_uploadFile.
  destruct (uploadFile fuel (drive env) _ _ _ _ w') as [[id | e |] w1];
    try reflexivity.
  apply awaited_sync.
Qed.

(** The closure that uploads a file is suspended at once, on reading
    the file, before it has sent anything: it looks its parent up in
    [pathsToIds] when it is resumed, so it sees the folders recorded in
    the meantime.  Resumed in [w'] and then run alone, it is [uploadFile]
    followed by the recording: when the upload returns an id,
    [driveIdToPath[id] = path] is assigned and [pathsToIds] is not
    updated; when it returns no id, the closure only shows the notice
    about files. *)
Theorem file_upload_reads_parent_when_resumed :
  forall (fuel : nat) (env : Env) (note : TAbstractFile) (w w' : World),
    exists p,
      HelpersPush.noteAction fuel env note w = (Val p, w)
      /\ match uploadFile fuel (drive env)
                 (mkBlob (readBinary (vault env) (tf_path note)) "")
                 (tf_name note) (parentId (pathsToIds w') note)
                 (stamped (pathProperty (tf_path note)) (now env (trace w')))
                 w'
         with
         | (Val created, w2) =>
             match JS.nonEmpty created with
             | Some i =>
                 exists w3,
                   await p w' = (Val tt, w3)
                   /\ driveIdToPath (settings w3)
                      = JS.assign (driveIdToPath (settings w2)) i
                          (tf_path note)
                   /\ (i <> "__proto__" ->
                       JS.get (driveIdToPath (settings w3)) i
                       = Some (tf_path note))
                   /\ pathsToIds w3 = pathsToIds w2
                   /\ operations (settings w3) = operations (settings w2)
                   /\ trace w3 = trace w2
                   /\ notices w3 = notices w2
             | None => await p w' = (Val tt, noticed fileError w2)
             end
         | (Throw e, w2) => await p w' = (Throw e, w2)
         | (Diverge, w2) => await p w' = (Diverge, w2)
         end.
Proof.
  intros fuel env note w w'. eexists. split; [reflexivity |].
  cbn [await].
  match goal with
  | |- context [await (settle (fst (?c w'))) (snd (?c w'))] =>
      rewrite (await_started c w')
  end.
  rewrite noteAction_resumed, bind_run.
  destruct (uploadFile fuel (drive env) _ _ _ _ w') as [[created | e |] w2];
    try reflexivity.
  destruct (JS.nonEmpty created) as [i |]; [| reflexivity].
  rewrite record_one_way. eexists. split; [reflexivity |].
  cbn [settings driveIdToPath pathsToIds operations trace notices].
  repeat split. intros Hne. apply get_assign_same. exact Hne.
Qed.


